(** * Image-to-plotter vectorization pipeline: a shallow embedding

    The geometric core of the pipeline (path optimizer, Douglas-Peucker,
    centerline stitcher, hatching, curve fitter, line-weight simulator) is
    transcribed function by function.  JavaScript numbers are kept abstract
    behind the [Num] interface, which has two instances:

    - [FloatNum]: IEEE-754 binary64 (the primitive floats of the kernel),
      which is what the program computes with and which evaluates;
    - [RealNum]: the real numbers, the idealised arithmetic in which the
      order-theoretic properties are proved.

    Trigonometry ([Math.cos], [Math.sin], [Math.PI]) lives in the separate
    interface [Trig] and has a real instance only. *)

From Stdlib Require Import ZArith List Bool Lia Lra Reals Floats Permutation.
From Stdlib Require Import FunctionalExtensionality.
Import ListNotations.

Set Implicit Arguments.

(* ===================================================================== *)
(** ** Numbers                                                             *)
(* ===================================================================== *)

Class Num (N : Type) : Type := {
  ofZ    : Z -> N;              (* an integer literal or an array length *)
  nadd   : N -> N -> N;
  nsub   : N -> N -> N;
  nmul   : N -> N -> N;
  ndiv   : N -> N -> N;
  nsqrt  : N -> N;              (* Math.sqrt *)
  nabs   : N -> N;              (* Math.abs *)
  nopp   : N -> N;              (* unary minus *)
  nmax   : N -> N -> N;         (* Math.max *)
  nmin   : N -> N -> N;         (* Math.min *)
  nltb   : N -> N -> bool;      (* a < b *)
  nleb   : N -> N -> bool;      (* a <= b *)
  neqb   : N -> N -> bool;      (* a === b on numbers *)
  nltInf : N -> bool;           (* a < Infinity *)
  floorZ : N -> Z;              (* Math.floor, read back as an integer *)
  roundZ : N -> Z               (* Math.round, read back as an integer *)
}.

Declare Scope num_scope.
Delimit Scope num_scope with num.
Notation "a [+] b" := (nadd a b) (at level 50, left associativity) : num_scope.
Notation "a [-] b" := (nsub a b) (at level 50, left associativity) : num_scope.
Notation "a [*] b" := (nmul a b) (at level 40, left associativity) : num_scope.
Notation "a [/] b" := (ndiv a b) (at level 40, left associativity) : num_scope.
Notation "a [<] b" := (nltb a b) (at level 70, no associativity) : num_scope.
Notation "a [<=] b" := (nleb a b) (at level 70, no associativity) : num_scope.
Notation "a [>] b" := (nltb b a) (at level 70, no associativity) : num_scope.
Notation "a [>=] b" := (nleb b a) (at level 70, no associativity) : num_scope.
Notation "a [==] b" := (neqb a b) (at level 70, no associativity) : num_scope.
Local Open Scope num_scope.

Section NumDerived.
Context {N : Type} `{Num N}.

(** A decimal literal [n/d], e.g. [dec 3 10] for [0.3].  On binary64 the
    correctly rounded quotient of two small integers is the double the
    literal denotes. *)
Definition dec (n d : Z) : N := ofZ n [/] ofZ d.

(** [Math.ceil], read back as an integer. *)
Definition ceilZ (a : N) : Z := Z.opp (floorZ (nopp a)).

Definition ofNat (n : nat) : N := ofZ (Z.of_nat n).
End NumDerived.

Class Trig (N : Type) : Type := {
  ncos : N -> N;                (* Math.cos *)
  nsin : N -> N;                (* Math.sin *)
  nPI  : N                      (* Math.PI *)
}.

(** *** The binary64 instance *)

Module FloatImpl.
Definition of_Z (z : Z) : float := SF2Prim (binary_normalize prec emax z 0 false).

(** The integer [floor (m * 2^e)] of a finite double; [0] stands in for
    NaN and the infinities, which have no integer reading. *)
Definition floor (f : float) : Z :=
  match Prim2SF f with
  | S754_finite s m e =>
      let v := if s then Z.neg m else Z.pos m in
      if (0 <=? e)%Z then (v * 2 ^ e)%Z else (v / 2 ^ (- e))%Z
  | _ => 0%Z
  end.

(** [Math.round]: the nearest integer, ties towards +infinity. *)
Definition round (f : float) : Z :=
  match Prim2SF f with
  | S754_finite s m e =>
      let v := if s then Z.neg m else Z.pos m in
      if (0 <=? e)%Z then (v * 2 ^ e)%Z
      else ((2 * v + 2 ^ (- e)) / 2 ^ (- e + 1))%Z
  | _ => 0%Z
  end.

Definition is_nan (f : float) : bool := negb (PrimFloat.eqb f f).

Definition max (a b : float) : float :=
  if is_nan a || is_nan b then nan
  else if PrimFloat.ltb a b then b
  else if PrimFloat.ltb b a then a
  else if PrimFloat.eqb a 0 then PrimFloat.add a b else a.

Definition min (a b : float) : float :=
  if is_nan a || is_nan b then nan
  else if PrimFloat.ltb a b then a
  else if PrimFloat.ltb b a then b
  else if PrimFloat.eqb a 0
       then PrimFloat.opp (PrimFloat.add (PrimFloat.opp a) (PrimFloat.opp b))
       else a.
End FloatImpl.

#[export] Instance FloatNum : Num float := {|
  ofZ := FloatImpl.of_Z;
  nadd := PrimFloat.add;
  nsub := PrimFloat.sub;
  nmul := PrimFloat.mul;
  ndiv := PrimFloat.div;
  nsqrt := PrimFloat.sqrt;
  nabs := PrimFloat.abs;
  nopp := PrimFloat.opp;
  nmax := FloatImpl.max;
  nmin := FloatImpl.min;
  nltb := PrimFloat.ltb;
  nleb := PrimFloat.leb;
  neqb := PrimFloat.eqb;
  nltInf := fun a => PrimFloat.ltb a infinity;
  floorZ := FloatImpl.floor;
  roundZ := FloatImpl.round
|}.

(** *** The real instance *)

Module RealImpl.
Definition ltb (a b : R) : bool := if Rlt_dec a b then true else false.
Definition leb (a b : R) : bool := if Rle_dec a b then true else false.
Definition eqb (a b : R) : bool := if Req_dec_T a b then true else false.
Definition round (a : R) : Z := Int_part (a + / 2)%R.
End RealImpl.

#[export] Instance RealNum : Num R := {|
  ofZ := IZR;
  nadd := Rplus;
  nsub := Rminus;
  nmul := Rmult;
  ndiv := Rdiv;
  nsqrt := R_sqrt.sqrt;
  nabs := Rabs;
  nopp := Ropp;
  nmax := Rmax;
  nmin := Rmin;
  nltb := RealImpl.ltb;
  nleb := RealImpl.leb;
  neqb := RealImpl.eqb;
  nltInf := fun _ => true;
  floorZ := Int_part;
  roundZ := RealImpl.round
|}.

#[export] Instance RealTrig : Trig R := {|
  ncos := Rtrigo_def.cos;
  nsin := Rtrigo_def.sin;
  nPI := Rtrigo1.PI
|}.

(* ===================================================================== *)
(** ** Shared data model                                                   *)
(* ===================================================================== *)

Section DataModel.
Context {N : Type}.

Record Point : Type := mkPoint { x : N; y : N }.

Definition Path : Type := list Point.
End DataModel.
Arguments Point N : clear implicits.
Arguments Path N : clear implicits.

(** An 8-bit single-channel OpenCV matrix ([cv.Mat] of type CV_8UC1):
    [data] holds [rows * cols] bytes, row by row. *)
Record Mat : Type := mkMat { rows : nat; cols : nat; mdata : list Z }.

(** [mat.ucharPtr(r, c)[0]]. *)
Definition ucharPtr (m : Mat) (r c : nat) : Z := nth (r * cols m + c) (mdata m) 0%Z.

(** JavaScript array helpers. *)
Section Arrays.
Context {A : Type}.

(** [a[i]] for an index the surrounding loop keeps in range; [d] is
    returned where JavaScript would yield [undefined]. *)
Definition at_ (d : A) (l : list A) (i : nat) : A := nth i l d.

(** [a.slice(s, e)] for [0 <= s]. *)
Definition slice (l : list A) (s e : nat) : list A := firstn (e - s) (skipn s l).

(** [a.slice(s, e)] with a possibly negative [s] or [e], which JavaScript
    counts from the end; both are then clamped to [0 .. length]. *)
Definition sliceZ (l : list A) (s e : Z) : list A :=
  let len := Z.of_nat (length l) in
  let k := if (s <? 0)%Z then Z.max (len + s) 0 else Z.min s len in
  let f := if (e <? 0)%Z then Z.max (len + e) 0 else Z.min e len in
  slice l (Z.to_nat k) (Z.to_nat f).

(** [a[i] = v] for [i] within the array. *)
Fixpoint set_at (l : list A) (i : nat) (v : A) : list A :=
  match l, i with
  | [], _ => []
  | _ :: t, O => v :: t
  | h :: t, S j => h :: set_at t j v
  end.
End Arrays.

(* ===================================================================== *)
(** ** curve-fitting.ts: [CurveFitter]                                     *)
(* ===================================================================== *)

Module CurveFitter.
Section WithNum.
Context {N : Type} `{Num N}.

Record BezierCurve : Type := mkBezier {
  start : Point N; control1 : Point N; control2 : Point N; end_ : Point N
}.

Record Arc : Type := mkArc {
  arc_start : Point N; arc_end : Point N; center : Point N;
  radius : N; clockwise : bool
}.

(** [type CurveSegment = BezierCurve | Arc], discriminated by [type]. *)
Inductive CurveSegment : Type :=
| SegBezier (b : BezierCurve)
| SegArc (a : Arc).

Definition seg_start (c : CurveSegment) : Point N :=
  match c with SegBezier b => start b | SegArc a => arc_start a end.

Definition seg_end (c : CurveSegment) : Point N :=
  match c with SegBezier b => end_ b | SegArc a => arc_end a end.

Definition origin : Point N := mkPoint (ofZ 0) (ofZ 0).

Definition distance (p1 p2 : Point N) : N :=
  let dx := x p2 [-] x p1 in
  let dy := y p2 [-] y p1 in
  nsqrt (dx [*] dx [+] dy [*] dy).

Definition evaluateBezier (curve : BezierCurve) (t : N) : Point N :=
  let u := ofZ 1 [-] t in
  let tt := t [*] t in
  let uu := u [*] u in
  let uuu := uu [*] u in
  let ttt := tt [*] t in
  mkPoint
    (uuu [*] x (start curve) [+] ofZ 3 [*] uu [*] t [*] x (control1 curve)
       [+] ofZ 3 [*] u [*] tt [*] x (control2 curve) [+] ttt [*] x (end_ curve))
    (uuu [*] y (start curve) [+] ofZ 3 [*] uu [*] t [*] y (control1 curve)
       [+] ofZ 3 [*] u [*] tt [*] y (control2 curve) [+] ttt [*] y (end_ curve)).

Definition createSimpleBezier (p0 p1 p2 : Point N) : BezierCurve :=
  let c1 := mkPoint (x p0 [+] (x p1 [-] x p0) [*] dec 5 10)
                    (y p0 [+] (y p1 [-] y p0) [*] dec 5 10) in
  let c2 := mkPoint (x p1 [+] (x p2 [-] x p1) [*] dec 5 10)
                    (y p1 [+] (y p2 [-] y p1) [*] dec 5 10) in
  mkBezier p0 c1 c2 p2.

(** RMS distance between [points[i]] and the curve at [i / (n - 1)]. *)
Definition calculateCurveError (points : list (Point N)) (curve : BezierCurve) : N :=
  let n := length points in
  let totalError :=
    fold_left
      (fun totalError i =>
         let t := ofNat i [/] ofZ (Z.of_nat n - 1) in
         let curvePoint := evaluateBezier curve t in
         let error := distance (at_ origin points i) curvePoint in
         totalError [+] error [*] error)
      (seq 0 n) (ofZ 0) in
  nsqrt (totalError [/] ofNat n).

Definition calculateTangent (points : list (Point N)) (index : nat) : Point N :=
  let n := length points in
  let p := at_ origin points in
  let tangent :=
    if Nat.eqb index 0 then
      mkPoint (x (p 1%nat) [-] x (p 0%nat)) (y (p 1%nat) [-] y (p 0%nat))
    else if Nat.eqb index (n - 1) then
      mkPoint (x (p (n - 1)%nat) [-] x (p (n - 2)%nat))
              (y (p (n - 1)%nat) [-] y (p (n - 2)%nat))
    else
      mkPoint (x (p (index + 1)%nat) [-] x (p (index - 1)%nat))
              (y (p (index + 1)%nat) [-] y (p (index - 1)%nat)) in
  let length := nsqrt (x tangent [*] x tangent [+] y tangent [*] y tangent) in
  if length [>] ofZ 0
  then mkPoint (x tangent [/] length) (y tangent [/] length)
  else tangent.

(** The eight perturbations [{dx, dy}] tried around each control point. *)
Definition perturbations (step : N) : list (N * N) :=
  [ (step, ofZ 0); (nopp step, ofZ 0);
    (ofZ 0, step); (ofZ 0, nopp step);
    (step, step); (nopp step, nopp step);
    (step, nopp step); (nopp step, step) ].

Definition optimizeControlPoints (points : list (Point N))
    (start0 control10 control20 end0 : Point N) : Point N * Point N :=
  let bestError0 := calculateCurveError points (mkBezier start0 control10 control20 end0) in
  let step := dec 5 10 in
  let iterations := 5%nat in
  let try_pair (st : Point N * Point N * N) (p1 p2 : N * N) :=
    let '(bestC1, bestC2, bestError) := st in
    let newC1 := mkPoint (x bestC1 [+] fst p1) (y bestC1 [+] snd p1) in
    let newC2 := mkPoint (x bestC2 [+] fst p2) (y bestC2 [+] snd p2) in
    let error := calculateCurveError points (mkBezier start0 newC1 newC2 end0) in
    if error [<] bestError then (newC1, newC2, error) else st in
  let one_iter (st : Point N * Point N * N) (_ : nat) :=
    fold_left
      (fun st1 p1 => fold_left (fun st2 p2 => try_pair st2 p1 p2) (perturbations step) st1)
      (perturbations step) st in
  let '(bestC1, bestC2, _) :=
    fold_left one_iter (seq 0 iterations) (control10, control20, bestError0) in
  (bestC1, bestC2).

Definition fitBezierToPoints (points : list (Point N)) : BezierCurve :=
  let n := length points in
  if (n <? 3)%nat then
    let p0 := at_ origin points 0 in
    let p1 := nth 1 points p0 in
    let p2 := nth 2 points p1 in
    createSimpleBezier p0 p1 p2
  else
    let start0 := at_ origin points 0 in
    let end0 := at_ origin points (n - 1) in
    let startTangent := calculateTangent points 0 in
    let endTangent := calculateTangent points (n - 1) in
    let alpha := dec 3 10 in
    let startLength := distance start0 end0 [*] alpha in
    let endLength := distance start0 end0 [*] alpha in
    let c1 := mkPoint (x start0 [+] x startTangent [*] startLength)
                      (y start0 [+] y startTangent [*] startLength) in
    let c2 := mkPoint (x end0 [-] x endTangent [*] endLength)
                      (y end0 [-] y endTangent [*] endLength) in
    let optimized := optimizeControlPoints points start0 c1 c2 end0 in
    mkBezier start0 (fst optimized) (snd optimized) end0.

(** The candidate lengths [maxSegmentLength, ..., 3], longest first; the
    first one whose fit is within tolerance wins. *)
Definition findBestCurveFit (points : list (Point N)) (startIndex : nat)
    (tolerance : N) : option (BezierCurve * nat) :=
  let maxSegmentLength := Nat.min (length points - startIndex) 20 in
  let fix search (lengths : list nat) : option (BezierCurve * nat) :=
    match lengths with
    | [] => None
    | len :: rest =>
        let endIndex := (startIndex + len - 1)%nat in
        if (length points <=? endIndex)%nat then search rest
        else
          let segment := slice points startIndex (endIndex + 1) in
          let curve := fitBezierToPoints segment in
          let error := calculateCurveError segment curve in
          if error [<=] tolerance then Some (curve, endIndex) else search rest
    end in
  search (rev (seq 3 (maxSegmentLength - 2))).

(** The [while (i < points.length - 1)] loop; [None] when the fuel runs out. *)
Fixpoint fitCurves_loop (fuel : nat) (points : list (Point N)) (tolerance : N)
    (i : nat) (curves : list CurveSegment) : option (list CurveSegment) :=
  if (i <? length points - 1)%nat then
    match fuel with
    | O => None
    | S fuel' =>
        match findBestCurveFit points i tolerance with
        | Some (curve, endIndex) =>
            fitCurves_loop fuel' points tolerance endIndex (curves ++ [SegBezier curve])
        | None =>
            if (i <? length points - 2)%nat then
              let simpleCurve :=
                createSimpleBezier (at_ origin points i) (at_ origin points (i + 1))
                                   (at_ origin points (i + 2)) in
              fitCurves_loop fuel' points tolerance (i + 2) (curves ++ [SegBezier simpleCurve])
            else
              fitCurves_loop fuel' points tolerance (i + 1) curves
        end
    end
  else Some curves.

(** Every round of the loop advances [i], so [length points] rounds suffice. *)
Definition fitCurves (points : list (Point N)) (tolerance : N) : option (list CurveSegment) :=
  if (length points <? 3)%nat then Some []
  else fitCurves_loop (length points) points tolerance 0 [].







End WithNum.
End CurveFitter.

(* ===================================================================== *)
(** ** path-optimization.ts: [PathOptimizer]                               *)
(* ===================================================================== *)

Module PathOptimizer.
Section WithNum.
Context {N : Type} `{Num N}.

Record OptimizationResult : Type := mkResult {
  paths : list (Path N);
  totalDistance : N;
  improvement : N
}.

(** The options object; an absent field takes its default. *)
Record Options : Type := mkOptions {
  enablePathMerging : option bool;
  enable2Opt : option bool;
  mergeThreshold : option N;
  maxIterations : option nat
}.

Definition origin : Point N := mkPoint (ofZ 0) (ofZ 0).

Definition distance (p1 p2 : Point N) : N :=
  let dx := x p2 [-] x p1 in
  let dy := y p2 [-] y p1 in
  nsqrt (dx [*] dx [+] dy [*] dy).

(** [path[path.length - 1]] and [path[0]]. *)
Definition lastPoint (p : Path N) : Point N := at_ origin p (length p - 1).
Definition firstPoint (p : Path N) : Point N := at_ origin p 0.

Definition nonEmpty (p : Path N) : bool := (0 <? length p)%nat.

Definition calculateTotalTravelDistance (paths : list (Path N)) : N :=
  fold_left
    (fun totalDistance i =>
       let currentPath := at_ [] paths i in
       let nextPath := at_ [] paths (i + 1) in
       if nonEmpty currentPath && nonEmpty nextPath
       then totalDistance [+] distance (lastPoint currentPath) (firstPoint nextPath)
       else totalDistance)
    (seq 0 (length paths - 1)) (ofZ 0).

Definition calculatePathOrderDistance (paths : list (Path N)) (order : list nat) : N :=
  fold_left
    (fun totalDistance i =>
       let currentPath := at_ [] paths (at_ 0%nat order i) in
       let nextPath := at_ [] paths (at_ 0%nat order (i + 1)) in
       if nonEmpty currentPath && nonEmpty nextPath
       then totalDistance [+] distance (lastPoint currentPath) (firstPoint nextPath)
       else totalDistance)
    (seq 0 (length order - 1)) (ofZ 0).

(** [prevPath] and [nextPath] are [null] at the two ends of the list. *)
Definition calculateTravelBetween (path1 path2 : Path N)
    (prevPath nextPath : option (Path N)) : N :=
  let distance0 := ofZ 0 in
  let distance1 :=
    match prevPath with
    | Some prev =>
        if nonEmpty prev && nonEmpty path1
        then distance0 [+] distance (lastPoint prev) (firstPoint path1)
        else distance0
    | None => distance0
    end in
  let distance2 :=
    if nonEmpty path1 && nonEmpty path2
    then distance1 [+] distance (lastPoint path1) (firstPoint path2)
    else distance1 in
  match nextPath with
  | Some next =>
      if nonEmpty path2 && nonEmpty next
      then distance2 [+] distance (lastPoint path2) (firstPoint next)
      else distance2
  | None => distance2
  end.

(** [[a[i], a[j]] = [a[j], a[i]]]. *)
Definition swap_at {A : Type} (d : A) (l : list A) (i j : nat) : list A :=
  set_at (set_at l i (at_ d l j)) j (at_ d l i).

(** The context of the pair [(i, i+1)] as [greedyImprovement] reads it. *)
Definition travelAt (improved : list (Path N)) (i : nat) : N :=
  calculateTravelBetween
    (at_ [] improved i) (at_ [] improved (i + 1))
    (if (0 <? i)%nat then Some (at_ [] improved (i - 1)) else None)
    (if (i + 2 <? length improved)%nat then Some (at_ [] improved (i + 2)) else None).

(** One round of the [for] loop: swap, test, and swap back if not better. *)
Definition greedy_step (st : list (Path N) * bool) (i : nat) : list (Path N) * bool :=
  let '(improved, madeImprovement) := st in
  let originalDistance := travelAt improved i in
  let swapped := swap_at [] improved i (i + 1) in
  let newDistance := travelAt swapped i in
  if newDistance [<] originalDistance then (swapped, true)
  else (swap_at [] swapped i (i + 1), madeImprovement).

Definition greedy_pass (improved : list (Path N)) : list (Path N) * bool :=
  fold_left greedy_step (seq 0 (length improved - 1)) (improved, false).

(** [while (madeImprovement)]; [None] when the fuel runs out. *)
Fixpoint greedy_loop (fuel : nat) (improved : list (Path N)) : option (list (Path N)) :=
  match fuel with
  | O => None
  | S fuel' =>
      let '(improved', madeImprovement) := greedy_pass improved in
      if madeImprovement then greedy_loop fuel' improved' else Some improved'
  end.

Definition greedyImprovement (fuel : nat) (paths : list (Path N)) : option (list (Path N)) :=
  if (length paths <=? 2)%nat then Some paths else greedy_loop fuel paths.

(** [while (i < j) { swap; i++; j-- }] on a copy of [order]. *)
Fixpoint swap2Opt_loop (fuel : nat) (newOrder : list nat) (i j : nat) : list nat :=
  match fuel with
  | O => newOrder
  | S fuel' =>
      if (i <? j)%nat
      then swap2Opt_loop fuel' (swap_at 0%nat newOrder i j) (i + 1) (j - 1)
      else newOrder
  end.

Definition swap2Opt (order : list nat) (i j : nat) : list nat :=
  swap2Opt_loop (S j) order i j.

Definition try2Opt (paths : list (Path N)) (i : nat)
    (st : list nat * N * bool) (j : nat) : list nat * N * bool :=
  let '(currentOrder, bestDistance, improved) := st in
  if Nat.eqb (j - i) 1 then st
  else
    let newOrder := swap2Opt currentOrder i j in
    let newDistance := calculatePathOrderDistance paths newOrder in
    if newDistance [<] bestDistance then (newOrder, newDistance, true) else st.

(** One sweep over all pairs [1 <= i < length - 2], [i + 1 <= j < length]. *)
Definition apply2Opt_pass (paths : list (Path N)) (st : list nat * N) : list nat * N * bool :=
  let len := length (fst st) in
  fold_left
    (fun st1 i => fold_left (try2Opt paths i) (seq (i + 1) (len - (i + 1))) st1)
    (seq 1 (len - 3)) (st, false).

(** [while (improved && iteration < maxIterations)]. *)
Fixpoint apply2Opt_loop (iterations : nat) (paths : list (Path N))
    (st : list nat * N) : list nat * N :=
  match iterations with
  | O => st
  | S k =>
      let '(st', improved) := apply2Opt_pass paths st in
      if improved then apply2Opt_loop k paths st' else st'
  end.

Definition apply2Opt (paths : list (Path N)) (maxIterations : nat) : list (Path N) :=
  if (length paths <? 4)%nat then paths
  else
    let currentOrder := seq 0 (length paths) in
    let bestDistance := calculatePathOrderDistance paths currentOrder in
    let '(finalOrder, _) := apply2Opt_loop maxIterations paths (currentOrder, bestDistance) in
    map (fun index => at_ [] paths index) finalOrder.

(** The four endpoint pairings, in the order of the [connections] array. *)
Definition connections (path1 path2 : Path N) : list (N * Path N) :=
  let p1Start := firstPoint path1 in
  let p1End := lastPoint path1 in
  let p2Start := firstPoint path2 in
  let p2End := lastPoint path2 in
  [ (distance p1End p2Start, path1 ++ path2);
    (distance p1End p2End, path1 ++ rev path2);
    (distance p1Start p2Start, rev path1 ++ path2);
    (distance p1Start p2End, rev path1 ++ rev path2) ].

(** [Array.prototype.reduce] without an initial value. *)
Definition reduce1 {A : Type} (f : A -> A -> A) (l : list A) (d : A) : A :=
  match l with
  | [] => d
  | a :: t => fold_left f t a
  end.

Definition tryMergePaths (path1 path2 : Path N) (threshold : N) : option (Path N) :=
  if Nat.eqb (length path1) 0 || Nat.eqb (length path2) 0 then None
  else
    let best :=
      reduce1 (fun min conn => if fst conn [<] fst min then conn else min)
              (connections path1 path2) (ofZ 0, []) in
    if fst best [<=] threshold then Some (snd best) else None.

Definition has (used : list nat) (i : nat) : bool := existsb (Nat.eqb i) used.

(** The inner [for (j ...)] scan: the first unused [j] that merges. *)
Fixpoint scan_merge (paths : list (Path N)) (threshold : N) (used : list nat)
    (currentPath : Path N) (js : list nat) : option (Path N * nat) :=
  match js with
  | [] => None
  | j :: rest =>
      if has used j then scan_merge paths threshold used currentPath rest
      else
        match tryMergePaths currentPath (at_ [] paths j) threshold with
        | Some mergeResult => Some (mergeResult, j)
        | None => scan_merge paths threshold used currentPath rest
        end
  end.

(** [while (foundMerge)]: every successful round uses up one more index,
    so [length paths] rounds of fuel are never exhausted. *)
Fixpoint merge_loop (fuel : nat) (paths : list (Path N)) (threshold : N)
    (used : list nat) (currentPath : Path N) : Path N * list nat :=
  match fuel with
  | O => (currentPath, used)
  | S fuel' =>
      match scan_merge paths threshold used currentPath (seq 0 (length paths)) with
      | Some (mergeResult, j) => merge_loop fuel' paths threshold (j :: used) mergeResult
      | None => (currentPath, used)
      end
  end.

Definition merge_step (paths : list (Path N)) (threshold : N)
    (st : list (Path N) * list nat) (i : nat) : list (Path N) * list nat :=
  let '(merged, used) := st in
  if has used i then st
  else
    let '(currentPath, used') :=
      merge_loop (length paths) paths threshold (i :: used) (at_ [] paths i) in
    if (0 <? length currentPath)%nat then (merged ++ [currentPath], used')
    else (merged, used').

Definition mergePaths (paths : list (Path N)) (threshold : N) : list (Path N) :=
  if (length paths <=? 1)%nat then paths
  else fst (fold_left (merge_step paths threshold) (seq 0 (length paths)) ([], [])).

Definition orDefault {A : Type} (o : option A) (d : A) : A :=
  match o with Some a => a | None => d end.

(** [optimizePaths]; [fuel] bounds the rounds of the greedy pass. *)
Definition optimizePaths (fuel : nat) (paths0 : list (Path N)) (options : Options)
    : option OptimizationResult :=
  let merging := orDefault (enablePathMerging options) true in
  let twoOpt := orDefault (enable2Opt options) true in
  let threshold := orDefault (mergeThreshold options) (ofZ 5) in
  let iterations := orDefault (maxIterations options) 100%nat in
  if Nat.eqb (length paths0) 0 then Some (mkResult [] (ofZ 0) (ofZ 0))
  else
    let originalDistance := calculateTotalTravelDistance paths0 in
    let optimized1 := if merging then mergePaths paths0 threshold else paths0 in
    let optimized2 :=
      if twoOpt && (2 <? length optimized1)%nat
      then apply2Opt optimized1 iterations else optimized1 in
    match greedyImprovement fuel optimized2 with
    | None => None
    | Some optimized3 =>
        let finalDistance := calculateTotalTravelDistance optimized3 in
        let improvement :=
          if originalDistance [>] ofZ 0
          then (originalDistance [-] finalDistance) [/] originalDistance [*] ofZ 100
          else ofZ 0 in
        Some (mkResult optimized3 finalDistance improvement)
    end.
End WithNum.
End PathOptimizer.

(* ===================================================================== *)
(** ** advanced-hatching.ts: [AdvancedHatcher]                             *)
(* ===================================================================== *)

Module AdvancedHatcher.

Inductive HatchingStyle : Type := PARALLEL | CONTOUR | CROSS | STIPPLING.

Section WithNum.
Context {N : Type} `{Num N} `{Trig N}.

(** [cv.findContours(mask, ..., RETR_LIST, CHAIN_APPROX_SIMPLE)]: the
    contours of the mask as integer vertex lists.  It belongs to OpenCV
    and is taken as given. *)
Variable findContours : Mat -> list (list (Z * Z)).

(** The values that successive calls of [Math.random()] return; the
    functions that draw from it thread the number of calls made so far. *)
Variable rnd : nat -> N.

Definition origin : Point N := mkPoint (ofZ 0) (ofZ 0).

Definition isPointInMask (point : Point N) (mask : Mat) : bool :=
  let xi := floorZ (x point) in
  let yi := floorZ (y point) in
  if (xi <? 0)%Z || (Z.of_nat (cols mask) <=? xi)%Z
     || (yi <? 0)%Z || (Z.of_nat (rows mask) <=? yi)%Z
  then false
  else (0 <? ucharPtr mask (Z.to_nat yi) (Z.to_nat xi))%Z.

(** The state of the sampling loop along one hatch line:
    [(path, paths, inRegion)]. *)
Definition sample_step (mask : Mat) (width height : N)
    (startX startY endX endY : N) (steps : Z)
    (st : Path N * list (Path N) * bool) (step : nat)
    : Path N * list (Path N) * bool :=
  let '(path, paths, inRegion) := st in
  let t := ofNat step [/] ofZ steps in
  let xi := roundZ (startX [+] (endX [-] startX) [*] t) in
  let yi := roundZ (startY [+] (endY [-] startY) [*] t) in
  if (ofZ xi [>=] ofZ 0) && (ofZ xi [<] width) && (ofZ yi [>=] ofZ 0) && (ofZ yi [<] height)
  then
    let p := mkPoint (ofZ xi) (ofZ yi) in
    let isInMask := isPointInMask p mask in
    if isInMask && negb inRegion then (path ++ [p], paths, true)
    else if negb isInMask && inRegion then
      ([], (if (1 <? length path)%nat then paths ++ [path] else paths), false)
    else if isInMask && inRegion then (path ++ [p], paths, inRegion)
    else st
  else st.

(** One hatch line at [offset]: the body of the outer [for] loop. *)
Definition hatchLine (mask : Mat) (width height : N) (cos sin diagonal : N)
    (paths : list (Path N)) (offset : N) : list (Path N) :=
  let startX := nopp diagonal [*] cos [+] offset [*] nopp sin in
  let startY := nopp diagonal [*] sin [+] offset [*] cos in
  let endX := diagonal [*] cos [+] offset [*] nopp sin in
  let endY := diagonal [*] sin [+] offset [*] cos in
  let steps := floorZ (diagonal [*] ofZ 2) in
  let '(path, paths', _) :=
    fold_left (sample_step mask width height startX startY endX endY steps)
              (seq 0 (Z.to_nat (steps + 1))) ([], paths, false) in
  if (1 <? length path)%nat then paths' ++ [path] else paths'.

(** [for (offset = -diagonal; offset < diagonal; offset += spacing)];
    [None] when the fuel runs out. *)
Fixpoint parallel_loop (fuel : nat) (mask : Mat) (width height : N)
    (cos sin diagonal spacing : N) (offset : N) (paths : list (Path N))
    : option (list (Path N)) :=
  if offset [<] diagonal then
    match fuel with
    | O => None
    | S fuel' =>
        parallel_loop fuel' mask width height cos sin diagonal spacing
                      (offset [+] spacing)
                      (hatchLine mask width height cos sin diagonal paths offset)
    end
  else Some paths.

Definition generateParallelHatching (fuel : nat) (mask : Mat)
    (intensity baseSpacing angle width height : N) : option (list (Path N)) :=
  let radians := (angle [*] nPI) [/] ofZ 180 in
  let cos := ncos radians in
  let sin := nsin radians in
  let spacing := baseSpacing [/] nmax (dec 3 10) intensity in
  let diagonal := nsqrt (width [*] width [+] height [*] height) in
  parallel_loop fuel mask width height cos sin diagonal spacing (nopp diagonal) [].

Definition varyLineLength (path : Path N) (factor : N) : Path N :=
  if (length path <? 2)%nat then path
  else
    let newLength := floorZ (ofNat (length path) [*] factor) in
    if (newLength <? 2)%Z then [at_ origin path 0; at_ origin path 1]
    else
      let startIndex := floorZ (ofZ (Z.of_nat (length path) - newLength) [/] ofZ 2) in
      sliceZ path startIndex (startIndex + newLength).

(** [layerPaths.map(path => varyLineLength(path, 0.8 + Math.random() * 0.4))]:
    one draw per path, in order. *)
Definition varyAll (layerPaths : list (Path N)) (k : nat) : list (Path N) * nat :=
  fold_left
    (fun (st : list (Path N) * nat) path =>
       (fst st ++ [varyLineLength path (dec 8 10 [+] rnd (snd st) [*] dec 4 10)],
        S (snd st)))
    layerPaths ([], k).

Definition crossAngles (primaryAngle : N) : list N :=
  [ primaryAngle; primaryAngle [+] ofZ 90; primaryAngle [+] ofZ 45;
    primaryAngle [+] ofZ 135 ].

Definition cross_layer (fuel : nat) (mask : Mat)
    (baseSpacing primaryAngle width height : N)
    (st : option (list (Path N) * nat)) (layer : nat) : option (list (Path N) * nat) :=
  match st with
  | None => None
  | Some (paths, k) =>
      let layerAngle := at_ (ofZ 0) (crossAngles primaryAngle) (layer mod 4) in
      let layerSpacing := baseSpacing [*] (ofZ 1 [+] ofNat layer [*] dec 3 10) in
      match generateParallelHatching fuel mask (ofZ 1) layerSpacing layerAngle
                                     width height with
      | None => None
      | Some layerPaths =>
          if (0 <? layer)%nat then
            let '(modifiedPaths, k') := varyAll layerPaths k in
            Some (paths ++ modifiedPaths, k')
          else Some (paths ++ layerPaths, k)
      end
  end.

Definition generateCrossHatching (fuel : nat) (mask : Mat)
    (intensity baseSpacing primaryAngle width height : N) (k : nat)
    : option (list (Path N) * nat) :=
  let maxLayers := ofZ 4 in
  let numLayers := Z.to_nat (ceilZ (intensity [*] maxLayers)) in
  fold_left (cross_layer fuel mask baseSpacing primaryAngle width height)
            (seq 0 numLayers) (Some ([], k)).

(** *** Poisson-disk sampling *)

(** The background grid, as the list of its occupied cells. *)
Definition Grid : Type := list ((Z * Z) * Point N).

Definition grid_get (grid : Grid) (cx cy : Z) : option (Point N) :=
  match find (fun e => (fst (fst e) =? cx)%Z && (snd (fst e) =? cy)%Z) grid with
  | Some e => Some (snd e)
  | None => None
  end.

Definition offsets5 : list Z := [-2; -1; 0; 1; 2]%Z.

(** No occupied cell within two cells of the candidate holds a point
    closer than [minDist]. *)
Definition candidate_valid (grid : Grid) (gridWidth gridHeight : Z) (minDist : N)
    (candidate : Point N) (gridX gridY : Z) : bool :=
  forallb
    (fun dx =>
       forallb
         (fun dy =>
            let nx := (gridX + dx)%Z in
            let ny := (gridY + dy)%Z in
            if (0 <=? nx)%Z && (nx <? gridWidth)%Z && (0 <=? ny)%Z && (ny <? gridHeight)%Z
            then
              match grid_get grid nx ny with
              | Some neighbor =>
                  let dist :=
                    nsqrt ((x candidate [-] x neighbor) [*] (x candidate [-] x neighbor)
                           [+] (y candidate [-] y neighbor) [*] (y candidate [-] y neighbor)) in
                  negb (dist [<] minDist)
              | None => true
              end
            else true)
         offsets5)
    offsets5.

(** The [for (i = 0; i < k; i++)] attempts around [current]; returns the
    accepted candidate with its cell, and the number of draws made. *)
Fixpoint attempts (tries : nat) (grid : Grid) (gridWidth gridHeight : Z)
    (width height minDist maxDist cellSize : N) (current : Point N) (k : nat)
    : option (Point N * (Z * Z)) * nat :=
  match tries with
  | O => (None, k)
  | S tries' =>
      let angle := rnd k [*] ofZ 2 [*] nPI in
      let distance := minDist [+] rnd (S k) [*] (maxDist [-] minDist) in
      let candidate := mkPoint (x current [+] ncos angle [*] distance)
                               (y current [+] nsin angle [*] distance) in
      let k' := S (S k) in
      if (x candidate [>=] ofZ 0) && (x candidate [<] width)
         && (y candidate [>=] ofZ 0) && (y candidate [<] height)
      then
        let gridX := floorZ (x candidate [/] cellSize) in
        let gridY := floorZ (y candidate [/] cellSize) in
        if candidate_valid grid gridWidth gridHeight minDist candidate gridX gridY
        then (Some (candidate, (gridX, gridY)), k')
        else attempts tries' grid gridWidth gridHeight width height minDist maxDist
                      cellSize current k'
      else attempts tries' grid gridWidth gridHeight width height minDist maxDist
                    cellSize current k'
  end.

(** [active.splice(i, 1)]. *)
Definition remove_at {A : Type} (l : list A) (i : nat) : list A :=
  firstn i l ++ skipn (S i) l.

(** [while (active.length > 0 && points.length < target)]; [None] when
    the fuel runs out. *)
Fixpoint poisson_loop (fuel : nat) (gridWidth gridHeight : Z)
    (width height minDist maxDist density cellSize : N)
    (grid : Grid) (points active : list (Point N)) (k : nat)
    : option (list (Point N) * nat) :=
  if (0 <? length active)%nat
     && (ofNat (length points)
           [<] width [*] height [*] density [/] (minDist [*] minDist))
  then
    match fuel with
    | O => None
    | S fuel' =>
        let randomIndex := Z.to_nat (floorZ (rnd k [*] ofNat (length active))) in
        let current := at_ origin active randomIndex in
        match attempts 30 grid gridWidth gridHeight width height minDist maxDist
                       cellSize current (S k) with
        | (Some (candidate, cell), k') =>
            poisson_loop fuel' gridWidth gridHeight width height minDist maxDist density
                         cellSize ((cell, candidate) :: grid)
                         (points ++ [candidate]) (active ++ [candidate]) k'
        | (None, k') =>
            poisson_loop fuel' gridWidth gridHeight width height minDist maxDist density
                         cellSize grid points (remove_at active randomIndex) k'
        end
    end
  else Some (points, k).

Definition poissonDiskSampling (fuel : nat) (width height minDist maxDist density : N)
    (k : nat) : option (list (Point N) * nat) :=
  let cellSize := minDist [/] nsqrt (ofZ 2) in
  let gridWidth := ceilZ (width [/] cellSize) in
  let gridHeight := ceilZ (height [/] cellSize) in
  let first := mkPoint (rnd k [*] width) (rnd (S k) [*] height) in
  let firstGridX := floorZ (x first [/] cellSize) in
  let firstGridY := floorZ (y first [/] cellSize) in
  poisson_loop fuel gridWidth gridHeight width height minDist maxDist density cellSize
               [((firstGridX, firstGridY), first)] [first] [first] (S (S k)).

Definition generateStippling (fuel : nat) (mask : Mat)
    (intensity baseSpacing width height : N) (k : nat)
    : option (list (Path N) * nat) :=
  let dotDensity := intensity [*] dec 3 10 in
  let minSpacing := baseSpacing [*] dec 5 10 in
  let maxSpacing := baseSpacing [*] ofZ 2 in
  match poissonDiskSampling fuel width height minSpacing maxSpacing dotDensity k with
  | None => None
  | Some (dots, k1) =>
      Some
        (fold_left
           (fun (st : list (Path N) * nat) dot =>
              if isPointInMask dot mask then
                let dotSize := dec 5 10 [+] rnd (snd st) [*] ofZ 1 in
                (fst st ++ [[dot; mkPoint (x dot [+] dotSize) (y dot)]], S (snd st))
              else st)
           dots ([], k1))
  end.

(** *** Contour hatching *)

Definition offsetContour (contour : list (Z * Z)) (offset : N) : option (list (Point N)) :=
  if (length contour <? 3)%nat then None
  else
    let points := map (fun c => mkPoint (ofZ (fst c)) (ofZ (snd c))) contour in
    let n := length points in
    Some
      (map
         (fun i =>
            let prev := at_ origin points ((i + n - 1) mod n) in
            let curr := at_ origin points i in
            let next := at_ origin points ((i + 1) mod n) in
            let v1 := mkPoint (x curr [-] x prev) (y curr [-] y prev) in
            let v2 := mkPoint (x next [-] x curr) (y next [-] y curr) in
            let normal := mkPoint (nopp (y v1 [+] y v2)) (x v1 [+] x v2) in
            let length := nsqrt (x normal [*] x normal [+] y normal [*] y normal) in
            if length [>] ofZ 0 then
              mkPoint (x curr [+] x normal [/] length [*] offset)
                      (y curr [+] y normal [/] length [*] offset)
            else curr)
         (seq 0 n)).

Definition smoothContour (points : list (Point N)) (iterations : nat) : list (Point N) :=
  fold_left
    (fun smoothed _ =>
       let n := length smoothed in
       map
         (fun i =>
            let prev := at_ origin smoothed ((i + n - 1) mod n) in
            let curr := at_ origin smoothed i in
            let next := at_ origin smoothed ((i + 1) mod n) in
            mkPoint ((x prev [+] ofZ 2 [*] x curr [+] x next) [/] ofZ 4)
                    ((y prev [+] ofZ 2 [*] y curr [+] y next) [/] ofZ 4))
         (seq 0 n))
    (seq 0 iterations) points.

Definition generateContourHatching (mask : Mat) (intensity baseSpacing : N)
    : list (Path N) :=
  let contours := findContours mask in
  if Nat.eqb (length contours) 0 then []
  else
    let spacing := baseSpacing [/] (dec 3 10 [+] intensity [*] dec 7 10) in
    let numLayers := Z.to_nat (ceilZ (intensity [*] ofZ 8)) in
    flat_map
      (fun layer =>
         let offset := nopp (ofNat layer) [*] spacing in
         flat_map
           (fun contour =>
              match offsetContour contour offset with
              | Some offsetPoints =>
                  if (3 <? length offsetPoints)%nat then
                    let smoothed := smoothContour offsetPoints 2 in
                    if (2 <? length smoothed)%nat then [smoothed] else []
                  else []
              | None => []
              end)
           contours)
      (seq 0 numLayers).

(** [generateHatching]: the paths, and the number of [Math.random()]
    calls made once it returns. *)
Definition generateHatching (fuel : nat) (mask : Mat) (intensity : N)
    (style : HatchingStyle) (baseSpacing angle width height : N) (k : nat)
    : option (list (Path N) * nat) :=
  match style with
  | CONTOUR => Some (generateContourHatching mask intensity baseSpacing, k)
  | CROSS => generateCrossHatching fuel mask intensity baseSpacing angle width height k
  | STIPPLING => generateStippling fuel mask intensity baseSpacing width height k
  | PARALLEL =>
      match generateParallelHatching fuel mask intensity baseSpacing angle width height with
      | Some paths => Some (paths, k)
      | None => None
      end
  end.
End WithNum.
End AdvancedHatcher.

(* ===================================================================== *)
(** ** variable-line-weight.ts: [LineWeightSimulator]                      *)
(* ===================================================================== *)

Module LineWeightSimulator.

Inductive LineWeightStyle : Type := PARALLEL | OUTLINE | SCRIBBLE | ZIGZAG.

Section WithNum.
Context {N : Type} `{Num N}.

Record WeightedPath : Type := mkWeightedPath {
  centerline : Path N;
  weight : N;            (* 1.0 = normal, >1.0 = thicker, <1.0 = thinner *)
  style : LineWeightStyle
}.

Definition origin : Point N := mkPoint (ofZ 0) (ofZ 0).

Definition calculateNormal (p1 p2 : Point N) : Point N :=
  let dx := x p2 [-] x p1 in
  let dy := y p2 [-] y p1 in
  let length := nsqrt (dx [*] dx [+] dy [*] dy) in
  if length [==] ofZ 0 then mkPoint (ofZ 0) (ofZ 1)
  else mkPoint (nopp dy [/] length) (dx [/] length).

Definition offsetPath (path : Path N) (distance : N) : Path N :=
  if (length path <? 2)%nat then path
  else if nabs distance [<] dec 1 10 then path
  else
    map
      (fun i =>
         let current := at_ origin path i in
         let normal :=
           if Nat.eqb i 0 then calculateNormal current (at_ origin path 1)
           else if Nat.eqb i (length path - 1)
           then calculateNormal (at_ origin path (i - 1)) current
           else
             let prev := at_ origin path (i - 1) in
             let next := at_ origin path (i + 1) in
             let normal1 := calculateNormal prev current in
             let normal2 := calculateNormal current next in
             let avg := mkPoint ((x normal1 [+] x normal2) [/] ofZ 2)
                                ((y normal1 [+] y normal2) [/] ofZ 2) in
             let length := nsqrt (x avg [*] x avg [+] y avg [*] y avg) in
             if length [>] ofZ 0
             then mkPoint (x avg [/] length) (y avg [/] length)
             else avg in
         mkPoint (x current [+] x normal [*] distance)
                 (y current [+] y normal [*] distance))
      (seq 0 (length path)).

Definition shortenPath (path : Path N) (factor : N) : Path N :=
  if (length path <? 3)%nat then path
  else
    let removeCount := floorZ (ofNat (length path) [*] factor [/] ofZ 2) in
    let startIndex := Z.max 0 removeCount in
    let endIndex := Z.min (Z.of_nat (length path)) (Z.of_nat (length path) - removeCount) in
    sliceZ path startIndex endIndex.

Definition createParallelLines (centerline : Path N) (weight : N) : list (Path N) :=
  let thickness := (weight [-] ofZ 1) [*] ofZ 2 in
  let numLines := Z.max 1 (ceilZ (weight [*] ofZ 2)) in
  flat_map
    (fun i =>
       let offset :=
         (ofNat i [-] ofZ (numLines - 1) [/] ofZ 2)
           [*] (thickness [/] ofZ (Z.max 1 (numLines - 1))) in
       let offsetPath0 := offsetPath centerline offset in
       if (1 <? length offsetPath0)%nat then [offsetPath0] else [])
    (seq 0 (Z.to_nat numLines)).

Definition createOutlineFill (centerline : Path N) (weight : N) : list (Path N) :=
  let thickness := (weight [-] ofZ 1) [*] ofZ 2 in
  let topOutline := offsetPath centerline (thickness [/] ofZ 2) in
  let bottomOutline := offsetPath centerline (nopp thickness [/] ofZ 2) in
  let outlines :=
    (if (1 <? length topOutline)%nat then [topOutline] else [])
      ++ (if (1 <? length bottomOutline)%nat then [bottomOutline] else []) in
  let fillSpacing := nmax (dec 5 10) (thickness [/] ofZ 8) in
  let numFillLines := (floorZ (thickness [/] fillSpacing) - 1)%Z in
  outlines ++
    flat_map
      (fun i =>
         let offset := nopp thickness [/] ofZ 2 [+] ofNat i [*] fillSpacing in
         let fillPath := offsetPath centerline offset in
         if (1 <? length fillPath)%nat then [shortenPath fillPath (dec 1 10)] else [])
      (seq 1 (Z.to_nat numFillLines)).

(** [seededRandom]: one step of the generator, the new state and the
    number it returns. *)
Definition seededRandom_next (state : Z) : Z * N :=
  let state' := ((state * 1664525 + 1013904223) mod 4294967296)%Z in
  (state', ofZ state' [/] ofZ 4294967296).

Definition createScribbleAroundPath (centerline : Path N) (thickness : N) (seed : Z)
    : Path N :=
  let wobbleAmount := thickness [/] ofZ 4 in
  snd
    (fold_left
       (fun (st : Z * Path N) i =>
          let '(s0, scribble) := st in
          let point := at_ origin centerline i in
          let '(s1, r1) := seededRandom_next s0 in
          let wobbleX := (r1 [-] dec 5 10) [*] wobbleAmount in
          let '(s2, r2) := seededRandom_next s1 in
          let wobbleY := (r2 [-] dec 5 10) [*] wobbleAmount in
          let scribble1 := scribble ++ [mkPoint (x point [+] wobbleX) (y point [+] wobbleY)] in
          let '(s3, r3) := seededRandom_next s2 in
          if (r3 [<] dec 3 10) && (i <? length centerline - 1)%nat then
            let nextPoint := at_ origin centerline (i + 1) in
            let '(s4, r4) := seededRandom_next s3 in
            let midX := (x point [+] x nextPoint) [/] ofZ 2
                          [+] (r4 [-] dec 5 10) [*] wobbleAmount in
            let '(s5, r5) := seededRandom_next s4 in
            let midY := (y point [+] y nextPoint) [/] ofZ 2
                          [+] (r5 [-] dec 5 10) [*] wobbleAmount in
            (s5, scribble1 ++ [mkPoint midX midY])
          else (s3, scribble1))
       (seq 0 (length centerline)) (seed, [])).

Definition createScribbleFill (centerline : Path N) (weight : N) : list (Path N) :=
  let thickness := (weight [-] ofZ 1) [*] ofZ 2 in
  let scribbleIntensity := nmin thickness (ofZ 4) in
  let numScribbles := ceilZ (scribbleIntensity [*] ofZ 3) in
  centerline ::
    flat_map
      (fun i =>
         let scribblePath := createScribbleAroundPath centerline thickness (Z.of_nat i) in
         if (1 <? length scribblePath)%nat then [scribblePath] else [])
      (seq 0 (Z.to_nat numScribbles)).

Definition createZigzagPattern (centerline : Path N) (thickness : N) : Path N :=
  let amplitude := thickness [/] ofZ 2 in
  let frequency := nmax (ofZ 2) thickness in
  flat_map
    (fun i =>
       let current := at_ origin centerline i in
       let next := at_ origin centerline (i + 1) in
       let normal := calculateNormal current next in
       let segmentLength :=
         nsqrt ((x next [-] x current) [*] (x next [-] x current)
                [+] (y next [-] y current) [*] (y next [-] y current)) in
       let numZigs := Z.max 1 (floorZ (segmentLength [/] frequency)) in
       map
         (fun j =>
            let t := ofNat j [/] ofZ numZigs in
            let basePoint := mkPoint (x current [+] (x next [-] x current) [*] t)
                                     (y current [+] (y next [-] y current) [*] t) in
            let side := if Nat.even j then ofZ 1 else ofZ (-1) in
            mkPoint (x basePoint [+] x normal [*] amplitude [*] side)
                    (y basePoint [+] y normal [*] amplitude [*] side))
         (seq 0 (Z.to_nat (numZigs + 1))))
    (seq 0 (length centerline - 1)).

Definition createZigzagFill (centerline : Path N) (weight : N) : list (Path N) :=
  let thickness := (weight [-] ofZ 1) [*] ofZ 2 in
  let zigzagPath := createZigzagPattern centerline thickness in
  let topOutline := offsetPath centerline (thickness [/] ofZ 2) in
  let bottomOutline := offsetPath centerline (nopp thickness [/] ofZ 2) in
  (if (1 <? length zigzagPath)%nat then [zigzagPath] else [])
    ++ (if (1 <? length topOutline)%nat then [topOutline] else [])
    ++ (if (1 <? length bottomOutline)%nat then [bottomOutline] else []).

Definition simulateWeight (centerline : Path N) (weight : N) (style : LineWeightStyle)
    : list (Path N) :=
  if (length centerline <? 2)%nat then [centerline]
  else if weight [<=] ofZ 1 then [centerline]
  else
    match style with
    | PARALLEL => createParallelLines centerline weight
    | OUTLINE => createOutlineFill centerline weight
    | SCRIBBLE => createScribbleFill centerline weight
    | ZIGZAG => createZigzagFill centerline weight
    end.

Definition simulateVariableWeight (weightedPaths : list WeightedPath) : list (Path N) :=
  fold_left
    (fun outputPaths weightedPath =>
       outputPaths ++
         simulateWeight (centerline weightedPath) (weight weightedPath) (style weightedPath))
    weightedPaths [].
End WithNum.
End LineWeightSimulator.

(* ===================================================================== *)
(** ** vectorization-engine.ts: [VectorizationEngine]                      *)
(* ===================================================================== *)

Module VectorizationEngine.
Section WithNum.
Context {N : Type} `{Num N}.

Definition origin : Point N := mkPoint (ofZ 0) (ofZ 0).

Definition perpendicularDistance (point lineStart lineEnd : Point N) : N :=
  let A := y lineEnd [-] y lineStart in
  let B := x lineStart [-] x lineEnd in
  let C := x lineEnd [*] y lineStart [-] x lineStart [*] y lineEnd in
  nabs (A [*] x point [+] B [*] y point [+] C) [/] nsqrt (A [*] A [+] B [*] B).

(** The scan [for (i = 1; i < end; i++)] for the farthest point; the pair
    is [(maxDistance, maxIndex)]. *)
Definition farthest (points : list (Point N)) : N * nat :=
  let end0 := (length points - 1)%nat in
  fold_left
    (fun (st : N * nat) i =>
       let distance :=
         perpendicularDistance (at_ origin points i) (at_ origin points 0)
                               (at_ origin points end0) in
       if distance [>] fst st then (distance, i) else st)
    (seq 1 (end0 - 1)) (ofZ 0, 0%nat).

(** [douglasPeucker]; the recursion is bounded by [fuel], [None] when it
    runs out. *)
Fixpoint douglasPeucker (fuel : nat) (points : list (Point N)) (epsilon : N)
    : option (list (Point N)) :=
  if (length points <=? 2)%nat then Some points
  else
    match fuel with
    | O => None
    | S fuel' =>
        let end0 := (length points - 1)%nat in
        let '(maxDistance, maxIndex) := farthest points in
        if maxDistance [>] epsilon then
          match douglasPeucker fuel' (slice points 0 (maxIndex + 1)) epsilon with
          | None => None
          | Some leftPart =>
              match douglasPeucker fuel' (skipn maxIndex points) epsilon with
              | None => None
              | Some rightPart => Some (removelast leftPart ++ rightPart)
              end
          end
        else Some [at_ origin points 0; at_ origin points end0]
    end.

(** *** Centerline tracing *)

(** The canvas pixels: [data] is the RGBA byte array of [getImageData]. *)
Record ImageData : Type := mkImageData {
  width : nat; height : nat; data : list Z
}.

Record Segment : Type := mkSegment {
  seg_y : N; x1 : N; x2 : N; used : bool; midX : N
}.

Definition noSegment : Segment := mkSegment (ofZ 0) (ofZ 0) (ofZ 0) true (ofZ 0).

(** One row of the run detector; the state is [(inSegment, x1, row)]. *)
Definition scanRow (img : ImageData) (threshold : N) (row : nat) : list Segment :=
  let step (st : bool * nat * list Segment) (col : nat) :=
    let '(inSegment, start, segs) := st in
    let i := ((row * width img + col) * 4)%nat in
    let gray :=
      ofZ (at_ 0%Z (data img) i + at_ 0%Z (data img) (i + 1) + at_ 0%Z (data img) (i + 2))
        [/] ofZ 3 in
    let isBlack := gray [<] threshold in
    if isBlack && negb inSegment then (true, col, segs)
    else if negb isBlack && inSegment then
      let stop := (col - 1)%nat in
      (false, start,
       segs ++ [mkSegment (ofNat row) (ofNat start) (ofNat stop) false
                          ((ofNat start [+] ofNat stop) [/] ofZ 2)])
    else st in
  let '(inSegment, start, segs) := fold_left step (seq 0 (width img)) (false, 0%nat, []) in
  if inSegment then
    let stop := (width img - 1)%nat in
    segs ++ [mkSegment (ofNat row) (ofNat start) (ofNat stop) false
                       ((ofNat start [+] ofNat stop) [/] ofZ 2)]
  else segs.

Definition detectSegments (img : ImageData) (threshold : N) : list (list Segment) :=
  map (scanRow img threshold) (seq 0 (height img)).

(** Returns the position in [candidates] of the chosen segment object;
    [minDistance] is [None] while it is still [Infinity]. *)
Definition findClosestUnusedSegment (from : Segment) (candidates : list Segment)
    (proximity : N) : option nat :=
  fst
    (fold_left
       (fun (st : option nat * option N) k =>
          let to := at_ noSegment candidates k in
          if used to then st
          else
            let horizontalDistance :=
              nmax (ofZ 0) (nmax (x1 from) (x1 to) [-] nmin (x2 from) (x2 to)) in
            if horizontalDistance [<=] proximity [*] ofZ 2 then
              let midPointDistance := nabs (midX from [-] midX to) in
              let totalDistance := midPointDistance [+] horizontalDistance [*] dec 5 10 in
              let closer :=
                match snd st with
                | None => nltInf totalDistance
                | Some minDistance => totalDistance [<] minDistance
                end in
              if closer then (Some k, Some totalDistance) else st
            else st)
       (seq 0 (length candidates)) (None, None)).

(** A segment object is named by its row and its position in the row. *)
Definition SegRef : Type := (nat * nat)%type.

Definition getSeg (segmentsByRow : list (list Segment)) (r : SegRef) : Segment :=
  at_ noSegment (at_ [] segmentsByRow (fst r)) (snd r).

(** [segment.used = true] on the shared object. *)
Definition markUsed (segmentsByRow : list (list Segment)) (r : SegRef)
    : list (list Segment) :=
  let s := getSeg segmentsByRow r in
  set_at segmentsByRow (fst r)
    (set_at (at_ [] segmentsByRow (fst r)) (snd r)
            (mkSegment (seg_y s) (x1 s) (x2 s) true (midX s))).

(** The upward ([up = true]) or downward trace over the given rows; it
    stops at the first row without a candidate. *)
Fixpoint trace (proximity : N) (up : bool) (rows : list nat)
    (segmentsByRow : list (list Segment)) (currentSegment : Segment)
    (currentPath : list SegRef) : list (list Segment) * list SegRef :=
  match rows with
  | [] => (segmentsByRow, currentPath)
  | r :: rest =>
      match findClosestUnusedSegment currentSegment (at_ [] segmentsByRow r) proximity with
      | Some k =>
          let found := getSeg segmentsByRow (r, k) in
          trace proximity up rest (markUsed segmentsByRow (r, k)) found
                (if up then (r, k) :: currentPath else currentPath ++ [(r, k)])
      | None => (segmentsByRow, currentPath)
      end
  end.

Definition stitch_step (proximity : N) (rowCount : nat)
    (st : list (list Segment) * list (list SegRef)) (r : SegRef)
    : list (list Segment) * list (list SegRef) :=
  let '(segmentsByRow, allPaths) := st in
  let segment := getSeg segmentsByRow r in
  if used segment then st
  else
    let row := fst r in
    let store1 := markUsed segmentsByRow r in
    let '(store2, path2) :=
      trace proximity true (rev (seq 0 row)) store1 segment [r] in
    let '(store3, path3) :=
      trace proximity false (seq (row + 1) (rowCount - (row + 1))) store2 segment path2 in
    if (3 <=? length path3)%nat then (store3, allPaths ++ [path3])
    else (store3, allPaths).

(** All segment objects in iteration order: rows top to bottom, each row
    left to right. *)
Definition allRefs (segmentsByRow : list (list Segment)) : list SegRef :=
  flat_map (fun r => map (fun k => (r, k)) (seq 0 (length (at_ [] segmentsByRow r))))
           (seq 0 (length segmentsByRow)).

(** The stitching loop; the result is [allPaths] as lists of segment objects. *)
Definition stitch (segmentsByRow : list (list Segment)) (proximity : N)
    : list (list SegRef) :=
  snd (fold_left (stitch_step proximity (length segmentsByRow))
                 (allRefs segmentsByRow) (segmentsByRow, [])).

Definition traceCenterlines (img : ImageData) (threshold proximity : N)
    : list (Path N) :=
  let segmentsByRow := detectSegments img threshold in
  map (fun path => map (fun r => let seg := getSeg segmentsByRow r in
                                 mkPoint (midX seg) (seg_y seg)) path)
      (stitch segmentsByRow proximity).

(** *** Hatching: quantisation and the per-level masks *)

(** [quantized.data[i] = level * step], stored in a byte. *)
Definition quantize (numColors : nat) (gray : Mat) : Mat :=
  let step := ofZ 255 [/] ofNat numColors in
  mkMat (rows gray) (cols gray)
    (map (fun intensity =>
            let level := floorZ (ofZ intensity [/] step) in
            (floorZ (ofZ level [*] step) mod 256)%Z) (mdata gray)).

(** OpenCV's [cv.threshold(src, dst, thresh, maxval, THRESH_BINARY_INV)]
    on an 8-bit image: [dst = 0] where [src > thresh], [maxval] elsewhere. *)
Definition threshold_binary_inv (src : Mat) (thresh : N) (maxval : Z) : Mat :=
  mkMat (rows src) (cols src)
    (map (fun v => if ofZ v [>] thresh then 0%Z else maxval) (mdata src)).

(** The arguments [(mask, intensity)] of the hatcher call made for
    [level]. *)
Definition hatchLevel (numColors : nat) (gray : Mat) (level : nat) : Mat * N :=
  let step := ofZ 255 [/] ofNat numColors in
  let quantized := quantize numColors gray in
  let targetIntensity := ofNat level [*] step in
  let intensity := ofZ 1 [-] ofNat level [/] ofZ (Z.of_nat numColors - 1) in
  let mask := threshold_binary_inv quantized (targetIntensity [+] step [/] ofZ 2) 255 in
  (mask, intensity).

(** The calls made by [for (level = 0; level < numColors - 1; level++)]. *)
Definition hatchLevels (numColors : nat) (gray : Mat) : list (Mat * N) :=
  map (hatchLevel numColors gray) (seq 0 (numColors - 1)).

(** [generateAdvancedHatching] on the grayscale image of the canvas: the
    hatcher is called once per level and the paths are collected.  The
    random draws are threaded through the calls. *)
Definition generateAdvancedHatching `{Trig N}
    (findContours : Mat -> list (list (Z * Z))) (rnd : nat -> N) (fuel : nat)
    (gray : Mat) (numColors : nat) (hatchSpacing hatchAngle : N)
    (hatchingStyle : AdvancedHatcher.HatchingStyle) (canvasWidth canvasHeight : N)
    (k : nat) : option (list (Path N) * nat) :=
  fold_left
    (fun (st : option (list (Path N) * nat)) (call : Mat * N) =>
       match st with
       | None => None
       | Some (paths, k1) =>
           match AdvancedHatcher.generateHatching findContours rnd fuel (fst call)
                   (snd call) hatchingStyle hatchSpacing hatchAngle
                   canvasWidth canvasHeight k1 with
           | None => None
           | Some (hatchPaths, k2) => Some (paths ++ hatchPaths, k2)
           end
       end)
    (hatchLevels numColors gray) (Some ([], k)).

(** *** Paths as linear Bezier segments *)

(** [pathsToCurveSegments]: one "bezier" per edge of every path with at
    least two points, its control points on the edge. *)
Definition pathsToCurveSegments (paths : list (Path N)) : list CurveFitter.CurveSegment :=
  flat_map
    (fun path =>
       if (length path <? 2)%nat then []
       else
         map
           (fun i =>
              let start := at_ origin path i in
              let end_ := at_ origin path (i + 1) in
              let control1 := mkPoint (x start [+] (x end_ [-] x start) [*] dec 33 100)
                                      (y start [+] (y end_ [-] y start) [*] dec 33 100) in
              let control2 := mkPoint (x start [+] (x end_ [-] x start) [*] dec 67 100)
                                      (y start [+] (y end_ [-] y start) [*] dec 67 100) in
              CurveFitter.SegBezier (CurveFitter.mkBezier start control1 control2 end_))
           (seq 0 (length path - 1)))
    paths.
End WithNum.
End VectorizationEngine.

(* ===================================================================== *)
(** ** variable-line-weight.ts: [analyzeLineWeight]                        *)
(* ===================================================================== *)

(** The part of [LineWeightSimulator] that reads the canvas pixels; it
    follows [VectorizationEngine] for the [ImageData] record.
    [imageData.data] holds [4 * width * height] bytes, so every index read
    inside the border test is in range. *)
Module LineWeightAnalysis.

(** The [context] argument: ['outline' | 'detail' | 'fill'].  The
    [default] branch of the [switch] cannot be reached. *)
Inductive WeightContext : Type := OUTLINE_CONTEXT | DETAIL_CONTEXT | FILL_CONTEXT.

Section WithNum.
Context {N : Type} `{Num N}.

Definition origin : Point N := mkPoint (ofZ 0) (ofZ 0).

Definition neighbourhood : list Z := [-1; 0; 1]%Z.

(** The contrast of the 3x3 neighbourhood of [point], in [0 .. 1];
    [-1] off the interior of the image. *)
Definition measureLocalContrast (point : Point N) (imageData : VectorizationEngine.ImageData)
    : N :=
  let xi := floorZ (x point) in
  let yi := floorZ (y point) in
  let width := Z.of_nat (VectorizationEngine.width imageData) in
  let height := Z.of_nat (VectorizationEngine.height imageData) in
  let data := VectorizationEngine.data imageData in
  if (xi <? 1)%Z || (width - 1 <=? xi)%Z || (yi <? 1)%Z || (height - 1 <=? yi)%Z
  then ofZ (-1)
  else
    let '(minBrightness, maxBrightness) :=
      fold_left
        (fun st dy =>
           fold_left
             (fun (st2 : N * N) dx =>
                let idx := Z.to_nat (((yi + dy) * width + (xi + dx)) * 4) in
                let brightness :=
                  ofZ (at_ 0%Z data idx + at_ 0%Z data (idx + 1) + at_ 0%Z data (idx + 2))
                    [/] ofZ 3 in
                (nmin (fst st2) brightness, nmax (snd st2) brightness))
             neighbourhood st)
        neighbourhood (ofZ 255, ofZ 0) in
    (maxBrightness [-] minBrightness) [/] ofZ 255.

(** [Math.floor((i / (samplePoints - 1)) * (path.length - 1))]. *)
Definition sampleIndex (pathLength samplePoints i : nat) : Z :=
  floorZ ((ofNat i [/] ofNat (samplePoints - 1)) [*] ofNat (pathLength - 1)).

Definition analyzeLineWeight (path : Path N) (imageData : VectorizationEngine.ImageData)
    (context : WeightContext) : N :=
  if (length path <? 2)%nat then ofZ 1
  else
    let samplePoints := Nat.min 10 (length path) in
    let '(totalContrast, validSamples) :=
      fold_left
        (fun (st : N * nat) i =>
           let index := sampleIndex (length path) samplePoints i in
           let point := at_ origin path (Z.to_nat index) in
           let contrast := measureLocalContrast point imageData in
           if contrast [>=] ofZ 0 then (fst st [+] contrast, S (snd st)) else st)
        (seq 0 samplePoints) (ofZ 0, 0%nat) in
    if Nat.eqb validSamples 0 then ofZ 1
    else
      let avgContrast := totalContrast [/] ofNat validSamples in
      match context with
      | OUTLINE_CONTEXT => ofZ 1 [+] avgContrast [*] ofZ 2
      | DETAIL_CONTEXT => ofZ 1 [+] avgContrast [*] ofZ 1
      | FILL_CONTEXT => nmax (dec 5 10) (ofZ 1 [-] avgContrast [*] dec 5 10)
      end.
End WithNum.
End LineWeightAnalysis.

(* ===================================================================== *)
(** ** Concrete inputs of the scenarios                                    *)
(* ===================================================================== *)

(** A point with integer coordinates, in binary64. *)
Definition fpt (a b : Z) : Point float := mkPoint (ofZ a) (ofZ b).

(** Scenario S5: the polyline handed to the curve fitter. *)
Definition s5_points : list (Point float) :=
  [fpt 0 0; fpt 1 1; fpt 2 0; fpt 3 (-1); fpt 4 0].

(** Scenario S2: the two paths handed to the merger. *)
Definition s2_paths : list (Path float) :=
  [[fpt 0 0; fpt 10 0]; [fpt 11 0; fpt 20 0]].

(** A hatch run of ten samples, as the parallel hatcher emits them. *)
Definition run10 : Path float := map (fun i => fpt (Z.of_nat i) 0) (seq 0 10).

(** [0.8 + Math.random() * 0.4] when [Math.random()] returns [0.875]. *)
Definition factor_0875 : float := dec 8 10 [+] dec 875 1000 [*] dec 4 10.

(** A point with real integer coordinates. *)
Definition rpt (a b : Z) : Point R := mkPoint (IZR a) (IZR b).

Definition thin_wp : @LineWeightSimulator.WeightedPath float :=
  LineWeightSimulator.mkWeightedPath [fpt 0 0; fpt 10 0; fpt 10 10] (dec 5 10)
                                     LineWeightSimulator.ZIGZAG.




Definition three_paths : list (Path R) :=
  [[rpt 0 0; rpt 10 0]; [rpt 100 0; rpt 110 0]; [rpt 10 1; rpt 20 1]].

Definition merging_off : PathOptimizer.Options (N:=R) :=
  PathOptimizer.mkOptions (Some false) None None None.

(** A 2x2 mask with every pixel set. *)
Definition full_mask_2x2 : Mat := mkMat 2 2 [255; 255; 255; 255]%Z.

(** No contours: the stippling style never asks for them. *)
Definition no_contours (_ : Mat) : list (list (Z * Z)) := [].

(** Two runs of [Math.random()]: all draws 0, and all 0 but the third. *)
Definition draws_zero (_ : nat) : R := 0%R.
Definition draws_third_half (k : nat) : R := if Nat.eqb k 2 then (1 / 2)%R else 0%R.

(** Two more runs: every draw 0.5, and the first draw 0 with 0.5 after it. *)
Definition draws_half (_ : nat) : R := (1 / 2)%R.
Definition draws_zero_then_half (k : nat) : R := if Nat.eqb k 0 then 0%R else (1 / 2)%R.

(** A 3x4 mask (4 rows of 3 pixels) with every pixel set, and the stroke
    down its first column. *)
Definition full_mask_3x4 : Mat :=
  mkMat 4 3 [255; 255; 255; 255; 255; 255; 255; 255; 255; 255; 255; 255]%Z.

Definition column_stroke : Path R := [rpt 0 0; rpt 0 1; rpt 0 2; rpt 0 3].

(** The three paths of [three_paths] and the options, in binary64. *)
Definition three_paths_float : list (Path float) :=
  [[fpt 0 0; fpt 10 0]; [fpt 100 0; fpt 110 0]; [fpt 10 1; fpt 20 1]].

Definition merging_off_float : PathOptimizer.Options (N:=float) :=
  PathOptimizer.mkOptions (Some false) None None None.

(** Merging and 2-opt off: the greedy pass alone. *)
Definition greedy_only_float : PathOptimizer.Options (N:=float) :=
  PathOptimizer.mkOptions (Some false) (Some false) None None.

(** [optimizePaths(paths)] with no options given. *)
Definition default_options : PathOptimizer.Options (N:=float) :=
  PathOptimizer.mkOptions None None None None.

(** Five segments on the diagonal [y = x], and the two orders between which
    the greedy pass alternates once the 2-opt pass has run on them. *)
Definition diagonal_segments : list (Path float) :=
  [ [fpt 4 4; fpt 15 15]; [fpt 13 13; fpt 7 7]; [fpt 2 2; fpt 20 20];
    [fpt 6 6; fpt 27 27]; [fpt 4 4; fpt 18 18] ].

Definition diagonal_order_a : list (Path float) :=
  [ [fpt 4 4; fpt 15 15]; [fpt 4 4; fpt 18 18]; [fpt 2 2; fpt 20 20];
    [fpt 13 13; fpt 7 7]; [fpt 6 6; fpt 27 27] ].

Definition diagonal_order_b : list (Path float) :=
  [ [fpt 4 4; fpt 18 18]; [fpt 4 4; fpt 15 15]; [fpt 13 13; fpt 7 7];
    [fpt 2 2; fpt 20 20]; [fpt 6 6; fpt 27 27] ].

(** Five segments on a grid of integer points. *)
Definition five_segments : list (Path float) :=
  [ [fpt 4 0; fpt 2 0]; [fpt 1 1; fpt 2 3]; [fpt 3 1; fpt 1 2];
    [fpt 0 1; fpt 2 3]; [fpt 0 1; fpt 4 0] ].

(** A closed square, and three points on a line. *)
Definition closed_square : Path float := [fpt 0 0; fpt 5 0; fpt 5 5; fpt 0 5; fpt 0 0].

Definition collinear_points : Path float := [fpt 0 0; fpt 1 0; fpt 2 0].

(** A one-pixel black image. *)
Definition black_pixel : Mat := mkMat 1 1 [0%Z].

(** A white 3x3 image whose top left pixel is grey (102). *)
Definition grey_corner : VectorizationEngine.ImageData :=
  VectorizationEngine.mkImageData 3 3
    [ 102; 102; 102; 255;  255; 255; 255; 255;  255; 255; 255; 255;
      255; 255; 255; 255;  255; 255; 255; 255;  255; 255; 255; 255;
      255; 255; 255; 255;  255; 255; 255; 255;  255; 255; 255; 255 ]%Z.

(** A stroke that stays on the middle pixel. *)
Definition centre_stroke : Path R := [rpt 1 1; rpt 1 1].

(** The diagonal of a 2x2 canvas, and the spacing that a base spacing of
    1e-17 gives at intensity 1, in binary64. *)
Definition diagonal_2x2 : float := nsqrt (ofZ 2 [*] ofZ 2 [+] ofZ 2 [*] ofZ 2).
Definition tiny_spacing : float := dec 1 100000000000000000 [/] nmax (dec 3 10) (ofZ 1).

(** A horizontal stroke of two points. *)
Definition stroke : Path float := [fpt 0 0; fpt 10 0].

(** The same stroke over the reals. *)
Definition thick_stroke : Path R := [rpt 0 0; rpt 10 0].

(** A diagonal edge. *)
Definition diagonal_edge : Path R := [rpt 0 0; rpt 1 1].

(* ===================================================================== *)
(** ** Definitions used to state and prove the properties *)
(* ===================================================================== *)

Unset Implicit Arguments.


(** The scan for the farthest point, over the interior points [X] of a
    polyline with end points [a] and [b]; [k] is the index of the head. *)
Fixpoint scan (a b : Point R) (X : list (Point R)) (k : nat) (st : R * nat) : R * nat :=
  match X with
  | [] => st
  | p :: X' =>
      scan a b X' (S k)
           (if RealImpl.ltb (fst st) (VectorizationEngine.perpendicularDistance p a b)
            then (VectorizationEngine.perpendicularDistance p a b, k) else st)
  end.

(** The pen-up move from the end of [a] to the start of [b]; none when
    either path is empty. *)
Definition link (a b : Path R) : R :=
  if PathOptimizer.nonEmpty a && PathOptimizer.nonEmpty b
  then PathOptimizer.distance (PathOptimizer.lastPoint a) (PathOptimizer.firstPoint b)
  else 0%R.

Fixpoint travel (l : list (Path R)) : R :=
  match l with
  | a :: (b :: _) as t => (link a b + travel t)%R
  | _ => 0%R
  end.

(** The move into [a] from the last path of [pre], and out of [b] into the
    first path of [post]. *)
Definition link_prev (pre : list (Path R)) (a : Path R) : R :=
  match pre with [] => 0%R | _ => link (last pre []) a end.

Definition link_next (b : Path R) (post : list (Path R)) : R :=
  match post with [] => 0%R | c :: _ => link b c end.

(** All lists of length [n] over the elements of [elems]. *)
Fixpoint lists_over {A : Type} (n : nat) (elems : list A) : list (list A) :=
  match n with
  | O => [[]]
  | S k => flat_map (fun a => map (cons a) (lists_over k elems)) elems
  end.

(** How many orderings of the universe [U] travel strictly less than [t]. *)
Definition count_below (U : list (list (Path R))) (t : R) : nat :=
  length (filter (fun p => RealImpl.ltb (travel p) t) U).

(** The recorded best distance is the distance of the current order, and
    it is no more than at the start. *)
Definition consistent (paths : list (Path R)) (D0 : R) (st : list nat * R) : Prop :=
  snd st = PathOptimizer.calculatePathOrderDistance paths (fst st) /\ (snd st <= D0)%R.

(** What one round of the swap loop guarantees. *)
Definition improves (l0 : list (Path R)) (st : list (Path R) * bool) : Prop :=
  Permutation l0 (fst st) /\
  (travel (fst st) <= travel l0)%R /\
  (snd st = true -> (travel (fst st) < travel l0)%R).

(** The paths handed to the greedy pass when merging is off. *)
Definition after2Opt (paths0 : list (Path R)) (options : PathOptimizer.Options (N:=R))
    : list (Path R) :=
  if PathOptimizer.orDefault (PathOptimizer.enable2Opt options) true
     && (2 <? length paths0)%nat
  then PathOptimizer.apply2Opt paths0
         (PathOptimizer.orDefault (PathOptimizer.maxIterations options) 100%nat)
  else paths0.

(** Every segment collected so far is marked used in the store, and none
    is collected twice. *)
Definition collected {N : Type} {HN : Num N}
    (store : list (list (VectorizationEngine.Segment (N:=N))))
    (refs : list VectorizationEngine.SegRef) : Prop :=
  NoDup refs /\
  forall r, In r refs ->
    VectorizationEngine.used (VectorizationEngine.getSeg store r) = true.

(** Every point of the run lies inside the mask. *)
Definition hatch_run {N : Type} {HN : Num N} (mask : Mat) (path : Path N) : Prop :=
  Forall (fun p => AdvancedHatcher.isPointInMask p mask = true) path.

(** A polyline the hatcher may emit: two points or more, all inside the mask. *)
Definition hatch_path {N : Type} {HN : Num N} (mask : Mat) (path : Path N) : Prop :=
  (2 <= length path)%nat /\ hatch_run mask path.

(** [p] and [q] are at least [d] apart. *)
Definition far_apart (d : R) (p q : Point R) : Prop :=
  (d <= R_sqrt.sqrt ((x p - x q) * (x p - x q) + (y p - y q) * (y p - y q)))%R.

(** [p] lies on the canvas. *)
Definition on_canvas (width height : R) (p : Point R) : Prop :=
  (0 <= x p < width)%R /\ (0 <= y p < height)%R.

(** The grid cell of [p]. *)
Definition cell_of (cellSize : R) (p : Point R) : Z * Z :=
  (Int_part (x p / cellSize), Int_part (y p / cellSize)).

(** The background grid and the sample list agree, every sample sits in
    its own cell of the grid, and the samples are pairwise [minDist] apart. *)
Definition poisson_state (width height minDist cellSize : R)
    (grid : list ((Z * Z) * Point R)) (points : list (Point R)) : Prop :=
  (forall p, In p points <-> In p (map snd grid)) /\
  Forall (fun e => fst e = cell_of cellSize (snd e) /\ on_canvas width height (snd e)) grid /\
  NoDup (map fst grid) /\
  ForallOrdPairs (far_apart minDist) points.

(** The curves form a chain from [from] to [to]: the first starts at
    [from], each starts where the one before ends, the last ends at [to]. *)
Fixpoint chained {N : Type} {HN : Num N} (from : Point N)
    (curves : list (CurveFitter.CurveSegment (N:=N))) (to : Point N) : Prop :=
  match curves with
  | [] => from = to
  | c :: rest => CurveFitter.seg_start c = from /\ chained (CurveFitter.seg_end c) rest to
  end.

(** The indices used so far are distinct and in range, and the paths built
    from them hold exactly their points. *)
Definition merge_state {N : Type} (paths : list (Path N)) (built : Path N)
    (used : list nat) : Prop :=
  NoDup used /\
  (forall j, In j used -> j < length paths)%nat /\
  Permutation built (flat_map (fun j => at_ [] paths j) used).

(** No interior point of the polyline is farther than 0 from the chord
    between its two ends: the distance test of the scan never succeeds. *)
Definition nothing_off_chord {N : Type} {HN : Num N} (points : list (Point N)) : Prop :=
  forall i, (1 <= i < length points - 1)%nat ->
    (VectorizationEngine.perpendicularDistance
       (at_ VectorizationEngine.origin points i)
       (at_ VectorizationEngine.origin points 0)
       (at_ VectorizationEngine.origin points (length points - 1))
     [>] ofZ 0) = false.

(** The segment objects of [path] lie on consecutive rows, top to bottom,
    and each one carries the number of its row. *)
Definition descending {N : Type} {HN : Num N}
    (store0 : list (list (VectorizationEngine.Segment (N:=N))))
    (path : list VectorizationEngine.SegRef) : Prop :=
  (exists r0, map fst path = seq r0 (length path)) /\
  Forall (fun r => VectorizationEngine.seg_y (VectorizationEngine.getSeg store0 r)
                   = ofNat (fst r)) path.

(** Segments not yet used are still the objects of the detector. *)
Definition unused_unchanged {N : Type} {HN : Num N}
    (store0 store : list (list (VectorizationEngine.Segment (N:=N)))) : Prop :=
  forall r, VectorizationEngine.used (VectorizationEngine.getSeg store r) = false ->
            VectorizationEngine.getSeg store r = VectorizationEngine.getSeg store0 r.

(** Two runs of [Math.random()] return the same values at the calls
    number [lo], ..., [hi - 1]. *)
Definition same_draws {N : Type} (rnd1 rnd2 : nat -> N) (lo hi : nat) : Prop :=
  forall i, (lo <= i < hi)%nat -> rnd1 i = rnd2 i.

(** Every entry of the pixel array is a byte. *)
Definition bytes (data : list Z) : Prop := Forall (fun v => 0 <= v <= 255)%Z data.

(* ===================================================================== *)
(** ** Scenarios evaluated in binary64                                     *)
(* ===================================================================== *)

(** C6 (scenario S5).  Fitting curves to [(0,0),(1,1),(2,0),(3,-1),(4,0)]
    with tolerance 0.1 returns a non-empty list of curves; the first curve
    starts at (0,0) and the last one ends at (4,0). *)
Theorem fitCurves_S5_endpoints :
  exists first rest,
    CurveFitter.fitCurves s5_points (dec 1 10) = Some (first :: rest) /\
    CurveFitter.seg_start first = fpt 0 0 /\
    CurveFitter.seg_end (last (first :: rest) first) = fpt 4 0.
Proof.
  remember (CurveFitter.fitCurves s5_points (dec 1 10)) as r eqn:Er.
  vm_compute in Er.
  match type of Er with
  | r = Some (?c :: ?t) => exists c, t
  end.
  split; [exact Er|].
  split; vm_compute; reflexivity.
Qed.

(** C8 (scenario S2).  Merging [[(0,0),(10,0)], [(11,0),(20,0)]] with
    threshold 5.0 gives the single path [(0,0),(10,0),(11,0),(20,0)]. *)
Theorem mergePaths_S2 :
  PathOptimizer.mergePaths s2_paths (ofZ 5)
  = [[fpt 0 0; fpt 10 0; fpt 11 0; fpt 20 0]].
Proof. vm_compute. reflexivity. Qed.

(** C9.  A layer above 0 of the cross hatcher passes each run of the
    parallel hatcher to [varyLineLength] with the factor
    [0.8 + Math.random() * 0.4].  For a run of ten points and a draw of
    0.875 the factor is 1.15, the new length 11 exceeds the run, the start
    index is -1, and [slice] returns the last point alone: the emitted
    polyline has a single point. *)
Theorem varyLineLength_run10_single_point :
  length run10 = 10%nat /\
  PrimFloat.leb (dec 8 10) factor_0875 = true /\
  PrimFloat.leb factor_0875 (dec 12 10) = true /\
  AdvancedHatcher.varyLineLength run10 factor_0875 = [fpt 9 0] /\
  length (AdvancedHatcher.varyLineLength run10 factor_0875) = 1%nat.
Proof. repeat split; vm_compute; reflexivity. Qed.

(* ===================================================================== *)
(** ** Line weights at or below 1.0 (variable-line-weight.ts) *)
(* ===================================================================== *)

Lemma fold_left_app_flat_map {A B : Type} (f : A -> list B) (l : list A) (init : list B) :
  fold_left (fun acc a => acc ++ f a) l init = init ++ flat_map f l.
Proof.
  revert init. induction l as [|a l IH]; intros init; simpl.
  - now rewrite app_nil_r.
  - rewrite IH. now rewrite app_assoc.
Qed.

(** C10.  A weighted path whose weight is at most 1.0, or whose centerline
    has fewer than two points, is passed through: [simulateWeight] returns
    the centerline alone, and in the output of [simulateVariableWeight] it
    stands, unchanged, as the one path of that entry.  Weights below 1.0
    are not thinned in any way. *)
Theorem simulateWeight_thin_unchanged :
  forall (N : Type) (HN : Num N)
         (before after : list (@LineWeightSimulator.WeightedPath N))
         (wp : @LineWeightSimulator.WeightedPath N),
    (LineWeightSimulator.weight wp [<=] ofZ 1) = true \/
    (length (LineWeightSimulator.centerline wp) < 2)%nat ->
    LineWeightSimulator.simulateWeight
      (LineWeightSimulator.centerline wp) (LineWeightSimulator.weight wp)
      (LineWeightSimulator.style wp)
    = [LineWeightSimulator.centerline wp] /\
    LineWeightSimulator.simulateVariableWeight (before ++ wp :: after)
    = LineWeightSimulator.simulateVariableWeight before
        ++ [LineWeightSimulator.centerline wp]
        ++ LineWeightSimulator.simulateVariableWeight after.
Proof.
  intros N HN before after wp Hthin.
  assert (Hw : LineWeightSimulator.simulateWeight
                 (LineWeightSimulator.centerline wp) (LineWeightSimulator.weight wp)
                 (LineWeightSimulator.style wp)
               = [LineWeightSimulator.centerline wp]).
  { unfold LineWeightSimulator.simulateWeight.
    destruct (length (LineWeightSimulator.centerline wp) <? 2)%nat eqn:Hlen; [reflexivity|].
    destruct Hthin as [Hle | Hlt].
    - now rewrite Hle.
    - apply Nat.ltb_ge in Hlen. lia. }
  split; [exact Hw|].
  unfold LineWeightSimulator.simulateVariableWeight.
  rewrite !fold_left_app_flat_map. simpl.
  rewrite flat_map_app. simpl. now rewrite Hw.
Qed.

(** A zigzag-styled path of weight 0.5 comes out as its centerline. *)
Lemma simulateWeight_thin_unchanged_witness :
  LineWeightSimulator.simulateVariableWeight [thin_wp] = [[fpt 0 0; fpt 10 0; fpt 10 10]].
Proof.
  pose proof (@simulateWeight_thin_unchanged float FloatNum [] [] thin_wp) as Hthm.
  destruct Hthm as [_ Hall].
  - left. vm_compute. reflexivity.
  - exact Hall.
Defined.

(* ===================================================================== *)
(** ** Real arithmetic helpers *)
(* ===================================================================== *)

(** *** Comparisons of the real instance *)

Lemma real_ltb_true (a b : R) : RealImpl.ltb a b = true <-> (a < b)%R.
Proof. unfold RealImpl.ltb. destruct (Rlt_dec a b); split; intros; try easy. Qed.

Lemma real_ltb_false (a b : R) : RealImpl.ltb a b = false <-> (b <= a)%R.
Proof.
  unfold RealImpl.ltb. destruct (Rlt_dec a b); split; intros; try easy; lra.
Qed.

Lemma real_leb_true (a b : R) : RealImpl.leb a b = true <-> (a <= b)%R.
Proof. unfold RealImpl.leb. destruct (Rle_dec a b); split; intros; try easy. Qed.

Lemma real_leb_false (a b : R) : RealImpl.leb a b = false <-> (b < a)%R.
Proof.
  unfold RealImpl.leb. destruct (Rle_dec a b); split; intros; try easy; lra.
Qed.

Lemma Int_part_0 : Int_part 0 = 0%Z.
Proof. symmetry. apply Int_part_spec. simpl. lra. Qed.

Lemma Int_part_unique (r : R) (z : Z) :
  (IZR z <= r < IZR z + 1)%R -> Int_part r = z.
Proof.
  intros [Hlo Hhi].
  destruct (base_Int_part r) as [H1 H2].
  assert (Hlt1 : (IZR (Int_part r) < IZR (z + 1))%R) by (rewrite plus_IZR; lra).
  assert (Hlt2 : (IZR z < IZR (Int_part r + 1))%R) by (rewrite plus_IZR; lra).
  apply lt_IZR in Hlt1, Hlt2. lia.
Qed.

(** C2, as the code has it.  In Hatching mode there is one hatcher call per
    level [L = 0 .. numColors - 2].  Its mask has the size of the image and
    selects exactly the pixels whose quantized value is at most
    [(L + 0.5) * step], [step = 255 / numColors] (the threshold is applied
    with THRESH_BINARY_INV, so the dark side is kept); its intensity is
    [1 - L / (numColors - 1)]. *)
(* ===================================================================== *)
(** ** Hatching levels (vectorization-engine.ts) *)
(* ===================================================================== *)

Theorem hatching_mask_and_intensity :
  forall (numColors : nat) (gray : Mat) (L : nat),
    (L < numColors - 1)%nat ->
    let step := (255 / IZR (Z.of_nat numColors))%R in
    let quantized := VectorizationEngine.quantize (N:=R) numColors gray in
    length (VectorizationEngine.hatchLevels (N:=R) numColors gray) = (numColors - 1)%nat /\
    exists mask intensity,
      nth_error (VectorizationEngine.hatchLevels numColors gray) L = Some (mask, intensity) /\
      intensity = (1 - IZR (Z.of_nat L) / (IZR (Z.of_nat numColors) - 1))%R /\
      rows mask = rows gray /\ cols mask = cols gray /\
      length (mdata mask) = length (mdata gray) /\
      forall i, (i < length (mdata gray))%nat ->
        (nth i (mdata mask) 0%Z <> 0%Z
         <-> (IZR (nth i (mdata quantized) 0%Z) <= (IZR (Z.of_nat L) + 0.5) * step)%R).
Proof.
  intros numColors gray L HL step quantized.
  unfold VectorizationEngine.hatchLevels.
  split; [now rewrite length_map, length_seq|].
  eexists; eexists. split.
  { rewrite nth_error_map, nth_error_seq.
    replace (L <? numColors - 1)%nat with true by (symmetry; now apply Nat.ltb_lt).
    simpl. unfold VectorizationEngine.hatchLevel. reflexivity. }
  split.
  { unfold ofNat. simpl. rewrite minus_IZR. reflexivity. }
  split; [reflexivity|]. split; [reflexivity|].
  split.
  { simpl. now rewrite !length_map. }
  intros i Hi. simpl.
  assert (Hq : (i < length (mdata quantized))%nat).
  { unfold quantized. simpl. now rewrite length_map. }
  rewrite (nth_indep _ 0%Z (if RealImpl.ltb (IZR (Z.of_nat L) * (255 / IZR (Z.of_nat numColors))
                                              + 255 / IZR (Z.of_nat numColors) / 2) (IZR 0)
                          then 0%Z else 255%Z)) by (now rewrite length_map).
  rewrite (map_nth (fun v => if RealImpl.ltb _ (IZR v) then 0%Z else 255%Z)).
  fold quantized.
  unfold ofNat. simpl.
  destruct (RealImpl.ltb _ _) eqn:E.
  - apply real_ltb_true in E. split; [congruence|]. unfold step. intros; lra.
  - apply real_ltb_false in E. split; [|discriminate]. unfold step. intros; lra.
Qed.

(** Two levels of gray on a one-pixel image: level 0 is called with
    intensity [1 - 0 / (2 - 1)]. *)
Lemma hatching_mask_and_intensity_witness :
  exists mask intensity,
    nth_error (VectorizationEngine.hatchLevels (N:=R) 2 (mkMat 1 1 [0%Z])) 0 = Some (mask, intensity) /\
    intensity = (1 - IZR (Z.of_nat 0) / (IZR (Z.of_nat 2) - 1))%R.
Proof.
  destruct (@hatching_mask_and_intensity 2 (mkMat 1 1 [0%Z]) 0) as [_ [mask [intensity [H1 [H2 _]]]]].
  - simpl. lia.
  - exists mask, intensity. split; assumption.
Defined.

(** A black pixel, two gray levels: the level-0 mask selects the pixel,
    although its quantized value 0 is not at least [0.5 * 255 / 2]. *)
Lemma hatching_mask_selects_dark_pixel :
  let gray := mkMat 1 1 [0%Z] in
  let quantized := VectorizationEngine.quantize (N:=R) 2 gray in
  let mask := fst (VectorizationEngine.hatchLevel (N:=R) 2 gray 0) in
  nth 0 (mdata mask) 0%Z <> 0%Z /\
  ~ (IZR (nth 0 (mdata quantized) 0%Z) >= (0 + 0.5) * (255 / 2))%R.
Proof.
  assert (Hq : VectorizationEngine.quantize (N:=R) 2 (mkMat 1 1 [0%Z]) = mkMat 1 1 [0%Z]).
  { unfold VectorizationEngine.quantize, ofNat. simpl.
    replace (0 / (255 / 2))%R with 0%R by lra.
    rewrite Int_part_0.
    replace (0 * (255 / 2))%R with 0%R by lra.
    rewrite Int_part_0. reflexivity. }
  cbv zeta. unfold VectorizationEngine.hatchLevel. rewrite Hq.
  unfold VectorizationEngine.threshold_binary_inv, ofNat. simpl.
  replace (RealImpl.ltb (0 * (255 / 2) + 255 / 2 / 2) 0) with false.
  - split; [discriminate | lra].
  - symmetry. apply real_ltb_false. lra.
Qed.

(* ===================================================================== *)
(** ** Arc conversion (curve-fitting.ts) *)
(* ===================================================================== *)







(** *** An arc that is emitted *)










(* ===================================================================== *)
(** ** Centerline stitching (vectorization-engine.ts) *)
(* ===================================================================== *)

(** *** Array updates *)

Lemma length_set_at {A : Type} (l : list A) (i : nat) (v : A) :
  length (set_at l i v) = length l.
Proof.
  revert i. induction l as [|h t IH]; intros [|i]; simpl; auto.
Qed.

Lemma nth_set_at_same {A : Type} (l : list A) (i : nat) (v d : A) :
  (i < length l)%nat -> nth i (set_at l i v) d = v.
Proof.
  revert i. induction l as [|h t IH]; intros [|i] Hi; simpl in *; try lia; auto.
  apply IH. lia.
Qed.

Lemma nth_set_at_other {A : Type} (l : list A) (i j : nat) (v d : A) :
  i <> j -> nth j (set_at l i v) d = nth j l d.
Proof.
  revert i j. induction l as [|h t IH]; intros [|i] [|j] Hij; simpl; auto; try lia.
Qed.

Lemma set_at_out_of_range {A : Type} (l : list A) (i : nat) (v : A) :
  (length l <= i)%nat -> set_at l i v = l.
Proof.
  revert i. induction l as [|h t IH]; intros [|i] Hi; simpl in *; auto; try lia.
  f_equal. apply IH. lia.
Qed.

Section Centerline.
Context {N : Type} {HN : Num N}.

Import VectorizationEngine.

Local Abbreviation Store := (list (list (Segment (N:=N)))).

Lemma getSeg_markUsed_same (store : Store) (r : SegRef) :
  used (getSeg (markUsed store r) r) = true.
Proof.
  unfold getSeg, markUsed, at_. destruct r as [row col]. cbn [fst snd].
  destruct (Nat.lt_ge_cases row (length store)) as [Hrow | Hrow].
  - rewrite nth_set_at_same by exact Hrow.
    destruct (Nat.lt_ge_cases col (length (nth row store []))) as [Hcol | Hcol].
    + rewrite nth_set_at_same by exact Hcol. reflexivity.
    + rewrite set_at_out_of_range by exact Hcol.
      now rewrite nth_overflow by exact Hcol.
  - rewrite set_at_out_of_range by exact Hrow.
    rewrite (nth_overflow store) by exact Hrow.
    now destruct col.
Qed.

Lemma getSeg_markUsed_other (store : Store) (r r' : SegRef) :
  r <> r' -> getSeg (markUsed store r) r' = getSeg store r'.
Proof.
  intros Hne. unfold getSeg, markUsed, at_.
  destruct r as [row col], r' as [row' col']. cbn [fst snd].
  destruct (Nat.eq_dec row row') as [<- | Hrow].
  - destruct (Nat.lt_ge_cases row (length store)) as [Hin | Hout].
    + rewrite nth_set_at_same by exact Hin.
      apply nth_set_at_other. congruence.
    + now rewrite set_at_out_of_range by exact Hout.
  - now rewrite nth_set_at_other by exact Hrow.
Qed.

Lemma used_markUsed (store : Store) (r r' : SegRef) :
  used (getSeg store r') = true -> used (getSeg (markUsed store r) r') = true.
Proof.
  intros Hused.
  destruct (Nat.eq_dec (fst r) (fst r')) as [Hf | Hf];
    [destruct (Nat.eq_dec (snd r) (snd r')) as [Hs | Hs]|].
  - assert (r = r') as <- by (destruct r, r'; simpl in *; congruence).
    apply getSeg_markUsed_same.
  - rewrite getSeg_markUsed_other; [exact Hused | congruence].
  - rewrite getSeg_markUsed_other; [exact Hused | congruence].
Qed.

(** The segment chosen by [findClosestUnusedSegment] is unused, and lies
    within the row. *)
Lemma findClosest_unused (from : Segment) (candidates : list Segment)
    (proximity : N) (k : nat) :
  findClosestUnusedSegment from candidates proximity = Some k ->
  used (at_ noSegment candidates k) = false.
Proof.
  unfold findClosestUnusedSegment.
  set (step := fun (st : option nat * option N) (k0 : nat) => _).
  assert (Hinv : forall ks st,
             (forall k0, fst st = Some k0 -> used (at_ noSegment candidates k0) = false) ->
             forall k0, fst (fold_left step ks st) = Some k0 ->
                        used (at_ noSegment candidates k0) = false).
  { induction ks as [|j ks IH]; intros st Hst; simpl; [exact Hst|].
    apply IH. unfold step at 1.
    destruct (used (at_ noSegment candidates j)) eqn:Hu; [exact Hst|].
    destruct (_ [<=] _); [|exact Hst].
    match goal with |- context [if ?c then _ else _] => destruct c end; [|exact Hst].
    cbn [fst]. intros k0 Hk0. injection Hk0 as <-. exact Hu. }
  apply Hinv. cbn [fst]. discriminate.
Qed.

Lemma collected_add (store : Store) (refs : list SegRef) (r : SegRef) :
  collected store refs ->
  used (getSeg store r) = false ->
  collected (markUsed store r) (r :: refs).
Proof.
  intros [Hnd Hused] Hr. split.
  - constructor; [|exact Hnd].
    intros Hin. apply Hused in Hin. congruence.
  - intros r' [<- | Hin].
    + apply getSeg_markUsed_same.
    + apply used_markUsed. now apply Hused.
Qed.

Lemma collected_perm (store : Store) (refs refs' : list SegRef) :
  Permutation refs refs' -> collected store refs -> collected store refs'.
Proof.
  intros Hp [Hnd Hused]. split.
  - eapply Permutation_NoDup; eassumption.
  - intros r Hin. apply Hused. eapply Permutation_in; [symmetry|]; eassumption.
Qed.

Lemma trace_collected (proximity : N) (up : bool) (rows : list nat) :
  forall (store : Store) (cur : Segment) (path base : list SegRef),
    collected store (base ++ path) ->
    collected (fst (trace proximity up rows store cur path))
              (base ++ snd (trace proximity up rows store cur path)).
Proof.
  induction rows as [|row rows IH]; intros store cur path base Hc; simpl; [exact Hc|].
  destruct (findClosestUnusedSegment cur (at_ [] store row) proximity) as [k|] eqn:Hfind;
    [|exact Hc].
  apply IH.
  apply findClosest_unused in Hfind.
  change (used (getSeg store (row, k)) = false) in Hfind.
  pose proof (collected_add _ _ _ Hc Hfind) as Hadd.
  eapply collected_perm; [|exact Hadd].
  destruct up.
  - apply Permutation_middle.
  - rewrite app_assoc. apply Permutation_cons_append.
Qed.

Lemma stitch_step_collected (proximity : N) (rowCount : nat)
    (st : Store * list (list SegRef)) (r : SegRef) :
  collected (fst st) (concat (snd st)) ->
  collected (fst (stitch_step proximity rowCount st r))
            (concat (snd (stitch_step proximity rowCount st r))).
Proof.
  destruct st as [store allPaths]. cbn [fst snd]. intros Hc.
  unfold stitch_step.
  destruct (used (getSeg store r)) eqn:Hused; [exact Hc|].
  pose proof (collected_add _ _ _ Hc Hused) as H1.
  apply (collected_perm _ _ _ (Permutation_cons_append (concat allPaths) r)) in H1.
  pose proof (trace_collected proximity true (rev (seq 0 (fst r))) _
                (getSeg store r) [r] (concat allPaths) H1) as H2.
  destruct (trace proximity true _ _ _ _) as [store2 path2]. cbn [fst snd] in H2.
  pose proof (trace_collected proximity false
                (seq (fst r + 1) (rowCount - (fst r + 1))) _
                (getSeg store r) path2 (concat allPaths) H2) as H3.
  destruct (trace proximity false _ _ _ _) as [store3 path3]. cbn [fst snd] in H3.
  destruct (3 <=? length path3)%nat; cbn [fst snd].
  - rewrite concat_app. simpl. now rewrite app_nil_r.
  - destruct H3 as [Hnd Hu]. split.
    + eapply NoDup_app_remove_r. exact Hnd.
    + intros r' Hin. apply Hu. apply in_or_app. now left.
Qed.

(** C5.  In the paths stitched from the row segments, no segment object
    occurs twice: neither in two paths nor twice in one.  The points
    returned by [traceCenterlines] are these paths, segment by segment.
    This holds for every table of segments, hence for the one detected in
    any raster at any threshold, and for every proximity. *)
Theorem centerline_segments_used_once :
  forall (segmentsByRow : Store) (proximity : N),
    NoDup (concat (stitch segmentsByRow proximity)).
Proof.
  intros segmentsByRow proximity. unfold stitch.
  assert (Hfold : forall refs st,
             collected (fst st) (concat (snd st)) ->
             collected
               (fst (fold_left (stitch_step proximity (length segmentsByRow)) refs st))
               (concat (snd (fold_left (stitch_step proximity (length segmentsByRow)) refs st)))).
  { induction refs as [|r refs IH]; intros st Hst; simpl; [exact Hst|].
    apply IH. now apply stitch_step_collected. }
  apply (Hfold (allRefs segmentsByRow) (segmentsByRow, [])).
  split; [constructor | intros r []].
Qed.
End Centerline.

(* ===================================================================== *)
(** ** Douglas-Peucker (vectorization-engine.ts) *)
(* ===================================================================== *)

Local Abbreviation pd := (@VectorizationEngine.perpendicularDistance R RealNum).
Local Abbreviation DP := (@VectorizationEngine.douglasPeucker R RealNum).

Lemma farthest_fold (a0 b0 b : Point R) (X : list (Point R)) :
  forall (pre : list (Point R)) (st : R * nat),
    fold_left
      (fun (st : R * nat) i =>
         let distance := pd (at_ VectorizationEngine.origin (pre ++ X ++ [b]) i) a0 b0 in
         if distance [>] fst st then (distance, i) else st)
      (seq (length pre) (length X)) st
    = scan a0 b0 X (length pre) st.
Proof.
  induction X as [|p X IH]; intros pre st; [reflexivity|].
  cbn [length seq fold_left scan].
  change ((p :: X) ++ [b]) with (p :: X ++ [b]).
  unfold at_. rewrite nth_middle.
  replace (pre ++ p :: X ++ [b]) with ((pre ++ [p]) ++ X ++ [b])
    by (now rewrite <- app_assoc).
  replace (S (length pre)) with (length (pre ++ [p])) by (rewrite length_app; simpl; lia).
  apply (IH (pre ++ [p])).
Qed.

Lemma farthest_scan (a b : Point R) (X : list (Point R)) :
  VectorizationEngine.farthest (a :: X ++ [b]) = scan a b X 1 (0%R, 0%nat).
Proof.
  unfold VectorizationEngine.farthest.
  replace (length (a :: X ++ [b]) - 1)%nat with (S (length X))
    by (simpl; rewrite length_app; simpl; lia).
  replace (at_ VectorizationEngine.origin (a :: X ++ [b]) (S (length X))) with b
    by (unfold at_; simpl; now rewrite nth_middle).
  replace (S (length X) - 1)%nat with (length X) by lia.
  change (at_ VectorizationEngine.origin (a :: X ++ [b]) 0) with a.
  apply (farthest_fold a b b X [a]).
Qed.

Lemma scan_app a b X Y k st :
  scan a b (X ++ Y) k st = scan a b Y (k + length X) (scan a b X k st).
Proof.
  revert k st. induction X as [|p X IH]; intros k st; cbn [scan app length].
  - now rewrite Nat.add_0_r.
  - rewrite IH. f_equal. lia.
Qed.

Lemma scan_no_update a b X k st :
  (forall p, In p X -> (pd p a b <= fst st)%R) -> scan a b X k st = st.
Proof.
  revert k st. induction X as [|p X IH]; intros k st Hle; cbn [scan]; [reflexivity|].
  replace (RealImpl.ltb (fst st) (pd p a b)) with false.
  - apply IH. intros p' Hp'. apply Hle. now right.
  - symmetry. apply real_ltb_false. apply Hle. now left.
Qed.

Lemma scan_below a b X k st (M : R) :
  (forall p, In p X -> (pd p a b < M)%R) -> (fst st < M)%R ->
  (fst (scan a b X k st) < M)%R.
Proof.
  revert k st. induction X as [|p X IH]; intros k st Hlt Hst; cbn [scan]; [exact Hst|].
  apply IH.
  - intros p' Hp'. apply Hlt. now right.
  - destruct (RealImpl.ltb _ _); [|exact Hst]. cbn [fst]. apply Hlt. now left.
Qed.

(** What the scan returns: either nothing was found and the state is
    unchanged, or the list splits at the first point of maximal distance. *)
Lemma scan_spec a b X k st :
  (scan a b X k st = st /\ forall p, In p X -> (pd p a b <= fst st)%R) \/
  exists X1 c X2,
    X = X1 ++ c :: X2 /\
    scan a b X k st = (pd c a b, (k + length X1)%nat) /\
    (fst st < pd c a b)%R /\
    (forall p, In p X1 -> (pd p a b < pd c a b)%R) /\
    (forall p, In p X2 -> (pd p a b <= pd c a b)%R).
Proof.
  revert k st. induction X as [|p X IH]; intros k st.
  - left. split; [reflexivity|intros p []].
  - cbn [scan].
    destruct (RealImpl.ltb (fst st) (pd p a b)) eqn:Hcmp.
    + apply real_ltb_true in Hcmp.
      destruct (IH (S k) (pd p a b, k)) as [[Heq Hle] | (X1 & c & X2 & -> & Hs & Hlt & H1 & H2)].
      * right. exists [], p, X. cbn [fst] in *.
        repeat split; auto.
        -- rewrite Heq. f_equal. simpl. lia.
        -- intros p' [].
      * right. exists (p :: X1), c, X2. cbn [fst] in *.
        repeat split; auto.
        -- rewrite Hs. f_equal. simpl. lia.
        -- lra.
        -- intros p' [<- | Hp']; [exact Hlt | now apply H1].
    + apply real_ltb_false in Hcmp.
      destruct (IH (S k) st) as [[Heq Hle] | (X1 & c & X2 & -> & Hs & Hlt & H1 & H2)].
      * left. split; [exact Heq|]. intros p' [<- | Hp']; [exact Hcmp | now apply Hle].
      * right. exists (p :: X1), c, X2.
        repeat split; auto.
        -- rewrite Hs. f_equal. simpl. lia.
        -- intros p' [<- | Hp']; [lra | now apply H1].
Qed.

(** One unfolding of the recursion on a polyline of three or more points. *)
Lemma DP_unfold (n : nat) (a c b : Point R) (X : list (Point R)) (eps : R) :
  DP (S n) (a :: c :: X ++ [b]) eps =
  let '(maxDistance, maxIndex) := scan a b (c :: X) 1 (0%R, 0%nat) in
  if RealImpl.ltb eps maxDistance then
    match DP n (firstn (maxIndex + 1) (a :: c :: X ++ [b])) eps with
    | None => None
    | Some leftPart =>
        match DP n (skipn maxIndex (a :: c :: X ++ [b])) eps with
        | None => None
        | Some rightPart => Some (removelast leftPart ++ rightPart)
        end
    end
  else Some [a; b].
Proof.
  cbn [VectorizationEngine.douglasPeucker].
  replace (length (a :: c :: X ++ [b]) <=? 2)%nat with false
    by (symmetry; apply Nat.leb_gt; simpl; rewrite length_app; simpl; lia).
  change (a :: c :: X ++ [b]) with (a :: (c :: X) ++ [b]).
  rewrite farthest_scan.
  destruct (scan a b (c :: X) 1 (0%R, 0%nat)) as [maxDistance maxIndex].
  unfold slice. rewrite Nat.sub_0_r. cbn [skipn].
  change (maxDistance [>] eps) with (RealImpl.ltb eps maxDistance).
  destruct (RealImpl.ltb eps maxDistance); [reflexivity|].
  unfold at_. cbn [nth]. f_equal. f_equal. f_equal.
  replace (length (a :: (c :: X) ++ [b]) - 1)%nat with (S (length (c :: X)))
    by (simpl; rewrite length_app; simpl; lia).
  cbn [nth]. now rewrite nth_middle.
Qed.

Lemma DP_short (n : nat) (p : list (Point R)) (eps : R) :
  (length p <= 2)%nat -> DP n p eps = Some p.
Proof.
  intros Hlen. destruct n; cbn [VectorizationEngine.douglasPeucker];
    now replace (length p <=? 2)%nat with true by (symmetry; now apply Nat.leb_le).
Qed.

(** A polyline is short, or has two end points around a non-empty interior. *)
Lemma polyline_cases (p : list (Point R)) :
  (length p <= 2)%nat \/ exists a c X b, p = a :: c :: X ++ [b].
Proof.
  destruct p as [|a [|c p]]; [left; simpl; lia .. |].
  destruct (exists_last (l := c :: p)) as (Y & b & HY); [discriminate|].
  destruct Y as [|c' Y].
  - left. rewrite HY. simpl. lia.
  - right. simpl in HY. injection HY as -> ->. now exists a, c', Y, b.
Qed.

Lemma firstn_split (a : Point R) (X1 : list (Point R)) c X2 b :
  firstn (1 + length X1 + 1) (a :: (X1 ++ c :: X2) ++ [b]) = a :: X1 ++ [c].
Proof.
  replace (1 + length X1 + 1)%nat with (length (a :: X1 ++ [c]))
    by (simpl; rewrite length_app; simpl; lia).
  replace (a :: (X1 ++ c :: X2) ++ [b]) with ((a :: X1 ++ [c]) ++ X2 ++ [b])
    by (simpl; now rewrite <- !app_assoc).
  now rewrite firstn_app, Nat.sub_diag, firstn_all, app_nil_r.
Qed.

Lemma skipn_split (a : Point R) (X1 : list (Point R)) c X2 b :
  skipn (1 + length X1) (a :: (X1 ++ c :: X2) ++ [b]) = c :: X2 ++ [b].
Proof.
  replace (1 + length X1)%nat with (length (a :: X1)) by reflexivity.
  replace (a :: (X1 ++ c :: X2) ++ [b]) with ((a :: X1) ++ c :: X2 ++ [b])
    by (simpl; now rewrite <- !app_assoc).
  now rewrite skipn_app, Nat.sub_diag, skipn_all.
Qed.

(** More fuel does not change a result. *)
Lemma DP_fuel_mono (n : nat) :
  forall p eps q, DP n p eps = Some q -> DP (S n) p eps = Some q.
Proof.
  induction n as [|n IH]; intros p eps q Hq.
  - cbn [VectorizationEngine.douglasPeucker] in Hq.
    destruct (length p <=? 2)%nat eqn:Hlen; [|discriminate].
    injection Hq as <-. apply DP_short. now apply Nat.leb_le.
  - destruct (polyline_cases p) as [Hlen | (a & c & X & b & ->)].
    + rewrite DP_short in Hq by exact Hlen. injection Hq as <-. now apply DP_short.
    + rewrite DP_unfold in Hq. rewrite DP_unfold.
      destruct (scan a b (c :: X) 1 (0%R, 0%nat)) as [M m].
      destruct (RealImpl.ltb eps M); [|exact Hq].
      destruct (DP n (firstn _ _) eps) as [l|] eqn:Hl; [|discriminate].
      destruct (DP n (skipn _ _) eps) as [r|] eqn:Hr; [|discriminate].
      now rewrite (IH _ _ _ Hl), (IH _ _ _ Hr).
Qed.

(** The output keeps the two end points, and its interior is drawn from
    the interior of the input. *)
Lemma DP_shape (n : nat) :
  forall a X b eps q,
    DP n (a :: X ++ [b]) eps = Some q ->
    exists Q, q = a :: Q ++ [b] /\ incl Q X.
Proof.
  induction n as [|n IH]; intros a X b eps q Hq.
  - cbn [VectorizationEngine.douglasPeucker] in Hq.
    destruct (length (a :: X ++ [b]) <=? 2)%nat eqn:Hlen; [|discriminate].
    injection Hq as <-. exists X. split; [reflexivity | apply incl_refl].
  - destruct X as [|c X].
    + rewrite DP_short in Hq by (simpl; lia). injection Hq as <-.
      exists []. split; [reflexivity | apply incl_refl].
    + change (a :: (c :: X) ++ [b]) with (a :: c :: X ++ [b]) in Hq.
      rewrite DP_unfold in Hq.
      destruct (scan_spec a b (c :: X) 1 (0%R, 0%nat))
        as [[Hs Hle] | (X1 & c' & X2 & HX & Hs & Hlt & H1 & H2)];
        rewrite Hs in Hq.
      * destruct (RealImpl.ltb eps 0).
        -- cbn [firstn Nat.add skipn] in Hq.
           rewrite DP_short in Hq by (simpl; lia). cbn [removelast app] in Hq.
           destruct (DP n (a :: c :: X ++ [b]) eps) as [r|] eqn:Hr; [|discriminate].
           injection Hq as <-.
           apply (IH a (c :: X) b eps r Hr).
        -- injection Hq as <-. exists []. split; [reflexivity | intros p []].
      * destruct (RealImpl.ltb eps (pd c' a b)).
        -- change (a :: c :: X ++ [b]) with (a :: (c :: X) ++ [b]) in Hq.
           rewrite HX in Hq.
           rewrite firstn_split, skipn_split in Hq.
           destruct (DP n (a :: X1 ++ [c']) eps) as [l|] eqn:Hl; [|discriminate].
           destruct (DP n (c' :: X2 ++ [b]) eps) as [r|] eqn:Hr; [|discriminate].
           injection Hq as <-.
           destruct (IH _ _ _ _ _ Hl) as (L1 & -> & HL1).
           destruct (IH _ _ _ _ _ Hr) as (R1 & -> & HR1).
           exists (L1 ++ c' :: R1). split.
           ++ change (a :: L1 ++ [c']) with ((a :: L1) ++ [c']).
              rewrite removelast_last. simpl. now rewrite <- app_assoc.
           ++ rewrite HX. intros p Hp. apply in_app_or in Hp. apply in_or_app.
              destruct Hp as [Hp | [<- | Hp]]; [left; now apply HL1 | right; now left |].
              right. right. now apply HR1.
        -- injection Hq as <-. exists []. split; [reflexivity | intros p []].
Qed.

Lemma DP_idem (n : nat) :
  forall p eps q, DP n p eps = Some q -> DP n q eps = Some q.
Proof.
  induction n as [|n IH]; intros p eps q Hq.
  - cbn [VectorizationEngine.douglasPeucker] in Hq.
    destruct (length p <=? 2)%nat eqn:Hlen; [|discriminate].
    injection Hq as <-. apply DP_short. now apply Nat.leb_le.
  - destruct (polyline_cases p) as [Hlen | (a & c & X & b & ->)].
    + rewrite DP_short in Hq by exact Hlen. injection Hq as <-. now apply DP_short.
    + rewrite DP_unfold in Hq.
      destruct (scan_spec a b (c :: X) 1 (0%R, 0%nat))
        as [[Hs Hle] | (X1 & c' & X2 & HX & Hs & Hlt & H1 & H2)];
        rewrite Hs in Hq.
      * destruct (RealImpl.ltb eps 0).
        -- cbn [firstn Nat.add skipn] in Hq.
           rewrite DP_short in Hq by (simpl; lia). cbn [removelast app] in Hq.
           destruct (DP n (a :: c :: X ++ [b]) eps) as [r|] eqn:Hr; [|discriminate].
           injection Hq as <-.
           apply DP_fuel_mono. now apply (IH _ _ _ Hr).
        -- injection Hq as <-. apply DP_short. simpl. lia.
      * destruct (RealImpl.ltb eps (pd c' a b)) eqn:Heps.
        -- change (a :: c :: X ++ [b]) with (a :: (c :: X) ++ [b]) in Hq.
           rewrite HX in Hq.
           rewrite firstn_split, skipn_split in Hq.
           destruct (DP n (a :: X1 ++ [c']) eps) as [l|] eqn:Hl; [|discriminate].
           destruct (DP n (c' :: X2 ++ [b]) eps) as [r|] eqn:Hr; [|discriminate].
           injection Hq as <-.
           pose proof (IH _ _ _ Hl) as Hl'. pose proof (IH _ _ _ Hr) as Hr'.
           destruct (DP_shape _ _ _ _ _ _ Hl) as (L1 & -> & HL1).
           destruct (DP_shape _ _ _ _ _ _ Hr) as (R1 & -> & HR1).
           change (a :: L1 ++ [c']) with ((a :: L1) ++ [c']).
           rewrite removelast_last.
           assert (Hq : (a :: L1) ++ c' :: R1 ++ [b]
                        = a :: (L1 ++ c' :: R1) ++ [b])
             by (simpl; now rewrite <- app_assoc).
           rewrite Hq.
           assert (Hscan : scan a b (L1 ++ c' :: R1) 1 (0%R, 0%nat)
                           = (pd c' a b, (1 + length L1)%nat)).
           { rewrite scan_app. cbn [scan].
             assert (Hb : (fst (scan a b L1 1 (0%R, 0%nat)) < pd c' a b)%R).
             { apply scan_below; [|exact Hlt]. intros p Hp. apply H1. now apply HL1. }
             replace (RealImpl.ltb (fst (scan a b L1 1 (0%R, 0%nat))) (pd c' a b)) with true
               by (symmetry; now apply real_ltb_true).
             apply scan_no_update. cbn [fst]. intros p Hp. apply H2. now apply HR1. }
           destruct (L1 ++ c' :: R1) as [|c0 Y] eqn:HY;
             [destruct L1; discriminate|].
           change (a :: (c0 :: Y) ++ [b]) with (a :: c0 :: Y ++ [b]).
           rewrite DP_unfold, Hscan, Heps.
           change (a :: c0 :: Y ++ [b]) with (a :: (c0 :: Y) ++ [b]).
           rewrite <- HY.
           rewrite firstn_split, skipn_split.
           change ((a :: L1) ++ [c']) with (a :: L1 ++ [c']) in Hl'.
           rewrite Hl', Hr'.
           change (a :: L1 ++ [c']) with ((a :: L1) ++ [c']).
           rewrite removelast_last. cbn [app]. now rewrite <- app_assoc.
        -- injection Hq as <-. apply DP_short. simpl. lia.
Qed.

Lemma DP_total (n : nat) :
  forall p eps, (0 <= eps)%R -> (length p <= n + 2)%nat -> exists q, DP n p eps = Some q.
Proof.
  induction n as [|n IH]; intros p eps Heps Hlen.
  - exists p. apply DP_short. lia.
  - destruct (polyline_cases p) as [Hshort | (a & c & X & b & ->)].
    + exists p. now apply DP_short.
    + rewrite DP_unfold.
      destruct (scan_spec a b (c :: X) 1 (0%R, 0%nat))
        as [[Hs Hle] | (X1 & c' & X2 & HX & Hs & Hlt & H1 & H2)];
        rewrite Hs.
      * replace (RealImpl.ltb eps 0) with false
          by (symmetry; now apply real_ltb_false).
        now exists [a; b].
      * destruct (RealImpl.ltb eps (pd c' a b)); [|now exists [a; b]].
        change (a :: c :: X ++ [b]) with (a :: (c :: X) ++ [b]).
        rewrite HX, firstn_split, skipn_split.
        assert (HlenX : (length X1 + 1 + length X2 <= n + 1)%nat).
        { apply (f_equal (@length _)) in HX. rewrite length_app in HX.
          simpl in HX, Hlen. rewrite length_app in Hlen. simpl in Hlen. lia. }
        destruct (IH (a :: X1 ++ [c']) eps Heps) as [l Hl];
          [simpl; rewrite length_app; simpl; lia|].
        destruct (IH (c' :: X2 ++ [b]) eps Heps) as [r Hr];
          [simpl; rewrite length_app; simpl; lia|].
        rewrite Hl, Hr. eexists. reflexivity.
Qed.

Lemma DP_fuel_mono_le (n m : nat) p eps q :
  (n <= m)%nat -> DP n p eps = Some q -> DP m p eps = Some q.
Proof.
  induction 1 as [|m Hle IH]; intros Hq; [exact Hq|].
  apply DP_fuel_mono. now apply IH.
Qed.

(** C4.  Douglas-Peucker is idempotent: whenever [douglasPeucker] returns
    [q] on [p] with tolerance [eps], it returns [q] on [q] with the same
    tolerance (and the same bound on the recursion depth).  For a
    non-negative tolerance it does return, within [length p] levels of
    recursion. *)
Theorem douglasPeucker_idempotent :
  forall (p : list (Point R)) (eps : R),
    (forall fuel q,
        VectorizationEngine.douglasPeucker fuel p eps = Some q ->
        VectorizationEngine.douglasPeucker fuel q eps = Some q) /\
    ((0 <= eps)%R ->
     exists q,
       VectorizationEngine.douglasPeucker (length p) p eps = Some q /\
       VectorizationEngine.douglasPeucker (length p) q eps = Some q).
Proof.
  intros p eps. split.
  - intros fuel q. apply DP_idem.
  - intros Heps.
    destruct (DP_total (length p) p eps Heps) as [q Hq]; [lia|].
    exists q. split; [exact Hq | now apply (DP_idem _ _ _ _ Hq)].
Qed.

(** A three-point polyline at tolerance 1. *)
Lemma douglasPeucker_idempotent_witness :
  exists q,
    VectorizationEngine.douglasPeucker 3 [rpt 0 0; rpt 1 1; rpt 2 0] 1%R = Some q /\
    VectorizationEngine.douglasPeucker 3 q 1%R = Some q.
Proof.
  apply (proj2 (douglasPeucker_idempotent [rpt 0 0; rpt 1 1; rpt 2 0] 1%R)).
  lra.
Defined.

(* ===================================================================== *)
(** ** Path optimizer (path-optimization.ts) *)
(* ===================================================================== *)

(** *** Pen travel, structurally *)

Local Abbreviation total := (@PathOptimizer.calculateTotalTravelDistance R RealNum).
Local Abbreviation orderDistance := (@PathOptimizer.calculatePathOrderDistance R RealNum).

Lemma fold_left_ext_in {A B : Type} (f g : A -> B -> A) (l : list B) (a : A) :
  (forall acc b, In b l -> f acc b = g acc b) -> fold_left f l a = fold_left g l a.
Proof.
  revert a. induction l as [|b l IH]; intros a Hfg; simpl; [reflexivity|].
  rewrite Hfg by now left. apply IH. intros acc b' Hb'. apply Hfg. now right.
Qed.

Lemma travel_fold (l : list (Path R)) :
  forall (pre : list (Path R)) (acc : R),
    fold_left
      (fun totalDistance i =>
         (totalDistance + link (at_ [] (pre ++ l) i) (at_ [] (pre ++ l) (i + 1)))%R)
      (seq (length pre) (length l - 1)) acc
    = (acc + travel l)%R.
Proof.
  induction l as [|a l IH]; intros pre acc; [simpl; lra|].
  destruct l as [|b l]; [simpl; lra|].
  replace (length (a :: b :: l) - 1)%nat with (S (length (b :: l) - 1)) by (simpl; lia).
  cbn [seq fold_left].
  change (travel (a :: b :: l)) with (link a b + travel (b :: l))%R.
  unfold at_. rewrite nth_middle.
  replace (length pre + 1)%nat with (length (pre ++ [a])) by (rewrite length_app; simpl; lia).
  replace (pre ++ a :: b :: l) with ((pre ++ [a]) ++ b :: l) by (now rewrite <- app_assoc).
  rewrite nth_middle.
  replace (S (length pre)) with (length (pre ++ [a])) by (rewrite length_app; simpl; lia).
  transitivity ((acc + link a b) + travel (b :: l))%R;
    [exact (IH (pre ++ [a]) _) | lra].
Qed.

Lemma total_step_link (paths : list (Path R)) (acc : R) (i : nat) :
  (if PathOptimizer.nonEmpty (at_ [] paths i) && PathOptimizer.nonEmpty (at_ [] paths (i + 1))
   then acc [+] PathOptimizer.distance (PathOptimizer.lastPoint (at_ [] paths i))
                                       (PathOptimizer.firstPoint (at_ [] paths (i + 1)))
   else acc)
  = (acc + link (at_ [] paths i) (at_ [] paths (i + 1)))%R.
Proof.
  unfold link. destruct (_ && _); [reflexivity|lra].
Qed.

Lemma total_travel (l : list (Path R)) : total l = travel l.
Proof.
  unfold PathOptimizer.calculateTotalTravelDistance.
  rewrite (fold_left_ext_in _
             (fun totalDistance i =>
                (totalDistance + link (at_ [] l i) (at_ [] l (i + 1)))%R)).
  - transitivity (0 + travel l)%R; [exact (travel_fold l [] 0%R) | lra].
  - intros acc i _. apply total_step_link.
Qed.

Lemma orderDistance_travel (paths : list (Path R)) (order : list nat) :
  orderDistance paths order = travel (map (fun index => at_ [] paths index) order).
Proof.
  rewrite <- total_travel.
  unfold PathOptimizer.calculatePathOrderDistance, PathOptimizer.calculateTotalTravelDistance.
  rewrite length_map.
  apply fold_left_ext_in. intros acc i Hi. apply in_seq in Hi.
  unfold at_.
  rewrite (nth_indep (map _ order) [] (nth 0 paths [])) by (rewrite length_map; lia).
  rewrite (nth_indep (map _ order) [] (nth 0 paths []) (n := i + 1))
    by (rewrite length_map; lia).
  now rewrite !(map_nth (fun index => nth index paths [])).
Qed.

Lemma map_at_seq {A : Type} (d : A) (l : list A) :
  map (fun index => at_ d l index) (seq 0 (length l)) = l.
Proof.
  unfold at_. apply nth_ext with (d := d) (d' := d).
  - now rewrite length_map, length_seq.
  - intros n Hn. rewrite length_map, length_seq in Hn.
    rewrite (nth_indep _ d (nth 0 l d)) by (now rewrite length_map, length_seq).
    rewrite (map_nth (fun index => nth index l d)).
    now rewrite seq_nth.
Qed.

(** *** 2-opt never lengthens the travel *)

Section TwoOpt.
Variable paths : list (Path R).
Variable D0 : R.

Lemma try2Opt_consistent (i : nat) (st : list nat * R * bool) (j : nat) :
  consistent paths D0 (fst st) -> consistent paths D0 (fst (PathOptimizer.try2Opt paths i st j)).
Proof.
  destruct st as [[order best] improved]. cbn [fst]. intros [Hbest Hle].
  unfold PathOptimizer.try2Opt.
  destruct (Nat.eqb (j - i) 1); [now split|].
  destruct (_ [<] best) eqn:Hlt; [|now split].
  apply real_ltb_true in Hlt. cbn [fst snd] in *. split; cbn [fst snd]; [reflexivity | lra].
Qed.

Lemma apply2Opt_pass_consistent (st : list nat * R) :
  consistent paths D0 st -> consistent paths D0 (fst (PathOptimizer.apply2Opt_pass paths st)).
Proof.
  intros Hst. unfold PathOptimizer.apply2Opt_pass.
  generalize (length (fst st)) as len. intros len.
  assert (Hinner : forall i js s, consistent paths D0 (fst s) ->
             consistent paths D0 (fst (fold_left (PathOptimizer.try2Opt paths i) js s))).
  { intros i js. induction js as [|j js IH]; intros s Hs; simpl; [exact Hs|].
    apply IH. now apply try2Opt_consistent. }
  assert (Houter : forall is_ s, consistent paths D0 (fst s) ->
             consistent paths D0
               (fst (fold_left
                       (fun st1 i =>
                          fold_left (PathOptimizer.try2Opt paths i)
                                    (seq (i + 1) (len - (i + 1))) st1) is_ s))).
  { induction is_ as [|i is_ IH]; intros s Hs; simpl; [exact Hs|].
    apply IH. now apply Hinner. }
  now apply Houter.
Qed.

Lemma apply2Opt_loop_consistent (iterations : nat) :
  forall st, consistent paths D0 st -> consistent paths D0 (PathOptimizer.apply2Opt_loop iterations paths st).
Proof.
  induction iterations as [|k IH]; intros st Hst; cbn [PathOptimizer.apply2Opt_loop];
    [exact Hst|].
  pose proof (apply2Opt_pass_consistent st Hst) as Hpass.
  destruct (PathOptimizer.apply2Opt_pass paths st) as [st' improved].
  cbn [fst] in Hpass. destruct improved; [now apply IH | exact Hpass].
Qed.
End TwoOpt.

Lemma apply2Opt_travel (paths : list (Path R)) (maxIterations : nat) :
  (travel (PathOptimizer.apply2Opt paths maxIterations) <= travel paths)%R.
Proof.
  unfold PathOptimizer.apply2Opt.
  destruct (length paths <? 4)%nat; [lra|].
  pose proof (apply2Opt_loop_consistent paths (travel paths) maxIterations
                (seq 0 (length paths), orderDistance paths (seq 0 (length paths)))) as H.
  destruct (PathOptimizer.apply2Opt_loop _ _ _) as [finalOrder best].
  destruct H as [Hbest Hle].
  - split; cbn [fst snd]; [reflexivity|].
    rewrite orderDistance_travel, map_at_seq. lra.
  - cbn [fst snd] in *. rewrite <- orderDistance_travel, <- Hbest. exact Hle.
Qed.

(** *** The greedy adjacent swap *)

Lemma set_at_app {A : Type} (pre l : list A) (k : nat) (v : A) :
  set_at (pre ++ l) (length pre + k) v = pre ++ set_at l k v.
Proof.
  induction pre as [|h pre IH]; simpl; [reflexivity|]. now rewrite IH.
Qed.

Lemma swap_at_adjacent {A : Type} (d : A) (pre : list A) (a b : A) (post : list A) :
  PathOptimizer.swap_at d (pre ++ a :: b :: post) (length pre) (length pre + 1)
  = pre ++ b :: a :: post.
Proof.
  unfold PathOptimizer.swap_at, at_.
  rewrite nth_middle.
  replace (nth (length pre + 1) (pre ++ a :: b :: post) d) with b.
  - rewrite <- (Nat.add_0_r (length pre)) at 1.
    rewrite set_at_app. cbn [set_at]. now rewrite set_at_app.
  - replace (pre ++ a :: b :: post) with ((pre ++ [a]) ++ b :: post)
      by (now rewrite <- app_assoc).
    replace (length pre + 1)%nat with (length (pre ++ [a]))
      by (rewrite length_app; simpl; lia).
    now rewrite nth_middle.
Qed.

Lemma split_adjacent {A : Type} (l : list A) (i : nat) :
  (i + 1 < length l)%nat ->
  exists pre a b post, l = pre ++ a :: b :: post /\ length pre = i.
Proof.
  intros Hi.
  pose proof (firstn_skipn i l) as Hsplit.
  destruct (skipn i l) as [|a [|b post]] eqn:Hskip.
  - apply (f_equal (@length _)) in Hskip. rewrite length_skipn in Hskip. simpl in Hskip. lia.
  - apply (f_equal (@length _)) in Hskip. rewrite length_skipn in Hskip. simpl in Hskip. lia.
  - exists (firstn i l), a, b, post. split; [now symmetry|].
    rewrite length_firstn. lia.
Qed.

Lemma nth_length_pred_last {A : Type} (l : list A) (d : A) :
  l <> [] -> nth (length l - 1) l d = last l d.
Proof.
  induction l as [|h [|h' t] IH]; intros Hne; [congruence | reflexivity |].
  replace (length (h :: h' :: t) - 1)%nat with (S (length (h' :: t) - 1))
    by (simpl; lia).
  transitivity (nth (length (h' :: t) - 1) (h' :: t) d); [reflexivity|].
  rewrite IH by discriminate. reflexivity.
Qed.

Lemma travel_snoc (pre : list (Path R)) (a : Path R) :
  travel (pre ++ [a]) = (travel pre + link_prev pre a)%R.
Proof.
  induction pre as [|p [|q pre] IH].
  - simpl. lra.
  - simpl. lra.
  - change (travel ((p :: q :: pre) ++ [a]))
      with (link p q + travel ((q :: pre) ++ [a]))%R.
    rewrite IH.
    change (travel (p :: q :: pre)) with (link p q + travel (q :: pre))%R.
    change (link_prev (p :: q :: pre) a) with (link_prev (q :: pre) a).
    lra.
Qed.

Lemma travel_cons (a : Path R) (post : list (Path R)) :
  travel (a :: post) = (link_next a post + travel post)%R.
Proof.
  destruct post as [|c post]; [simpl; lra|reflexivity].
Qed.

Lemma travel_app (pre : list (Path R)) (a : Path R) (rest : list (Path R)) :
  travel (pre ++ a :: rest) = (travel (pre ++ [a]) + travel (a :: rest))%R.
Proof.
  induction pre as [|p [|q pre] IH].
  - simpl. lra.
  - change (travel ([p] ++ a :: rest)) with (link p a + travel (a :: rest))%R.
    simpl. lra.
  - change (travel ((p :: q :: pre) ++ a :: rest))
      with (link p q + travel ((q :: pre) ++ a :: rest))%R.
    rewrite IH.
    change (travel ((p :: q :: pre) ++ [a]))
      with (link p q + travel ((q :: pre) ++ [a]))%R.
    lra.
Qed.

(** The travel of a list splits into the three moves around an adjacent
    pair and the rest. *)
Lemma travel_around_pair (pre : list (Path R)) (a b : Path R) (post : list (Path R)) :
  travel (pre ++ a :: b :: post)
  = (travel pre + travel post + (link_prev pre a + link a b + link_next b post))%R.
Proof.
  rewrite travel_app, travel_snoc.
  change (travel (a :: b :: post)) with (link a b + travel (b :: post))%R.
  rewrite (travel_cons b post). lra.
Qed.

Lemma calculateTravelBetween_links (a b : Path R) (prev next : option (Path R)) :
  PathOptimizer.calculateTravelBetween a b prev next
  = ((match prev with Some p => link p a | None => 0 end)
     + link a b
     + (match next with Some c => link b c | None => 0 end))%R.
Proof.
  unfold PathOptimizer.calculateTravelBetween, link.
  cbn [nadd ofZ RealNum].
  destruct prev as [p|], next as [c|];
    repeat match goal with |- context [if ?c then _ else _] => destruct c end; lra.
Qed.

Lemma nth_second_of_pair {A : Type} (pre : list A) (a b : A) (post : list A) (d : A) :
  nth (length pre + 1) (pre ++ a :: b :: post) d = b.
Proof.
  replace (pre ++ a :: b :: post) with ((pre ++ [a]) ++ b :: post)
    by (now rewrite <- app_assoc).
  replace (length pre + 1)%nat with (length (pre ++ [a]))
    by (rewrite length_app; simpl; lia).
  apply nth_middle.
Qed.

Lemma nth_after_pair {A : Type} (pre : list A) (a b c : A) (post : list A) (d : A) :
  nth (length pre + 2) (pre ++ a :: b :: c :: post) d = c.
Proof.
  replace (pre ++ a :: b :: c :: post) with ((pre ++ [a; b]) ++ c :: post)
    by (now rewrite <- app_assoc).
  replace (length pre + 2)%nat with (length (pre ++ [a; b]))
    by (rewrite length_app; simpl; lia).
  apply nth_middle.
Qed.

Lemma nth_before_pair {A : Type} (p : A) (pre rest : list A) (d : A) :
  nth (length (p :: pre) - 1) ((p :: pre) ++ rest) d = last (p :: pre) d.
Proof.
  rewrite app_nth1 by (simpl; lia).
  apply nth_length_pred_last. discriminate.
Qed.

Lemma travelAt_links (pre : list (Path R)) (a b : Path R) (post : list (Path R)) :
  PathOptimizer.travelAt (pre ++ a :: b :: post) (length pre)
  = (link_prev pre a + link a b + link_next b post)%R.
Proof.
  unfold PathOptimizer.travelAt. rewrite calculateTravelBetween_links.
  unfold at_. rewrite nth_middle, nth_second_of_pair.
  f_equal; [f_equal|].
  - destruct pre as [|p pre]; [reflexivity|].
    replace (0 <? length (p :: pre))%nat with true by reflexivity.
    now rewrite nth_before_pair.
  - destruct post as [|c post].
    + replace (length pre + 2 <? length (pre ++ [a; b]))%nat with false; [reflexivity|].
      symmetry. apply Nat.ltb_ge. rewrite length_app. simpl. lia.
    + replace (length pre + 2 <? length (pre ++ a :: b :: c :: post))%nat with true.
      * now rewrite nth_after_pair.
      * symmetry. apply Nat.ltb_lt. rewrite length_app. simpl. lia.
Qed.

Lemma greedy_step_improves (l0 : list (Path R)) (st : list (Path R) * bool) (i : nat) :
  (i + 1 < length (fst st))%nat ->
  improves l0 st -> improves l0 (PathOptimizer.greedy_step st i).
Proof.
  destruct st as [l made]. cbn [fst]. intros Hi (Hperm & Hle & Hmade).
  cbn [fst snd] in *.
  destruct (split_adjacent l i Hi) as (pre & a & b & post & -> & <-).
  unfold PathOptimizer.greedy_step.
  rewrite swap_at_adjacent, !travelAt_links.
  destruct (_ [<] _) eqn:Hcmp.
  - apply real_ltb_true in Hcmp.
    assert (Hlt : (travel (pre ++ b :: a :: post) < travel (pre ++ a :: b :: post))%R)
      by (rewrite !travel_around_pair; lra).
    repeat split; cbn [fst snd].
    + eapply Permutation_trans; [exact Hperm|].
      apply Permutation_app_head. apply perm_swap.
    + unfold Path in *. lra.
    + intros _. unfold Path in *. lra.
  - rewrite swap_at_adjacent. now repeat split.
Qed.

Lemma greedy_step_length (st : list (Path R) * bool) (i : nat) :
  length (fst (PathOptimizer.greedy_step st i)) = length (fst st).
Proof.
  destruct st as [l made]. unfold PathOptimizer.greedy_step, PathOptimizer.swap_at.
  destruct (_ [<] _); cbn [fst]; now rewrite !length_set_at.
Qed.

Lemma greedy_pass_improves (l : list (Path R)) :
  improves l (PathOptimizer.greedy_pass l).
Proof.
  unfold PathOptimizer.greedy_pass.
  assert (Hfold : forall is_ st,
             (forall i, In i is_ -> (i + 1 < length (fst st))%nat) ->
             improves l st ->
             improves l (fold_left PathOptimizer.greedy_step is_ st)).
  { induction is_ as [|i is_ IH]; intros st Hin Hst; simpl; [exact Hst|].
    apply IH.
    - intros j Hj. rewrite greedy_step_length. apply Hin. now right.
    - apply greedy_step_improves; [apply Hin; now left | exact Hst]. }
  apply Hfold.
  - intros i Hi. apply in_seq in Hi. cbn [fst]. lia.
  - repeat split; cbn [fst snd]; [apply Permutation_refl | lra | discriminate].
Qed.

(** *** Termination of the greedy loop *)

Lemma In_lists_over {A : Type} (elems : list A) (l : list A) :
  incl l elems -> In l (lists_over (length l) elems).
Proof.
  induction l as [|a l IH]; intros Hincl; cbn [length lists_over]; [now left|].
  apply in_flat_map. exists a. split; [apply Hincl; now left|].
  apply in_map. apply IH. intros b Hb. apply Hincl. now right.
Qed.

Lemma filter_length_lt {A : Type} (f g : A -> bool) (U : list A) (w : A) :
  (forall u, f u = true -> g u = true) ->
  In w U -> g w = true -> f w = false ->
  (length (filter f U) < length (filter g U))%nat.
Proof.
  intros Hfg. 
  assert (Hle : forall V, (length (filter f V) <= length (filter g V))%nat).
  { induction V as [|u V IH]; simpl; [lia|].
    destruct (f u) eqn:Hf; [rewrite (Hfg u Hf); simpl; lia|].
    destruct (g u); simpl; lia. }
  induction U as [|u U IH]; intros Hin Hg Hf; [destruct Hin|].
  simpl. destruct Hin as [-> | Hin].
  - rewrite Hf, Hg. simpl. specialize (Hle U). lia.
  - specialize (IH Hin Hg Hf).
    destruct (f u) eqn:Hfu; [rewrite (Hfg u Hfu); simpl; lia|].
    destruct (g u); simpl; lia.
Qed.

Lemma greedy_loop_sound (fuel : nat) :
  forall l r, PathOptimizer.greedy_loop fuel l = Some r ->
              Permutation l r /\ (travel r <= travel l)%R.
Proof.
  induction fuel as [|fuel IH]; intros l r Hr; [discriminate|].
  cbn [PathOptimizer.greedy_loop] in Hr.
  pose proof (greedy_pass_improves l) as (Hperm & Hle & _).
  destruct (PathOptimizer.greedy_pass l) as [l' made]. cbn [fst snd] in *.
  destruct made.
  - destruct (IH _ _ Hr) as [Hperm' Hle'].
    split; [eapply Permutation_trans; eassumption | lra].
  - injection Hr as <-. now split.
Qed.

Lemma greedy_loop_terminates (l0 : list (Path R)) (fuel : nat) :
  forall l,
    Permutation l0 l ->
    (count_below (lists_over (length l0) l0) (travel l) < fuel)%nat ->
    exists r, PathOptimizer.greedy_loop fuel l = Some r.
Proof.
  induction fuel as [|fuel IH]; intros l Hperm Hcount; [lia|].
  cbn [PathOptimizer.greedy_loop].
  pose proof (greedy_pass_improves l) as (Hperm' & Hle & Hmade).
  destruct (PathOptimizer.greedy_pass l) as [l' made]. cbn [fst snd] in *.
  destruct made; [|now exists l'].
  specialize (Hmade eq_refl).
  apply IH; [eapply Permutation_trans; eassumption|].
  assert (Hin : In l' (lists_over (length l0) l0)).
  { assert (Hp : Permutation l0 l') by (eapply Permutation_trans; eassumption).
    rewrite (Permutation_length Hp). apply In_lists_over.
    intros p Hp'. eapply Permutation_in; [symmetry; exact Hp | exact Hp']. }
  unfold count_below in *.
  eapply Nat.lt_le_trans; [|apply Nat.lt_succ_r; exact Hcount].
  apply filter_length_lt with (w := l').
  - intros u Hu. apply real_ltb_true in Hu. apply real_ltb_true. lra.
  - exact Hin.
  - now apply real_ltb_true.
  - apply real_ltb_false. lra.
Qed.

Lemma greedyImprovement_sound (fuel : nat) (l r : list (Path R)) :
  PathOptimizer.greedyImprovement fuel l = Some r -> (travel r <= travel l)%R.
Proof.
  unfold PathOptimizer.greedyImprovement.
  destruct (length l <=? 2)%nat.
  - intros [= <-]. lra.
  - intros Hr. now apply greedy_loop_sound in Hr.
Qed.

Lemma greedyImprovement_terminates (l : list (Path R)) :
  exists fuel r, PathOptimizer.greedyImprovement fuel l = Some r.
Proof.
  unfold PathOptimizer.greedyImprovement.
  destruct (length l <=? 2)%nat; [now exists 0%nat, l|].
  exists (S (count_below (lists_over (length l) l) (travel l))).
  apply (greedy_loop_terminates l); [apply Permutation_refl | lia].
Qed.

Lemma optimizePaths_unmerged (fuel : nat) (paths0 : list (Path R))
    (options : PathOptimizer.Options (N:=R)) :
  PathOptimizer.enablePathMerging options = Some false ->
  paths0 <> [] ->
  PathOptimizer.optimizePaths fuel paths0 options
  = match PathOptimizer.greedyImprovement fuel (after2Opt paths0 options) with
    | None => None
    | Some optimized3 =>
        Some (PathOptimizer.mkResult optimized3 (total optimized3)
                (if total paths0 [>] ofZ 0
                 then (total paths0 [-] total optimized3) [/] total paths0 [*] ofZ 100
                 else ofZ 0))
    end.
Proof.
  intros Hmerge Hne. unfold PathOptimizer.optimizePaths, after2Opt.
  rewrite Hmerge. cbn [PathOptimizer.orDefault].
  destruct paths0 as [|p paths0]; [congruence|]. reflexivity.
Qed.

(** In exact real arithmetic, with path merging disabled, [optimizePaths]
    returns, and the total pen travel of the paths it returns is at most
    the total pen travel of its input -- with or without the 2-opt pass,
    for every iteration cap.  The binary64 program does neither, see
    below. *)
Theorem optimizePaths_travel_over_reals :
  forall (paths0 : list (Path R)) (options : PathOptimizer.Options (N:=R)),
    PathOptimizer.enablePathMerging options = Some false ->
    (exists fuel result, PathOptimizer.optimizePaths fuel paths0 options = Some result) /\
    (forall fuel result,
        PathOptimizer.optimizePaths fuel paths0 options = Some result ->
        (PathOptimizer.calculateTotalTravelDistance (PathOptimizer.paths result)
         <= PathOptimizer.calculateTotalTravelDistance paths0)%R).
Proof.
  intros paths0 options Hmerge.
  destruct paths0 as [|p paths0].
  { split.
    - exists 0%nat. eexists. reflexivity.
    - intros fuel result [= <-]. cbn [PathOptimizer.paths]. lra. }
  assert (H2 : (travel (after2Opt (p :: paths0) options) <= travel (p :: paths0))%R).
  { unfold after2Opt. destruct (_ && _); [apply apply2Opt_travel | lra]. }
  split.
  - destruct (greedyImprovement_terminates (after2Opt (p :: paths0) options))
      as (fuel & r & Hr).
    exists fuel. eexists.
    rewrite optimizePaths_unmerged by (assumption || discriminate).
    rewrite Hr. reflexivity.
  - intros fuel result.
    rewrite optimizePaths_unmerged by (assumption || discriminate).
    destruct (PathOptimizer.greedyImprovement fuel _) as [r|] eqn:Hr; [|discriminate].
    intros [= <-]. cbn [PathOptimizer.paths].
    apply greedyImprovement_sound in Hr.
    rewrite !total_travel. lra.
Qed.

(** Three paths, merging off, every other option at its default. *)
Lemma optimizePaths_travel_over_reals_three_paths :
  (exists fuel result,
      PathOptimizer.optimizePaths fuel three_paths merging_off = Some result) /\
  (forall fuel result,
      PathOptimizer.optimizePaths fuel three_paths merging_off = Some result ->
      (PathOptimizer.calculateTotalTravelDistance (PathOptimizer.paths result)
       <= PathOptimizer.calculateTotalTravelDistance three_paths)%R).
Proof.
  apply (optimizePaths_travel_over_reals three_paths merging_off).
  reflexivity.
Qed.

(** *** The greedy pass in binary64 *)

Section GreedyCycle.
Context {N : Type} {HN : Num N}.

(** A round of the greedy pass that swaps and leads from [a] to [b], and
    one that leads back: the [while (madeImprovement)] loop never ends. *)
Lemma greedy_loop_cycle (a b : list (Path N)) :
  PathOptimizer.greedy_pass a = (b, true) ->
  PathOptimizer.greedy_pass b = (a, true) ->
  forall fuel,
    PathOptimizer.greedy_loop fuel a = None /\ PathOptimizer.greedy_loop fuel b = None.
Proof.
  intros Ha Hb fuel. induction fuel as [|fuel [IHa IHb]]; [split; reflexivity|].
  split; cbn [PathOptimizer.greedy_loop]; [rewrite Ha | rewrite Hb]; assumption.
Qed.

Lemma greedy_loop_round (fuel : nat) (a b : list (Path N)) :
  PathOptimizer.greedy_pass a = (b, true) ->
  (forall fuel', PathOptimizer.greedy_loop fuel' b = None) ->
  PathOptimizer.greedy_loop fuel a = None.
Proof.
  intros Ha Hb. destruct fuel as [|fuel]; [reflexivity|].
  cbn [PathOptimizer.greedy_loop]. rewrite Ha. apply Hb.
Qed.

(** [optimizePaths] with merging off does not return when its greedy pass
    does not. *)
Lemma optimizePaths_greedy_stuck (fuel : nat) (paths0 optimized2 : list (Path N))
    (options : PathOptimizer.Options) :
  paths0 <> [] ->
  PathOptimizer.enablePathMerging options = Some false ->
  (if PathOptimizer.orDefault (PathOptimizer.enable2Opt options) true
      && (2 <? length paths0)%nat
   then PathOptimizer.apply2Opt paths0
          (PathOptimizer.orDefault (PathOptimizer.maxIterations options) 100%nat)
   else paths0) = optimized2 ->
  PathOptimizer.greedyImprovement fuel optimized2 = None ->
  PathOptimizer.optimizePaths fuel paths0 options = None.
Proof.
  intros Hne Hm H2 Hg. unfold PathOptimizer.optimizePaths.
  assert (E : Nat.eqb (length paths0) 0 = false)
    by (destruct paths0; [congruence | reflexivity]).
  rewrite E, Hm. cbn [PathOptimizer.orDefault]. cbv zeta.
  rewrite H2, Hg. reflexivity.
Qed.
End GreedyCycle.

(** C1, on the program as it runs in binary64.  With path merging disabled
    and every other option at its default, [optimizePaths] never returns
    on [diagonal_segments]: after the 2-opt pass and two rounds the greedy
    pass alternates between two orders, each round accepting swaps whose
    rounded local travel is smaller.  On [five_segments] it returns, with
    or without the 2-opt pass, but the total pen travel of the paths
    returned is greater than that of the input, and the reported
    improvement is negative. *)
Theorem optimizePaths_binary64_travel :
  (forall fuel,
     PathOptimizer.optimizePaths fuel diagonal_segments merging_off_float = None) /\
  (exists result,
     PathOptimizer.optimizePaths 10 five_segments merging_off_float = Some result /\
     (PathOptimizer.calculateTotalTravelDistance five_segments
        [<] PathOptimizer.calculateTotalTravelDistance (PathOptimizer.paths result)) = true /\
     (PathOptimizer.improvement result [<] ofZ 0) = true) /\
  (exists result,
     PathOptimizer.optimizePaths 10 five_segments greedy_only_float = Some result /\
     (PathOptimizer.calculateTotalTravelDistance five_segments
        [<] PathOptimizer.calculateTotalTravelDistance (PathOptimizer.paths result)) = true /\
     (PathOptimizer.improvement result [<] ofZ 0) = true).
Proof.
  split; [|split].
  - intro fuel.
    assert (Hab : PathOptimizer.greedy_pass diagonal_order_a = (diagonal_order_b, true))
      by (vm_compute; reflexivity).
    assert (Hba : PathOptimizer.greedy_pass diagonal_order_b = (diagonal_order_a, true))
      by (vm_compute; reflexivity).
    pose proof (greedy_loop_cycle _ _ Hab Hba) as Hcycle.
    eapply optimizePaths_greedy_stuck;
      [discriminate | reflexivity | vm_compute; reflexivity |].
    unfold PathOptimizer.greedyImprovement. cbn [length Nat.leb].
    eapply greedy_loop_round; [vm_compute; reflexivity|].
    intro f1. eapply greedy_loop_round; [vm_compute; reflexivity|].
    intro f2. exact (proj1 (Hcycle f2)).
  - destruct (PathOptimizer.optimizePaths 10 five_segments merging_off_float)
      as [result|] eqn:E; [|vm_compute in E; discriminate].
    exists result. split; [reflexivity|].
    vm_compute in E. injection E as <-. split; vm_compute; reflexivity.
  - destruct (PathOptimizer.optimizePaths 10 five_segments greedy_only_float)
      as [result|] eqn:E; [|vm_compute in E; discriminate].
    exists result. split; [reflexivity|].
    vm_compute in E. injection E as <-. split; vm_compute; reflexivity.
Qed.

(* ===================================================================== *)
(** ** Random draws of the hatcher (advanced-hatching.ts) *)
(* ===================================================================== *)

Section Draws.
Context {N : Type} {HN : Num N} {HT : Trig N}.
Variable findContours : Mat -> list (list (Z * Z)).

Import AdvancedHatcher.

Lemma same_draws_part (rnd1 rnd2 : nat -> N) (lo hi lo' hi' : nat) :
  same_draws rnd1 rnd2 lo hi -> (lo <= lo')%nat -> (hi' <= hi)%nat ->
  same_draws rnd1 rnd2 lo' hi'.
Proof. intros H Hlo Hhi i Hi. apply H. lia. Qed.

(** *** The length variation of a layer *)

Lemma varyAll_fold_counter (rnd : nat -> N) (l : list (Path N)) :
  forall (acc : list (Path N)) (k : nat),
    snd (fold_left
           (fun (st : list (Path N) * nat) path =>
              (fst st ++ [varyLineLength path (dec 8 10 [+] rnd (snd st) [*] dec 4 10)],
               S (snd st)))
           l (acc, k))
    = (k + length l)%nat.
Proof.
  induction l as [|path l IH]; intros acc k; cbn [fold_left length snd fst].
  - lia.
  - rewrite IH. lia.
Qed.

Lemma varyAll_counter (rnd : nat -> N) (l : list (Path N)) (k : nat) :
  snd (varyAll rnd l k) = (k + length l)%nat.
Proof. apply varyAll_fold_counter. Qed.

Lemma varyAll_fold_frame (rnd1 rnd2 : nat -> N) (l : list (Path N)) :
  forall (acc : list (Path N)) (k : nat),
    same_draws rnd1 rnd2 k (k + length l) ->
    fold_left
      (fun (st : list (Path N) * nat) path =>
         (fst st ++ [varyLineLength path (dec 8 10 [+] rnd2 (snd st) [*] dec 4 10)],
          S (snd st)))
      l (acc, k)
    = fold_left
        (fun (st : list (Path N) * nat) path =>
           (fst st ++ [varyLineLength path (dec 8 10 [+] rnd1 (snd st) [*] dec 4 10)],
            S (snd st)))
        l (acc, k).
Proof.
  induction l as [|path l IH]; intros acc k Hsame; cbn [fold_left fst snd];
    [reflexivity|].
  rewrite (Hsame k) by (cbn [length]; lia).
  apply IH. eapply same_draws_part; [exact Hsame | lia | cbn [length]; lia].
Qed.

Lemma varyAll_frame (rnd1 rnd2 : nat -> N) (l : list (Path N)) (k : nat) :
  same_draws rnd1 rnd2 k (k + length l) ->
  varyAll rnd2 l k = varyAll rnd1 l k.
Proof. apply varyAll_fold_frame. Qed.

(** *** The layers of the cross hatcher *)

Lemma cross_layers_none (rnd : nat -> N) (fuel : nat) (mask : Mat)
    (baseSpacing primaryAngle width height : N) (layers : list nat) :
  fold_left (cross_layer rnd fuel mask baseSpacing primaryAngle width height) layers None
  = None.
Proof. induction layers as [|layer layers IH]; [reflexivity | exact IH]. Qed.

Lemma cross_layer_counter (rnd : nat -> N) (fuel : nat) (mask : Mat)
    (baseSpacing primaryAngle width height : N) (layer : nat)
    (paths paths' : list (Path N)) (k k' : nat) :
  cross_layer rnd fuel mask baseSpacing primaryAngle width height (Some (paths, k)) layer
  = Some (paths', k') ->
  (k <= k')%nat.
Proof.
  unfold cross_layer. cbv zeta.
  destruct (generateParallelHatching _ _ _ _ _ _ _) as [layerPaths|]; [|discriminate].
  destruct (0 <? layer)%nat.
  - pose proof (varyAll_counter rnd layerPaths k) as Hk.
    destruct (varyAll rnd layerPaths k) as [modified k1]. cbn [snd] in Hk.
    intros [= _ <-]. lia.
  - intros [= _ <-]. lia.
Qed.

Lemma cross_layers_counter (rnd : nat -> N) (fuel : nat) (mask : Mat)
    (baseSpacing primaryAngle width height : N) (layers : list nat) :
  forall (paths paths' : list (Path N)) (k k' : nat),
    fold_left (cross_layer rnd fuel mask baseSpacing primaryAngle width height) layers
              (Some (paths, k))
    = Some (paths', k') ->
    (k <= k')%nat.
Proof.
  induction layers as [|layer layers IH]; intros paths paths' k k'; cbn [fold_left].
  - intros [= _ <-]. lia.
  - destruct (cross_layer rnd fuel mask baseSpacing primaryAngle width height
                (Some (paths, k)) layer) as [[paths1 k1]|] eqn:Hlayer.
    + intros Hrest. apply cross_layer_counter in Hlayer. apply IH in Hrest. lia.
    + now rewrite cross_layers_none.
Qed.

Lemma cross_layer_frame (rnd1 rnd2 : nat -> N) (fuel : nat) (mask : Mat)
    (baseSpacing primaryAngle width height : N) (layer : nat)
    (paths paths' : list (Path N)) (k k' : nat) :
  cross_layer rnd1 fuel mask baseSpacing primaryAngle width height (Some (paths, k)) layer
  = Some (paths', k') ->
  same_draws rnd1 rnd2 k k' ->
  cross_layer rnd2 fuel mask baseSpacing primaryAngle width height (Some (paths, k)) layer
  = Some (paths', k').
Proof.
  unfold cross_layer. cbv zeta.
  destruct (generateParallelHatching _ _ _ _ _ _ _) as [layerPaths|]; [|discriminate].
  destruct (0 <? layer)%nat; [|auto].
  pose proof (varyAll_counter rnd1 layerPaths k) as Hk.
  destruct (varyAll rnd1 layerPaths k) as [modified k1] eqn:Hvary. cbn [snd] in Hk.
  intros [= <- <-] Hsame.
  rewrite (varyAll_frame rnd1 rnd2) by (now rewrite <- Hk).
  now rewrite Hvary.
Qed.

Lemma cross_layers_frame (rnd1 rnd2 : nat -> N) (fuel : nat) (mask : Mat)
    (baseSpacing primaryAngle width height : N) (layers : list nat) :
  forall (paths paths' : list (Path N)) (k k' : nat),
    fold_left (cross_layer rnd1 fuel mask baseSpacing primaryAngle width height) layers
              (Some (paths, k))
    = Some (paths', k') ->
    same_draws rnd1 rnd2 k k' ->
    fold_left (cross_layer rnd2 fuel mask baseSpacing primaryAngle width height) layers
              (Some (paths, k))
    = Some (paths', k').
Proof.
  induction layers as [|layer layers IH]; intros paths paths' k k'; cbn [fold_left];
    [auto|].
  destruct (cross_layer rnd1 fuel mask baseSpacing primaryAngle width height
              (Some (paths, k)) layer) as [[paths1 k1]|] eqn:Hlayer.
  - intros Hrest Hsame.
    pose proof (cross_layer_counter _ _ _ _ _ _ _ _ _ _ _ _ Hlayer) as Hk1.
    pose proof (cross_layers_counter _ _ _ _ _ _ _ _ _ _ _ _ Hrest) as Hk'.
    rewrite (cross_layer_frame rnd1 rnd2 _ _ _ _ _ _ _ _ _ _ _ Hlayer)
      by (eapply same_draws_part; [exact Hsame | lia | lia]).
    apply IH; [exact Hrest|].
    eapply same_draws_part; [exact Hsame | lia | lia].
  - now rewrite cross_layers_none.
Qed.

(** *** The Poisson-disk sampler *)

Lemma attempts_counter (rnd : nat -> N) (tries : nat) (grid : Grid)
    (gridWidth gridHeight : Z) (width height minDist maxDist cellSize : N)
    (current : Point N) :
  forall k,
    (k <= snd (attempts rnd tries grid gridWidth gridHeight width height minDist maxDist
                        cellSize current k))%nat.
Proof.
  induction tries as [|tries IH]; intros k; cbn [attempts]; cbv zeta; [cbn [snd]; lia|].
  pose proof (IH (S (S k))) as Hk.
  destruct (_ && _); [destruct (candidate_valid _ _ _ _ _ _ _)|]; cbn [snd]; lia.
Qed.

Lemma attempts_frame (rnd1 rnd2 : nat -> N) (tries : nat) (grid : Grid)
    (gridWidth gridHeight : Z) (width height minDist maxDist cellSize : N)
    (current : Point N) :
  forall k,
    same_draws rnd1 rnd2 k
      (snd (attempts rnd1 tries grid gridWidth gridHeight width height minDist maxDist
                     cellSize current k)) ->
    attempts rnd2 tries grid gridWidth gridHeight width height minDist maxDist
             cellSize current k
    = attempts rnd1 tries grid gridWidth gridHeight width height minDist maxDist
               cellSize current k.
Proof.
  induction tries as [|tries IH]; intros k; cbn [attempts]; cbv zeta; [reflexivity|].
  intros Hsame.
  pose proof (attempts_counter rnd1 tries grid gridWidth gridHeight width height minDist
                maxDist cellSize current (S (S k))) as Hk.
  assert (H0 : rnd1 k = rnd2 k /\ rnd1 (S k) = rnd2 (S k)).
  { revert Hsame.
    destruct (_ && _); [destruct (candidate_valid _ _ _ _ _ _ _)|]; cbn [snd];
      intros Hsame; split; apply Hsame; lia. }
  destruct H0 as [<- <-].
  revert Hsame.
  destruct (_ && _); [destruct (candidate_valid _ _ _ _ _ _ _)|]; cbn [snd];
    intros Hsame; [reflexivity | |];
    (apply IH; eapply same_draws_part; [exact Hsame | lia | lia]).
Qed.

Lemma poisson_loop_counter (rnd : nat -> N) (gridWidth gridHeight : Z)
    (width height minDist maxDist density cellSize : N) (fuel : nat) :
  forall (grid : Grid) (points active : list (Point N)) (k : nat)
         (result : list (Point N)) (k' : nat),
    poisson_loop rnd fuel gridWidth gridHeight width height minDist maxDist density
                 cellSize grid points active k
    = Some (result, k') ->
    (k <= k')%nat.
Proof.
  induction fuel as [|fuel IH]; intros grid points active k result k';
    cbn [poisson_loop]; destruct (_ && _).
  - discriminate.
  - intros [= _ <-]. lia.
  - set (current := at_ origin active _).
    pose proof (attempts_counter rnd 30 grid gridWidth gridHeight width height minDist
                  maxDist cellSize current (S k)) as Hk.
    destruct (attempts rnd 30 grid gridWidth gridHeight width height minDist maxDist
                       cellSize current (S k)) as [[[candidate cell]|] k1];
      cbn [snd] in Hk; intros Hrun; apply IH in Hrun; lia.
  - intros [= _ <-]. lia.
Qed.

Lemma poisson_loop_frame (rnd1 rnd2 : nat -> N) (gridWidth gridHeight : Z)
    (width height minDist maxDist density cellSize : N) (fuel : nat) :
  forall (grid : Grid) (points active : list (Point N)) (k : nat)
         (result : list (Point N)) (k' : nat),
    poisson_loop rnd1 fuel gridWidth gridHeight width height minDist maxDist density
                 cellSize grid points active k
    = Some (result, k') ->
    same_draws rnd1 rnd2 k k' ->
    poisson_loop rnd2 fuel gridWidth gridHeight width height minDist maxDist density
                 cellSize grid points active k
    = Some (result, k').
Proof.
  induction fuel as [|fuel IH]; intros grid points active k result k';
    cbn [poisson_loop]; destruct (_ && _); [discriminate | auto | | auto].
  intros Hrun Hsame.
  set (current1 := at_ origin active (Z.to_nat (floorZ (rnd1 k [*] ofNat (length active))))) in *.
  pose proof (attempts_counter rnd1 30 grid gridWidth gridHeight width height minDist
                maxDist cellSize current1 (S k)) as Hk.
  assert (Hk' : (snd (attempts rnd1 30 grid gridWidth gridHeight width height minDist
                               maxDist cellSize current1 (S k)) <= k')%nat).
  { destruct (attempts rnd1 30 grid gridWidth gridHeight width height minDist maxDist
                       cellSize current1 (S k)) as [[[candidate cell]|] k1];
      cbn [snd]; apply poisson_loop_counter in Hrun; exact Hrun. }
  rewrite <- (Hsame k) by lia. fold current1.
  rewrite (attempts_frame rnd1 rnd2)
    by (eapply same_draws_part; [exact Hsame | lia | lia]).
  destruct (attempts rnd1 30 grid gridWidth gridHeight width height minDist maxDist
                     cellSize current1 (S k)) as [[[candidate cell]|] k1];
    cbn [snd] in Hk, Hk'; (apply IH; [exact Hrun|]);
    (eapply same_draws_part; [exact Hsame | lia | lia]).
Qed.

Lemma poissonDiskSampling_counter (rnd : nat -> N) (fuel : nat)
    (width height minDist maxDist density : N) (k : nat)
    (result : list (Point N)) (k' : nat) :
  poissonDiskSampling rnd fuel width height minDist maxDist density k = Some (result, k') ->
  (S (S k) <= k')%nat.
Proof. unfold poissonDiskSampling. cbv zeta. apply poisson_loop_counter. Qed.

Lemma poissonDiskSampling_frame (rnd1 rnd2 : nat -> N) (fuel : nat)
    (width height minDist maxDist density : N) (k : nat)
    (result : list (Point N)) (k' : nat) :
  poissonDiskSampling rnd1 fuel width height minDist maxDist density k = Some (result, k') ->
  same_draws rnd1 rnd2 k k' ->
  poissonDiskSampling rnd2 fuel width height minDist maxDist density k = Some (result, k').
Proof.
  intros Hrun Hsame.
  pose proof (poissonDiskSampling_counter _ _ _ _ _ _ _ _ _ _ Hrun) as Hk.
  unfold poissonDiskSampling in *. cbv zeta in *.
  rewrite <- (Hsame k), <- (Hsame (S k)) by lia.
  apply (poisson_loop_frame rnd1 rnd2); [exact Hrun|].
  eapply same_draws_part; [exact Hsame | lia | lia].
Qed.

(** *** The strokes of the stippler *)

Lemma stipple_fold_counter (rnd : nat -> N) (mask : Mat) (dots : list (Point N)) :
  forall (st : list (Path N) * nat),
    (snd st
     <= snd (fold_left
               (fun (st : list (Path N) * nat) dot =>
                  if isPointInMask dot mask then
                    let dotSize := dec 5 10 [+] rnd (snd st) [*] ofZ 1 in
                    (fst st ++ [[dot; mkPoint (x dot [+] dotSize) (y dot)]], S (snd st))
                  else st)
               dots st))%nat.
Proof.
  induction dots as [|dot dots IH]; intros st; cbn [fold_left]; [lia|].
  destruct (isPointInMask dot mask); [|apply IH].
  eapply Nat.le_trans; [|apply IH]. cbn [snd]. lia.
Qed.

Lemma stipple_fold_frame (rnd1 rnd2 : nat -> N) (mask : Mat) (dots : list (Point N)) :
  forall (st : list (Path N) * nat),
    same_draws rnd1 rnd2 (snd st)
      (snd (fold_left
              (fun (st : list (Path N) * nat) dot =>
                 if isPointInMask dot mask then
                   let dotSize := dec 5 10 [+] rnd1 (snd st) [*] ofZ 1 in
                   (fst st ++ [[dot; mkPoint (x dot [+] dotSize) (y dot)]], S (snd st))
                 else st)
              dots st)) ->
    fold_left
      (fun (st : list (Path N) * nat) dot =>
         if isPointInMask dot mask then
           let dotSize := dec 5 10 [+] rnd2 (snd st) [*] ofZ 1 in
           (fst st ++ [[dot; mkPoint (x dot [+] dotSize) (y dot)]], S (snd st))
         else st)
      dots st
    = fold_left
        (fun (st : list (Path N) * nat) dot =>
           if isPointInMask dot mask then
             let dotSize := dec 5 10 [+] rnd1 (snd st) [*] ofZ 1 in
             (fst st ++ [[dot; mkPoint (x dot [+] dotSize) (y dot)]], S (snd st))
           else st)
        dots st.
Proof.
  induction dots as [|dot dots IH]; intros st Hsame; cbn [fold_left] in *; [reflexivity|].
  destruct (isPointInMask dot mask); [|apply IH; exact Hsame].
  cbv zeta in *.
  pose proof (stipple_fold_counter rnd1 mask dots
                (fst st ++ [[dot; mkPoint (x dot [+] (dec 5 10 [+] rnd1 (snd st) [*] ofZ 1))
                                          (y dot)]], S (snd st))) as Hk.
  cbv zeta in Hk. cbn [snd] in Hk.
  rewrite <- (Hsame (snd st)) by lia.
  apply IH. cbn [snd].
  eapply same_draws_part; [exact Hsame | lia | lia].
Qed.

Lemma generateStippling_frame (rnd1 rnd2 : nat -> N) (fuel : nat) (mask : Mat)
    (intensity baseSpacing width height : N) (k : nat)
    (paths : list (Path N)) (k' : nat) :
  generateStippling rnd1 fuel mask intensity baseSpacing width height k = Some (paths, k') ->
  same_draws rnd1 rnd2 k k' ->
  generateStippling rnd2 fuel mask intensity baseSpacing width height k = Some (paths, k')
  /\ (k <= k')%nat.
Proof.
  unfold generateStippling. cbv zeta.
  destruct (poissonDiskSampling rnd1 fuel width height _ _ _ k) as [[dots k1]|] eqn:Hdots;
    [|discriminate].
  intros Hrun Hsame. injection Hrun as Hrun.
  pose proof (poissonDiskSampling_counter _ _ _ _ _ _ _ _ _ _ Hdots) as Hk1.
  pose proof (stipple_fold_counter rnd1 mask dots ([], k1)) as Hk'.
  cbv zeta in Hk'. rewrite Hrun in Hk'. cbn [snd] in Hk'.
  rewrite (poissonDiskSampling_frame rnd1 rnd2 _ _ _ _ _ _ _ _ _ Hdots)
    by (eapply same_draws_part; [exact Hsame | lia | lia]).
  split; [|lia].
  pose proof (stipple_fold_frame rnd1 rnd2 mask dots ([], k1)) as Hfold.
  cbv zeta in Hfold. rewrite Hfold, Hrun; [reflexivity|].
  rewrite Hrun. cbn [snd]. eapply same_draws_part; [exact Hsame | lia | lia].
Qed.

End Draws.

(** C3, as the code has it.  [generateHatching] takes no seed: it reads
    [Math.random()].  If an invocation returns after reading the draws
    number [k], ..., [k' - 1], then every invocation with the same arguments
    that is given the same values at these draws returns the same paths
    after the same number of draws, whatever the later draws are.  The
    styles Parallel and Contour read no draw at all, so that they return
    the same paths under any two runs of draws. *)
Theorem generateHatching_same_draws :
  forall (N : Type) (HN : Num N) (HT : Trig N)
         (findContours : Mat -> list (list (Z * Z))) (rnd1 rnd2 : nat -> N)
         (fuel : nat) (mask : Mat) (intensity : N) (style : AdvancedHatcher.HatchingStyle)
         (baseSpacing angle width height : N) (k : nat)
         (paths : list (Path N)) (k' : nat),
    AdvancedHatcher.generateHatching findContours rnd1 fuel mask intensity style
                                     baseSpacing angle width height k
    = Some (paths, k') ->
    same_draws rnd1 rnd2 k k' ->
    AdvancedHatcher.generateHatching findContours rnd2 fuel mask intensity style
                                     baseSpacing angle width height k
    = Some (paths, k') /\
    (k <= k')%nat /\
    (style = AdvancedHatcher.PARALLEL \/ style = AdvancedHatcher.CONTOUR -> k' = k).
Proof.
  intros N HN HT findContours rnd1 rnd2 fuel mask intensity style baseSpacing angle
         width height k paths k' Hrun Hsame.
  destruct style; cbn [AdvancedHatcher.generateHatching] in *.
  - destruct (AdvancedHatcher.generateParallelHatching _ _ _ _ _ _ _); [|discriminate].
    injection Hrun as <- <-. repeat split; auto.
  - injection Hrun as <- <-. repeat split; auto.
  - unfold AdvancedHatcher.generateCrossHatching in *. cbv zeta in *.
    pose proof (cross_layers_counter _ _ _ _ _ _ _ _ _ _ _ _ Hrun) as Hk.
    split; [|split; [exact Hk | intros [H | H]; discriminate]].
    now apply (cross_layers_frame rnd1 rnd2).
  - destruct (generateStippling_frame rnd1 rnd2 _ _ _ _ _ _ _ _ _ Hrun Hsame) as [H Hk].
    split; [exact H|]. split; [exact Hk | intros [H' | H']; discriminate].
Qed.

(** *** A stippling and a cross hatching, evaluated *)

Lemma stippling_one_dot (rnd : nat -> R) :
  rnd 0%nat = 0%R -> rnd 1%nat = 0%R ->
  AdvancedHatcher.generateHatching no_contours rnd 1 full_mask_2x2 (1 / 2)%R
    AdvancedHatcher.STIPPLING 4%R 0%R 2%R 2%R 0
  = Some ([[mkPoint (0 * 2)%R (0 * 2)%R;
            mkPoint (0 * 2 + (5 / 10 + rnd 2%nat * 1))%R (0 * 2)%R]], 3%nat).
Proof.
  intros H0 H1.
  unfold AdvancedHatcher.generateHatching, AdvancedHatcher.generateStippling,
    AdvancedHatcher.poissonDiskSampling.
  cbn [AdvancedHatcher.poisson_loop length Nat.ltb Nat.leb andb].
  unfold ofNat, dec. cbn [ofZ nmul ndiv nadd nltb nsqrt floorZ RealNum Z.of_nat
                           Pos.of_succ_nat x y].
  rewrite H0, H1.
  replace (RealImpl.ltb 1 (2 * 2 * (1 / 2 * (3 / 10)) / (4 * (5 / 10) * (4 * (5 / 10)))))
    with false.
  2:{ symmetry. apply real_ltb_false.
      replace (2 * 2 * (1 / 2 * (3 / 10)) / (4 * (5 / 10) * (4 * (5 / 10))))%R
        with (3 / 20)%R by field.
      lra. }
  cbn [fold_left].
  unfold AdvancedHatcher.isPointInMask. cbn [x y floorZ RealNum].
  replace (0 * 2)%R with 0%R by lra. rewrite Int_part_0.
  cbn. replace (0 + (5 / 10 + rnd 2%nat * 1))%R with (0 * 2 + (5 / 10 + rnd 2%nat * 1))%R by lra.
  reflexivity.
Qed.

Lemma Int_part_IZR (z : Z) : Int_part (IZR z) = z.
Proof. apply Int_part_unique. lra. Qed.

Lemma real_leb_IZR (a b : Z) : RealImpl.leb (IZR a) (IZR b) = (a <=? b)%Z.
Proof.
  destruct (a <=? b)%Z eqn:E.
  - apply real_leb_true. apply IZR_le. lia.
  - apply real_leb_false. apply IZR_lt. lia.
Qed.

Lemma real_ltb_IZR (a b : Z) : RealImpl.ltb (IZR a) (IZR b) = (a <? b)%Z.
Proof.
  destruct (a <? b)%Z eqn:E.
  - apply real_ltb_true. apply IZR_lt. lia.
  - apply real_ltb_false. apply IZR_le. lia.
Qed.

(** A sample that is rounded to a pixel off the canvas changes nothing. *)
Lemma sample_step_outside (mask : Mat) (W H : Z) (startX startY endX endY : R) (steps : Z)
    (xi yi : Z) (path : Path R) (paths : list (Path R)) (inRegion : bool) (step : nat) :
  RealImpl.round (startX + (endX - startX) * (IZR (Z.of_nat step) / IZR steps)) = xi ->
  RealImpl.round (startY + (endY - startY) * (IZR (Z.of_nat step) / IZR steps)) = yi ->
  (xi < 0 \/ W <= xi \/ yi < 0 \/ H <= yi)%Z ->
  AdvancedHatcher.sample_step mask (IZR W) (IZR H) startX startY endX endY steps
                              (path, paths, inRegion) step
  = (path, paths, inRegion).
Proof.
  intros Hx Hy Hout. unfold AdvancedHatcher.sample_step, ofNat. cbv zeta.
  cbn [roundZ nadd nsub nmul ndiv nleb nltb ofZ RealNum].
  rewrite Hx, Hy, !real_leb_IZR, !real_ltb_IZR.
  replace ((0 <=? xi)%Z && (xi <? W)%Z && (0 <=? yi)%Z && (yi <? H)%Z) with false;
    [reflexivity|].
  symmetry. rewrite !andb_false_iff, !Z.leb_gt, !Z.ltb_ge. lia.
Qed.

(** A sample that is rounded to a pixel of the mask extends the run. *)
Lemma sample_step_inside (mask : Mat) (W H : Z) (startX startY endX endY : R) (steps : Z)
    (xi yi : Z) (path : Path R) (paths : list (Path R)) (inRegion : bool) (step : nat) :
  RealImpl.round (startX + (endX - startX) * (IZR (Z.of_nat step) / IZR steps)) = xi ->
  RealImpl.round (startY + (endY - startY) * (IZR (Z.of_nat step) / IZR steps)) = yi ->
  (0 <= xi < W)%Z -> (0 <= yi < H)%Z ->
  (xi < Z.of_nat (cols mask))%Z -> (yi < Z.of_nat (rows mask))%Z ->
  (0 < ucharPtr mask (Z.to_nat yi) (Z.to_nat xi))%Z ->
  AdvancedHatcher.sample_step mask (IZR W) (IZR H) startX startY endX endY steps
                              (path, paths, inRegion) step
  = (path ++ [rpt xi yi], paths, true).
Proof.
  intros Hx Hy Hxi Hyi Hcol Hrow Hpixel.
  unfold AdvancedHatcher.sample_step, ofNat. cbv zeta.
  cbn [roundZ nadd nsub nmul ndiv nleb nltb ofZ RealNum].
  rewrite Hx, Hy, !real_leb_IZR, !real_ltb_IZR.
  replace ((0 <=? xi)%Z && (xi <? W)%Z && (0 <=? yi)%Z && (yi <? H)%Z) with true
    by (symmetry; rewrite !andb_true_iff, !Z.leb_le, !Z.ltb_lt; lia).
  unfold AdvancedHatcher.isPointInMask. cbn [x y floorZ RealNum].
  rewrite !Int_part_IZR.
  replace ((xi <? 0)%Z || (Z.of_nat (cols mask) <=? xi)%Z || (yi <? 0)%Z
           || (Z.of_nat (rows mask) <=? yi)%Z) with false
    by (symmetry; rewrite !orb_false_iff, !Z.ltb_ge, !Z.leb_gt; lia).
  replace (0 <? ucharPtr mask (Z.to_nat yi) (Z.to_nat xi))%Z with true
    by (symmetry; apply Z.ltb_lt; exact Hpixel).
  unfold rpt. destruct inRegion; reflexivity.
Qed.

Lemma parallel_loop_step (fuel : nat) (mask : Mat)
    (width height cos sin diagonal spacing offset : R) (paths : list (Path R)) :
  (offset < diagonal)%R ->
  AdvancedHatcher.parallel_loop (S fuel) mask width height cos sin diagonal spacing
                                offset paths
  = AdvancedHatcher.parallel_loop fuel mask width height cos sin diagonal spacing
      (offset + spacing)%R
      (AdvancedHatcher.hatchLine mask width height cos sin diagonal paths offset).
Proof.
  intros Hlt. cbn [AdvancedHatcher.parallel_loop nltb nadd RealNum].
  replace (RealImpl.ltb offset diagonal) with true by (symmetry; now apply real_ltb_true).
  reflexivity.
Qed.

Lemma parallel_loop_done (fuel : nat) (mask : Mat)
    (width height cos sin diagonal spacing offset : R) (paths : list (Path R)) :
  (diagonal <= offset)%R ->
  AdvancedHatcher.parallel_loop fuel mask width height cos sin diagonal spacing
                                offset paths
  = Some paths.
Proof.
  intros Hge.
  destruct fuel; cbn [AdvancedHatcher.parallel_loop nltb RealNum];
    replace (RealImpl.ltb offset diagonal) with false
      by (symmetry; now apply real_ltb_false); reflexivity.
Qed.

(** Evaluation of one hatch line on a 3x4 canvas: the pixels that the 11
    samples are rounded to are given one by one. *)
Ltac sample_side :=
  first
    [ solve [ unfold RealImpl.round; apply Int_part_unique;
              cbn [Z.of_nat Pos.of_succ_nat Pos.succ]; lra ]
    | solve [ cbn [cols rows full_mask_3x4 Z.of_nat Pos.of_succ_nat Pos.succ]; lia ]
    | solve [ vm_compute; reflexivity ] ].

Ltac hatch_samples pixels :=
  lazymatch pixels with
  | nil => idtac
  | cons (?xi, ?yi) ?rest =>
      first
        [ rewrite (sample_step_outside full_mask_3x4 3 4 _ _ _ _ _ xi yi) by sample_side
        | rewrite (sample_step_inside full_mask_3x4 3 4 _ _ _ _ _ xi yi) by sample_side ];
      hatch_samples rest
  end.

Ltac hatch_line pixels :=
  unfold AdvancedHatcher.hatchLine; cbv zeta;
  cbn [nmul nadd nopp ofZ floorZ RealNum];
  replace (Int_part (5 * 2)) with 10%Z by (symmetry; apply Int_part_unique; lra);
  change (seq 0 (Z.to_nat (10 + 1))) with [0; 1; 2; 3; 4; 5; 6; 7; 8; 9; 10]%nat;
  cbn [fold_left];
  hatch_samples pixels;
  cbn [length Nat.ltb Nat.leb app].

Lemma horizontal_line_off (paths : list (Path R)) (offset : R) (yi : Z) :
  (IZR yi <= offset + / 2 < IZR yi + 1)%R -> (yi < 0 \/ 4 <= yi)%Z ->
  AdvancedHatcher.hatchLine full_mask_3x4 3%R 4%R 1%R 0%R 5%R paths offset = paths.
Proof.
  intros Hy Hout.
  hatch_line [(-5, yi); (-4, yi); (-3, yi); (-2, yi); (-1, yi); (0, yi); (1, yi);
              (2, yi); (3, yi); (4, yi); (5, yi)]%Z.
  reflexivity.
Qed.

Lemma horizontal_line_3 (paths : list (Path R)) (offset : R) :
  (3 <= offset + / 2 < 4)%R ->
  AdvancedHatcher.hatchLine full_mask_3x4 3%R 4%R 1%R 0%R 5%R paths offset
  = paths ++ [[rpt 0 3; rpt 1 3; rpt 2 3]].
Proof.
  intros Hy.
  hatch_line [(-5, 3); (-4, 3); (-3, 3); (-2, 3); (-1, 3); (0, 3); (1, 3);
              (2, 3); (3, 3); (4, 3); (5, 3)]%Z.
  reflexivity.
Qed.

Lemma vertical_line_off (paths : list (Path R)) (offset : R) (xi : Z) :
  (IZR xi <= - offset + / 2 < IZR xi + 1)%R -> (xi < 0 \/ 3 <= xi)%Z ->
  AdvancedHatcher.hatchLine full_mask_3x4 3%R 4%R 0%R 1%R 5%R paths offset = paths.
Proof.
  intros Hx Hout.
  hatch_line [(xi, -5); (xi, -4); (xi, -3); (xi, -2); (xi, -1); (xi, 0); (xi, 1);
              (xi, 2); (xi, 3); (xi, 4); (xi, 5)]%Z.
  reflexivity.
Qed.

Lemma vertical_line_0 (paths : list (Path R)) (offset : R) :
  (0 <= - offset + / 2 < 1)%R ->
  AdvancedHatcher.hatchLine full_mask_3x4 3%R 4%R 0%R 1%R 5%R paths offset
  = paths ++ [[rpt 0 0; rpt 0 1; rpt 0 2; rpt 0 3]].
Proof.
  intros Hx.
  hatch_line [(0, -5); (0, -4); (0, -3); (0, -2); (0, -1); (0, 0); (0, 1);
              (0, 2); (0, 3); (0, 4); (0, 5)]%Z.
  reflexivity.
Qed.

(** Layer 0: lines at angle 0 with spacing 4. *)
Lemma first_layer_3x4 (spacing angle : R) :
  spacing = 4%R -> angle = 0%R ->
  AdvancedHatcher.generateParallelHatching 3 full_mask_3x4 1%R spacing angle 3%R 4%R
  = Some [[rpt 0 3; rpt 1 3; rpt 2 3]].
Proof.
  intros -> ->. unfold AdvancedHatcher.generateParallelHatching, dec. cbv zeta.
  cbn [nmul nadd ndiv nmax nsqrt nopp ofZ ncos nsin nPI RealNum RealTrig].
  replace (0 * PI / 180)%R with 0%R by lra. rewrite cos_0, sin_0.
  rewrite (Rmax_right (3 / 10) 1) by lra.
  replace (3 * 3 + 4 * 4)%R with (5 * 5)%R by lra. rewrite sqrt_square by lra.
  rewrite parallel_loop_step by lra.
  rewrite (horizontal_line_off [] (Ropp 5) (-5)) by (lra || lia).
  rewrite parallel_loop_step by lra.
  rewrite (horizontal_line_off [] (Ropp 5 + 4 / 1) (-1)) by (lra || lia).
  rewrite parallel_loop_step by lra.
  rewrite (horizontal_line_3 [] (Ropp 5 + 4 / 1 + 4 / 1)) by lra.
  rewrite parallel_loop_done by lra.
  reflexivity.
Qed.

(** Layer 1: lines at angle 90 with spacing 5.2. *)
Lemma second_layer_3x4 (spacing angle : R) :
  spacing = (52 / 10)%R -> angle = 90%R ->
  AdvancedHatcher.generateParallelHatching 3 full_mask_3x4 1%R spacing angle 3%R 4%R
  = Some [[rpt 0 0; rpt 0 1; rpt 0 2; rpt 0 3]].
Proof.
  intros -> ->. unfold AdvancedHatcher.generateParallelHatching, dec. cbv zeta.
  cbn [nmul nadd ndiv nmax nsqrt nopp ofZ ncos nsin nPI RealNum RealTrig].
  replace (90 * PI / 180)%R with (PI / 2)%R by lra. rewrite cos_PI2, sin_PI2.
  rewrite (Rmax_right (3 / 10) 1) by lra.
  replace (3 * 3 + 4 * 4)%R with (5 * 5)%R by lra. rewrite sqrt_square by lra.
  rewrite parallel_loop_step by lra.
  rewrite (vertical_line_off [] (Ropp 5) 5) by (lra || lia).
  rewrite parallel_loop_step by lra.
  rewrite (vertical_line_0 [] (Ropp 5 + 52 / 10 / 1)) by lra.
  rewrite parallel_loop_done by lra.
  reflexivity.
Qed.

(** The strokes of a cross hatching of the 3x4 canvas at intensity 1/2:
    one horizontal stroke, and one vertical stroke that is shortened by
    the first draw. *)
Lemma cross_hatching_3x4 (rnd : nat -> R) :
  AdvancedHatcher.generateHatching no_contours rnd 3 full_mask_3x4 (1 / 2)%R
    AdvancedHatcher.CROSS 4%R 0%R 3%R 4%R 0
  = Some ([ [rpt 0 3; rpt 1 3; rpt 2 3];
            AdvancedHatcher.varyLineLength column_stroke
              (8 / 10 + rnd 0%nat * (4 / 10))%R ], 1%nat).
Proof.
  cbn [AdvancedHatcher.generateHatching].
  unfold AdvancedHatcher.generateCrossHatching, ceilZ. cbv zeta.
  cbn [nmul nopp ofZ floorZ RealNum].
  replace (Int_part (- (1 / 2 * 4))) with (-2)%Z
    by (symmetry; apply Int_part_unique; lra).
  change (seq 0 (Z.to_nat (- -2))) with [0; 1]%nat.
  cbn [fold_left]. unfold AdvancedHatcher.cross_layer at 2. cbv zeta.
  rewrite first_layer_3x4.
  2:{ unfold ofNat, dec. cbn [nmul nadd ndiv ofZ RealNum Z.of_nat]. lra. }
  2:{ reflexivity. }
  cbn [Nat.ltb Nat.leb app].
  unfold AdvancedHatcher.cross_layer. cbv zeta.
  rewrite second_layer_3x4.
  2:{ unfold ofNat, dec.
      cbn [nmul nadd ndiv ofZ RealNum Z.of_nat Pos.of_succ_nat]. lra. }
  2:{ cbn [Nat.modulo Nat.divmod fst snd Nat.sub AdvancedHatcher.crossAngles at_ nth
           nadd ofZ RealNum]. lra. }
  cbn [Nat.ltb Nat.leb AdvancedHatcher.varyAll fold_left fst snd app].
  unfold dec. cbn [nadd nmul ndiv ofZ RealNum]. reflexivity.
Qed.

Lemma column_stroke_shortened :
  AdvancedHatcher.varyLineLength column_stroke (8 / 10 + 0 * (4 / 10))%R
  = [rpt 0 0; rpt 0 1; rpt 0 2].
Proof.
  unfold AdvancedHatcher.varyLineLength, column_stroke, ofNat.
  cbn [length Nat.ltb Nat.leb Z.of_nat Pos.of_succ_nat Pos.succ nmul ndiv ofZ floorZ RealNum].
  replace (Int_part (4 * (8 / 10 + 0 * (4 / 10)))) with 3%Z
    by (symmetry; apply Int_part_unique; lra).
  cbn [Z.ltb Z.compare Pos.compare Pos.compare_cont].
  change (4 - 3)%Z with 1%Z.
  replace (Int_part (1 / 2)) with 0%Z by (symmetry; apply Int_part_unique; lra).
  reflexivity.
Qed.

Lemma column_stroke_kept :
  AdvancedHatcher.varyLineLength column_stroke (8 / 10 + 1 / 2 * (4 / 10))%R
  = column_stroke.
Proof.
  unfold AdvancedHatcher.varyLineLength, column_stroke, ofNat.
  cbn [length Nat.ltb Nat.leb Z.of_nat Pos.of_succ_nat Pos.succ nmul ndiv ofZ floorZ RealNum].
  replace (Int_part (4 * (8 / 10 + 1 / 2 * (4 / 10)))) with 4%Z
    by (symmetry; apply Int_part_unique; lra).
  cbn [Z.ltb Z.compare Pos.compare Pos.compare_cont].
  change (4 - 4)%Z with 0%Z.
  replace (Int_part (0 / 2)) with 0%Z by (symmetry; apply Int_part_unique; lra).
  reflexivity.
Qed.

(** The cross hatching of the 3x4 canvas under two runs of draws that differ
    from the second draw on: the one draw that is read is the same, and so
    are the strokes. *)
Lemma generateHatching_same_draws_witness :
  AdvancedHatcher.generateHatching no_contours draws_zero_then_half 3 full_mask_3x4
    (1 / 2)%R AdvancedHatcher.CROSS 4%R 0%R 3%R 4%R 0
  = Some ([[rpt 0 3; rpt 1 3; rpt 2 3]; [rpt 0 0; rpt 0 1; rpt 0 2]], 1%nat).
Proof.
  apply (generateHatching_same_draws R RealNum RealTrig no_contours draws_zero
           draws_zero_then_half 3 full_mask_3x4 (1 / 2)%R AdvancedHatcher.CROSS
           4%R 0%R 3%R 4%R 0).
  - rewrite cross_hatching_3x4. unfold draws_zero.
    now rewrite column_stroke_shortened.
  - intros i Hi. assert (i = 0%nat) as -> by lia. reflexivity.
Defined.

(** Identical arguments, different draws.  Stippling a full 2x2 mask: when
    the third draw differs (0 against 0.5) the dot strokes returned differ.
    Cross hatching a full 3x4 mask: when the first draw differs (0 against
    0.5) the vertical stroke is returned with three points in one run and
    with four in the other. *)
Lemma generateHatching_differs_by_draws :
  (exists pathsA pathsB kA kB,
      AdvancedHatcher.generateHatching no_contours draws_zero 1 full_mask_2x2 (1 / 2)%R
        AdvancedHatcher.STIPPLING 4%R 0%R 2%R 2%R 0 = Some (pathsA, kA) /\
      AdvancedHatcher.generateHatching no_contours draws_third_half 1 full_mask_2x2 (1 / 2)%R
        AdvancedHatcher.STIPPLING 4%R 0%R 2%R 2%R 0 = Some (pathsB, kB) /\
      pathsA <> pathsB) /\
  (exists pathsA pathsB kA kB,
      AdvancedHatcher.generateHatching no_contours draws_zero 3 full_mask_3x4 (1 / 2)%R
        AdvancedHatcher.CROSS 4%R 0%R 3%R 4%R 0 = Some (pathsA, kA) /\
      AdvancedHatcher.generateHatching no_contours draws_half 3 full_mask_3x4 (1 / 2)%R
        AdvancedHatcher.CROSS 4%R 0%R 3%R 4%R 0 = Some (pathsB, kB) /\
      pathsA <> pathsB).
Proof.
  split.
  - do 4 eexists. split; [|split].
    + apply stippling_one_dot; reflexivity.
    + apply stippling_one_dot; reflexivity.
    + intros Heq. injection Heq as Heq. unfold draws_zero, draws_third_half in Heq.
      cbn [Nat.eqb] in Heq. lra.
  - do 4 eexists. split; [|split].
    + apply cross_hatching_3x4.
    + apply cross_hatching_3x4.
    + unfold draws_zero, draws_half.
      rewrite column_stroke_shortened, column_stroke_kept. unfold column_stroke.
      intros Heq. discriminate Heq.
Qed.

(* ===================================================================== *)
(** ** Hatch lines stay on the mask (advanced-hatching.ts) *)
(* ===================================================================== *)

Section HatcherInvariants.
Context {N : Type} {HN : Num N} {HT : Trig N}.
Variable findContours : Mat -> list (list (Z * Z)).
Variable rnd : nat -> N.

Import AdvancedHatcher.

Lemma sample_step_clipped (mask : Mat) (width height startX startY endX endY : N)
    (steps : Z) (st : Path N * list (Path N) * bool) (step : nat) :
  hatch_run mask (fst (fst st)) ->
  Forall (hatch_path mask) (snd (fst st)) ->
  hatch_run mask
    (fst (fst (sample_step mask width height startX startY endX endY steps st step))) /\
  Forall (hatch_path mask)
    (snd (fst (sample_step mask width height startX startY endX endY steps st step))).
Proof.
  destruct st as [[path paths] inRegion]. cbn [fst snd]. intros Hrun Hpaths.
  unfold sample_step.
  destruct (_ && _ && _ && _); [|now split].
  destruct (isPointInMask _ mask) eqn:Hin; destruct inRegion; cbn [andb negb fst snd].
  - split; [|exact Hpaths]. apply Forall_app. split; [exact Hrun|]. now repeat constructor.
  - split; [|exact Hpaths]. apply Forall_app. split; [exact Hrun|]. now repeat constructor.
  - split; [constructor|].
    destruct (1 <? length path)%nat eqn:Hlen; [|exact Hpaths].
    apply Forall_app. split; [exact Hpaths|]. constructor; [|constructor].
    split; [apply Nat.ltb_lt in Hlen; lia | exact Hrun].
  - now split.
Qed.

Lemma hatchLine_clipped (mask : Mat) (width height cos sin diagonal : N)
    (paths : list (Path N)) (offset : N) :
  Forall (hatch_path mask) paths ->
  Forall (hatch_path mask) (hatchLine mask width height cos sin diagonal paths offset).
Proof.
  intros Hpaths. unfold hatchLine.
  set (f := sample_step mask width height _ _ _ _ _).
  assert (Hfold : forall steps st,
             hatch_run mask (fst (fst st)) -> Forall (hatch_path mask) (snd (fst st)) ->
             hatch_run mask (fst (fst (fold_left f steps st))) /\
             Forall (hatch_path mask) (snd (fst (fold_left f steps st)))).
  { induction steps as [|s steps IH]; intros st H1 H2; cbn [fold_left]; [now split|].
    destruct (sample_step_clipped mask width height
                (nopp diagonal [*] cos [+] offset [*] nopp sin)
                (nopp diagonal [*] sin [+] offset [*] cos)
                (diagonal [*] cos [+] offset [*] nopp sin)
                (diagonal [*] sin [+] offset [*] cos)
                (floorZ (diagonal [*] ofZ 2)) st s H1 H2) as [H1' H2'].
    now apply IH. }
  destruct (Hfold (seq 0 (Z.to_nat (floorZ (diagonal [*] ofZ 2) + 1))) ([], paths, false))
    as [Hrun Hout]; [constructor | exact Hpaths |].
  destruct (fold_left f _ _) as [[path paths'] inRegion]. cbn [fst snd] in *.
  destruct (1 <? length path)%nat eqn:Hlen; [|exact Hout].
  apply Forall_app. split; [exact Hout|]. constructor; [|constructor].
  split; [apply Nat.ltb_lt in Hlen; lia | exact Hrun].
Qed.

Lemma parallel_loop_clipped (fuel : nat) (mask : Mat)
    (width height cos sin diagonal spacing : N) :
  forall (offset : N) (paths result : list (Path N)),
    Forall (hatch_path mask) paths ->
    parallel_loop fuel mask width height cos sin diagonal spacing offset paths
    = Some result ->
    Forall (hatch_path mask) result.
Proof.
  induction fuel as [|fuel IH]; intros offset paths result Hpaths Hres;
    cbn [parallel_loop] in Hres; destruct (offset [<] diagonal).
  - discriminate.
  - now injection Hres as <-.
  - eapply IH; [|exact Hres]. now apply hatchLine_clipped.
  - now injection Hres as <-.
Qed.

(** X1.  Every path of the parallel hatcher has at least two points, and
    every one of its points lies on a set pixel of the mask. *)
Theorem parallel_hatching_clipped :
  forall (fuel : nat) (mask : Mat) (intensity baseSpacing angle width height : N),
    match generateParallelHatching fuel mask intensity baseSpacing angle width height with
    | Some paths =>
        Forall (fun path =>
                  (2 <= length path)%nat /\
                  Forall (fun p => isPointInMask p mask = true) path) paths
    | None => True
    end.
Proof.
  intros fuel mask intensity baseSpacing angle width height.
  destruct (generateParallelHatching _ _ _ _ _ _ _) as [paths|] eqn:Hres; [|exact I].
  unfold generateParallelHatching in Hres.
  eapply parallel_loop_clipped; [|exact Hres]. constructor.
Qed.

(** *** [varyLineLength] only drops points *)

Lemma incl_firstn {A : Type} (n : nat) (l : list A) : incl (firstn n l) l.
Proof.
  revert n. induction l as [|a l IH]; intros [|n]; simpl;
    [apply incl_refl | apply incl_refl | apply incl_nil_l |].
  intros c [<- | Hc]; [now left | right; now apply (IH n)].
Qed.

Lemma incl_skipn {A : Type} (n : nat) (l : list A) : incl (skipn n l) l.
Proof.
  revert n. induction l as [|a l IH]; intros [|n]; simpl;
    [apply incl_refl | apply incl_refl | apply incl_refl |].
  intros c Hc. right. now apply (IH n).
Qed.

Lemma incl_sliceZ {A : Type} (l : list A) (s e : Z) : incl (sliceZ l s e) l.
Proof.
  unfold sliceZ, slice. intros a Ha.
  apply incl_firstn in Ha. now apply incl_skipn in Ha.
Qed.

Lemma varyLineLength_incl (path : Path N) (factor : N) :
  incl (varyLineLength path factor) path.
Proof.
  unfold varyLineLength.
  destruct (length path <? 2)%nat eqn:Hlen; [apply incl_refl|].
  apply Nat.ltb_ge in Hlen.
  destruct (_ <? 2)%Z; [|apply incl_sliceZ].
  destruct path as [|p [|q path]]; simpl in Hlen; try lia.
  intros a [<- | [<- | []]]; [now left | right; now left].
Qed.

Lemma varyAll_clipped (mask : Mat) (layerPaths : list (Path N)) (k : nat) :
  Forall (hatch_run mask) layerPaths ->
  Forall (hatch_run mask) (fst (varyAll rnd layerPaths k)).
Proof.
  unfold varyAll.
  assert (Hfold : forall ps st,
             Forall (hatch_run mask) ps -> Forall (hatch_run mask) (fst st) ->
             Forall (hatch_run mask)
               (fst (fold_left
                       (fun (st : list (Path N) * nat) path =>
                          (fst st ++ [varyLineLength path
                                        (dec 8 10 [+] rnd (snd st) [*] dec 4 10)],
                           S (snd st))) ps st))).
  { induction ps as [|p ps IH]; intros st Hps Hst; cbn [fold_left]; [exact Hst|].
    inversion Hps as [|? ? Hp Hps']; subst.
    apply IH; [exact Hps'|]. cbn [fst].
    apply Forall_app. split; [exact Hst|]. constructor; [|constructor].
    unfold hatch_run in Hp |- *. rewrite Forall_forall in Hp |- *.
    intros a Ha. apply Hp. eapply varyLineLength_incl. exact Ha. }
  intros Hps. apply Hfold; [exact Hps | constructor].
Qed.

(** X2.  Every point of every path of the cross hatcher lies on a set pixel
    of the mask, whatever [Math.random()] returns; shortening a run by
    [varyLineLength] keeps a part of it. *)
Theorem cross_hatching_clipped :
  forall (fuel : nat) (mask : Mat) (intensity baseSpacing primaryAngle width height : N)
         (k : nat),
    match generateCrossHatching rnd fuel mask intensity baseSpacing primaryAngle
                                width height k with
    | Some (paths, _) =>
        Forall (fun path => Forall (fun p => isPointInMask p mask = true) path) paths
    | None => True
    end.
Proof.
  intros fuel mask intensity baseSpacing primaryAngle width height k.
  unfold generateCrossHatching.
  generalize (Z.to_nat (ceilZ (intensity [*] ofZ 4))) as numLayers. intros numLayers.
  assert (Hfold : forall layers st,
             match st with
             | Some (paths, _) => Forall (hatch_run mask) paths
             | None => True
             end ->
             match fold_left (cross_layer rnd fuel mask baseSpacing primaryAngle width height)
                             layers st with
             | Some (paths, _) => Forall (hatch_run mask) paths
             | None => True
             end).
  { induction layers as [|layer layers IH]; intros st Hst; cbn [fold_left]; [exact Hst|].
    apply IH. unfold cross_layer.
    destruct st as [[paths k0]|]; [|exact I].
    destruct (generateParallelHatching _ _ _ _ _ _ _) as [layerPaths|] eqn:Hpar; [|exact I].
    assert (Hruns : Forall (hatch_run mask) layerPaths).
    { unfold generateParallelHatching in Hpar.
      assert (Hall : Forall (hatch_path mask) layerPaths)
        by (eapply parallel_loop_clipped; [|exact Hpar]; constructor).
      eapply Forall_impl; [|exact Hall]. intros path [_ Hrun]. exact Hrun. }
    destruct (0 <? layer)%nat.
    - pose proof (varyAll_clipped mask layerPaths k0 Hruns) as Hvary.
      destruct (varyAll rnd layerPaths k0) as [modifiedPaths k']. cbn [fst] in Hvary.
      apply Forall_app. now split.
    - apply Forall_app. now split. }
  apply (Hfold (seq 0 numLayers) (Some ([], k))). constructor.
Qed.

(** X3.  Every path of the stippler is a dot: two points on one row, the
    first of them on a set pixel of the mask. *)
Theorem stippling_dots :
  forall (fuel : nat) (mask : Mat) (intensity baseSpacing width height : N) (k : nat),
    match generateStippling rnd fuel mask intensity baseSpacing width height k with
    | Some (paths, _) =>
        Forall (fun path =>
                  exists dot dotSize,
                    path = [dot; mkPoint (x dot [+] dotSize) (y dot)] /\
                    isPointInMask dot mask = true) paths
    | None => True
    end.
Proof.
  intros fuel mask intensity baseSpacing width height k.
  unfold generateStippling.
  destruct (poissonDiskSampling _ _ _ _ _ _ _ _) as [[dots k1]|]; [|exact I].
  set (dotpath := fun path : Path N =>
         exists dot dotSize,
           path = [dot; mkPoint (x dot [+] dotSize) (y dot)] /\
           isPointInMask dot mask = true).
  assert (Hfold : forall ds st,
             Forall dotpath (fst st) ->
             Forall dotpath
               (fst (fold_left
                       (fun (st : list (Path N) * nat) dot =>
                          if isPointInMask dot mask then
                            (fst st ++ [[dot; mkPoint (x dot [+] (dec 5 10 [+] rnd (snd st) [*] ofZ 1))
                                                      (y dot)]],
                             S (snd st))
                          else st) ds st))).
  { induction ds as [|d ds IH]; intros st Hst; cbn [fold_left]; [exact Hst|].
    apply IH. destruct (isPointInMask d mask) eqn:Hin; [|exact Hst]. cbn [fst].
    apply Forall_app. split; [exact Hst|]. constructor; [|constructor].
    exists d. eexists. split; [reflexivity | exact Hin]. }
  pose proof (Hfold dots ([], k1)) as H. 
  destruct (fold_left _ dots ([], k1)) as [paths k2] eqn:E.
  cbn [fst] in H. apply H. constructor.
Qed.
End HatcherInvariants.

(* ===================================================================== *)
(** ** The hatch loop: termination (advanced-hatching.ts) *)
(* ===================================================================== *)

(** X4.  The loop [for (offset = -diagonal; offset < diagonal; offset +=
    spacing)] never ends once the addition leaves [offset] where it is:
    no amount of fuel lets it return. *)
Theorem hatch_loop_stalls_when_spacing_is_absorbed :
  forall (N : Type) (HN : Num N) (fuel : nat) (mask : Mat)
         (width height cos sin diagonal spacing offset : N) (paths : list (Path N)),
    (offset [<] diagonal) = true ->
    offset [+] spacing = offset ->
    AdvancedHatcher.parallel_loop fuel mask width height cos sin diagonal spacing
                                  offset paths
    = None.
Proof.
  intros N HN fuel mask width height cos sin diagonal spacing offset paths Hlt Hsame.
  revert paths. induction fuel as [|fuel IH]; intros paths;
    cbn [AdvancedHatcher.parallel_loop]; rewrite Hlt; [reflexivity|].
  rewrite Hsame. apply IH.
Qed.

(** In binary64 a positive spacing can be absorbed: on a 2x2 canvas,
    [-sqrt 8 + 1e-17] is [-sqrt 8]. *)
Lemma hatch_loop_stalls_when_spacing_is_absorbed_witness :
  (ofZ 0 [<] tiny_spacing) = true /\
  AdvancedHatcher.parallel_loop 1000 full_mask_2x2 (ofZ 2) (ofZ 2) (ofZ 1) (ofZ 0)
                                diagonal_2x2 tiny_spacing (nopp diagonal_2x2) []
  = None.
Proof.
  split; [vm_compute; reflexivity|].
  apply (hatch_loop_stalls_when_spacing_is_absorbed float FloatNum 1000 full_mask_2x2
           (ofZ 2) (ofZ 2) (ofZ 1) (ofZ 0) diagonal_2x2 tiny_spacing (nopp diagonal_2x2) []);
    vm_compute; reflexivity.
Defined.

Lemma parallel_loop_stuck (mask : Mat) (width height cos sin diagonal spacing : R)
    (fuel : nat) :
  (spacing <= 0)%R ->
  forall (offset : R) (paths : list (Path R)),
    (offset < diagonal)%R ->
    AdvancedHatcher.parallel_loop fuel mask width height cos sin diagonal spacing
                                  offset paths
    = None.
Proof.
  intros Hs. induction fuel as [|fuel IH]; intros offset paths Hlt;
    cbn [AdvancedHatcher.parallel_loop nltb nadd RealNum];
    replace (RealImpl.ltb offset diagonal) with true
      by (symmetry; now apply real_ltb_true).
  - reflexivity.
  - apply IH. lra.
Qed.

(** X5.  With a base spacing of 0 or less the loop over the hatch lines
    never ends on a canvas of positive width: no amount of fuel lets the
    parallel hatcher return. *)
Theorem parallel_hatching_hangs_without_spacing :
  forall (mask : Mat) (intensity baseSpacing angle width height : R) (fuel : nat),
    (baseSpacing <= 0)%R -> (0 < width)%R ->
    AdvancedHatcher.generateParallelHatching fuel mask intensity baseSpacing angle
                                             width height
    = None.
Proof.
  intros mask intensity baseSpacing angle width height fuel Hb Hw.
  unfold AdvancedHatcher.generateParallelHatching. cbv zeta.
  unfold dec. cbn [nmax ndiv nmul nadd nsqrt nopp ofZ RealNum].
  assert (Hd : (0 < R_sqrt.sqrt (width * width + height * height))%R).
  { apply sqrt_lt_R0. nra. }
  apply parallel_loop_stuck; [|lra].
  assert (Hm : (0 < Rmax (3 / 10) intensity)%R)
    by (pose proof (Rmax_l (3 / 10) intensity); lra).
  unfold Rdiv. apply Rinv_0_lt_compat in Hm. nra.
Qed.

Lemma parallel_hatching_hangs_without_spacing_witness :
  AdvancedHatcher.generateParallelHatching 1000 full_mask_2x2 1%R 0%R 0%R 2%R 2%R = None.
Proof.
  apply (parallel_hatching_hangs_without_spacing full_mask_2x2 1%R 0%R 0%R 2%R 2%R 1000);
    lra.
Defined.

(* ===================================================================== *)
(** ** Contour hatching (advanced-hatching.ts) *)
(* ===================================================================== *)

Section ContourShape.
Context {N : Type} {HN : Num N} {HT : Trig N}.
Variable findContours : Mat -> list (list (Z * Z)).

Import AdvancedHatcher.

Lemma length_offsetContour (contour : list (Z * Z)) (offset : N) (points : list (Point N)) :
  offsetContour contour offset = Some points -> length points = length contour.
Proof.
  unfold offsetContour. destruct (length contour <? 3)%nat; [discriminate|].
  intros [= <-]. now rewrite length_map, length_seq, length_map.
Qed.

Lemma length_smoothContour (points : list (Point N)) (iterations : nat) :
  length (smoothContour points iterations) = length points.
Proof.
  unfold smoothContour. generalize (seq 0 iterations) as rounds. intros rounds.
  revert points. induction rounds as [|r rounds IH]; intros points; cbn [fold_left];
    [reflexivity|].
  rewrite IH. now rewrite length_map, length_seq.
Qed.

(** X6.  Every path of the contour hatcher has as many points as one of the
    contours of the mask, and at least four: contours of three vertices
    are dropped. *)
Theorem contour_hatching_follows_contours :
  forall (mask : Mat) (intensity baseSpacing : N),
    Forall (fun path =>
              (4 <= length path)%nat /\
              exists contour, In contour (findContours mask) /\
                              length path = length contour)
           (generateContourHatching findContours mask intensity baseSpacing).
Proof.
  intros mask intensity baseSpacing. unfold generateContourHatching. cbv zeta.
  destruct (Nat.eqb (length (findContours mask)) 0); [constructor|].
  apply Forall_forall. intros path Hpath.
  apply in_flat_map in Hpath as (layer & _ & Hpath).
  apply in_flat_map in Hpath as (contour & Hcontour & Hpath).
  destruct (offsetContour contour _) as [offsetPoints|] eqn:Hoffset; [|destruct Hpath].
  apply length_offsetContour in Hoffset.
  destruct (3 <? length offsetPoints)%nat eqn:Hlong; [|destruct Hpath].
  apply Nat.ltb_lt in Hlong.
  destruct (2 <? length (smoothContour offsetPoints 2))%nat; [|destruct Hpath].
  destruct Hpath as [<- | []].
  rewrite length_smoothContour. split; [lia|].
  exists contour. split; [exact Hcontour | exact Hoffset].
Qed.

End ContourShape.

(** The first vertex of a contour takes the last one as its predecessor
    ([points[(i - 1 + points.length) % points.length]]): on a square, at
    offset 1, it moves along the diagonal, in binary64 as in the program. *)
Lemma offsetContour_wraps_around :
  match AdvancedHatcher.offsetContour (N:=float) [(0, 0); (4, 0); (4, 4); (0, 4)]%Z (ofZ 1) with
  | Some (p :: _) => x p = y p /\ (ofZ 0 [<] x p) = true
  | _ => False
  end.
Proof. vm_compute. split; reflexivity. Qed.

(* ===================================================================== *)
(** ** Line shortening of the cross hatcher (advanced-hatching.ts) *)
(* ===================================================================== *)

Lemma Int_part_le (r : R) (z : Z) : (r <= IZR z)%R -> (Int_part r <= z)%Z.
Proof.
  intros Hr. destruct (base_Int_part r) as [Hlo _].
  apply le_IZR. lra.
Qed.

Lemma Int_part_nonneg (r : R) : (0 <= r)%R -> (0 <= Int_part r)%Z.
Proof.
  intros Hr. destruct (base_Int_part r) as [_ Hhi].
  assert (H : (-1 < IZR (Int_part r))%R) by lra.
  apply lt_IZR in H. lia.
Qed.

Lemma length_sliceZ_inside {A : Type} (l : list A) (s n : Z) :
  (0 <= s)%Z -> (0 <= n)%Z -> (s + n <= Z.of_nat (length l))%Z ->
  length (sliceZ l s (s + n)) = Z.to_nat n.
Proof.
  intros Hs Hn Hfit. unfold sliceZ, slice.
  replace (s <? 0)%Z with false by (symmetry; apply Z.ltb_ge; lia).
  replace (s + n <? 0)%Z with false by (symmetry; apply Z.ltb_ge; lia).
  rewrite length_firstn, length_skipn. lia.
Qed.

(** X7.  For a factor of at most 1, [varyLineLength] returns between two
    points and the points of the path it was given.  (For a factor above
    1 it does not: see C9.) *)
Theorem varyLineLength_shortening :
  forall (path : Path R) (factor : R),
    (2 <= length path)%nat -> (factor <= 1)%R ->
    (2 <= length (AdvancedHatcher.varyLineLength path factor) <= length path)%nat.
Proof.
  intros path factor Hlen Hfactor. unfold AdvancedHatcher.varyLineLength.
  replace (length path <? 2)%nat with false by (symmetry; now apply Nat.ltb_ge).
  unfold ofNat. cbn [floorZ nmul ndiv ofZ RealNum].
  set (newLength := Int_part (IZR (Z.of_nat (length path)) * factor)).
  destruct (newLength <? 2)%Z eqn:Hshort; [simpl; lia|].
  apply Z.ltb_ge in Hshort.
  assert (Hnew : (newLength <= Z.of_nat (length path))%Z).
  { apply Int_part_le.
    assert (0 <= IZR (Z.of_nat (length path)))%R by (apply IZR_le; lia).
    nra. }
  set (k := (Z.of_nat (length path) - newLength)%Z).
  assert (Hstart : (0 <= Int_part (IZR k / 2) <= k)%Z).
  { assert (0 <= IZR k)%R by (apply IZR_le; unfold k; lia).
    split; [apply Int_part_nonneg; lra | apply Int_part_le; lra]. }
  rewrite length_sliceZ_inside by (unfold k in *; lia).
  lia.
Qed.

Lemma varyLineLength_shortening_witness :
  (2 <= length (AdvancedHatcher.varyLineLength
                  [rpt 0 0; rpt 1 0; rpt 2 0; rpt 3 0; rpt 4 0] (8 / 10)%R)
   <= length [rpt 0 0; rpt 1 0; rpt 2 0; rpt 3 0; rpt 4 0])%nat.
Proof.
  apply (varyLineLength_shortening [rpt 0 0; rpt 1 0; rpt 2 0; rpt 3 0; rpt 4 0] (8 / 10)%R).
  - simpl. lia.
  - lra.
Defined.

(* ===================================================================== *)
(** ** Poisson-disk sampling (advanced-hatching.ts) *)
(* ===================================================================== *)

Section Poisson.
Variable findContours : Mat -> list (list (Z * Z)).
Variable rnd : nat -> R.
Variables width height minDist : R.
Hypothesis minDist_pos : (0 < minDist)%R.

Import AdvancedHatcher.

Variable cellSize : R.
Hypothesis cellSize_pos : (0 < cellSize)%R.
Hypothesis minDist_cells : (minDist * minDist = 2 * (cellSize * cellSize))%R.

Local Abbreviation gridWidth := (ceilZ (N:=R) (width / cellSize)%R).
Local Abbreviation gridHeight := (ceilZ (N:=R) (height / cellSize)%R).

Lemma Int_part_bounds (r : R) : (IZR (Int_part r) <= r < IZR (Int_part r) + 1)%R.
Proof. destruct (base_Int_part r). lra. Qed.

Lemma cell_coordinate (v : R) :
  (IZR (Int_part (v / cellSize)) * cellSize <= v
   < (IZR (Int_part (v / cellSize)) + 1) * cellSize)%R.
Proof.
  pose proof cellSize_pos as Hc.
  pose proof (Int_part_bounds (v / cellSize)) as [Hlo Hhi].
  assert (Hv : (v = v / cellSize * cellSize)%R) by (field; lra).
  split.
  - rewrite Hv at 2. apply Rmult_le_compat_r; lra.
  - rewrite Hv at 1. apply Rmult_lt_compat_r; lra.
Qed.

Lemma cell_in_range (v limit : R) :
  (0 <= v < limit)%R ->
  (0 <= Int_part (v / cellSize)%R < ceilZ (N:=R) (limit / cellSize)%R)%Z.
Proof.
  intros [Hv0 Hv1]. pose proof cellSize_pos as Hc.
  pose proof (cell_coordinate v) as [Hlo Hhi].
  split.
  - assert (H : (-1 < IZR (Int_part (v / cellSize)))%R) by nra.
    apply lt_IZR in H. lia.
  - unfold ceilZ. cbn [floorZ nopp RealNum].
    pose proof (Int_part_bounds (- (limit / cellSize))) as [Hclo _].
    assert (Hlim : (limit = limit / cellSize * cellSize)%R) by (field; lra).
    assert (H : (IZR (Int_part (v / cellSize)) < IZR (- Int_part (- (limit / cellSize))))%R).
    { rewrite opp_IZR.
      apply Rmult_lt_reg_r with (r := cellSize); [exact Hc|].
      apply Rle_lt_trans with v; [exact Hlo|].
      apply Rlt_le_trans with limit; [exact Hv1|].
      rewrite Hlim at 1. apply Rmult_le_compat_r; lra. }
    now apply lt_IZR in H.
Qed.

Lemma sqrt_ge (d s : R) : (0 <= d)%R -> (d * d <= s)%R -> (d <= R_sqrt.sqrt s)%R.
Proof.
  intros Hd Hs. rewrite <- (sqrt_square d) by exact Hd. now apply sqrt_le_1_alt.
Qed.

Lemma sqrt_lt (d s : R) : (0 < d)%R -> (0 <= s < d * d)%R -> (R_sqrt.sqrt s < d)%R.
Proof.
  intros Hd [Hs0 Hs]. rewrite <- (sqrt_square d) by lra. apply sqrt_lt_1_alt. lra.
Qed.

(** Points whose cells are three or more columns (or rows) apart. *)
Lemma far_cells (a b : R) :
  (3 <= Z.abs (Int_part (a / cellSize)%R - Int_part (b / cellSize)%R))%Z ->
  (minDist * minDist <= (a - b) * (a - b))%R.
Proof.
  intros Hcells. pose proof cellSize_pos as Hc.
  pose proof (cell_coordinate a) as [Halo Hahi].
  pose proof (cell_coordinate b) as [Hblo Hbhi].
  rewrite minDist_cells.
  destruct (Z.abs_spec (Int_part (a / cellSize) - Int_part (b / cellSize)))
    as [[_ Habs] | [_ Habs]]; rewrite Habs in Hcells.
  - assert (H : (IZR (Int_part (b / cellSize)) + 3 <= IZR (Int_part (a / cellSize)))%R).
    { rewrite <- plus_IZR. apply IZR_le. lia. }
    assert (Hd : (2 * cellSize <= a - b)%R) by nra.
    nra.
  - assert (H : (IZR (Int_part (a / cellSize)) + 3 <= IZR (Int_part (b / cellSize)))%R).
    { rewrite <- plus_IZR. apply IZR_le. lia. }
    assert (Hd : (2 * cellSize <= b - a)%R) by nra.
    nra.
Qed.

(** Points of one cell are closer than [minDist]. *)
Lemma same_cell_close (p q : Point R) :
  cell_of cellSize p = cell_of cellSize q ->
  (R_sqrt.sqrt ((x p - x q) * (x p - x q) + (y p - y q) * (y p - y q)) < minDist)%R.
Proof.
  unfold cell_of. intros [= Hx Hy]. pose proof cellSize_pos as Hc.
  pose proof (cell_coordinate (x p)) as [Hpx0 Hpx1].
  pose proof (cell_coordinate (x q)) as [Hqx0 Hqx1].
  pose proof (cell_coordinate (y p)) as [Hpy0 Hpy1].
  pose proof (cell_coordinate (y q)) as [Hqy0 Hqy1].
  rewrite Hx in *. rewrite Hy in *.
  apply sqrt_lt; [exact minDist_pos|]. rewrite minDist_cells.
  assert (Hdx : (- cellSize < x p - x q < cellSize)%R) by lra.
  assert (Hdy : (- cellSize < y p - y q < cellSize)%R) by lra.
  assert (Hx2 : (0 < (cellSize - (x p - x q)) * (cellSize + (x p - x q)))%R)
    by (apply Rmult_lt_0_compat; lra).
  assert (Hy2 : (0 < (cellSize - (y p - y q)) * (cellSize + (y p - y q)))%R)
    by (apply Rmult_lt_0_compat; lra).
  pose proof (Rle_0_sqr (x p - x q)) as Hsx. pose proof (Rle_0_sqr (y p - y q)) as Hsy.
  unfold Rsqr in Hsx, Hsy.
  split; [lra|]. lra.
Qed.

Lemma grid_get_entry (grid : Grid (N:=R)) (c : Z * Z) (p : Point R) :
  NoDup (map fst grid) -> In (c, p) grid -> grid_get grid (fst c) (snd c) = Some p.
Proof.
  unfold grid_get. induction grid as [|[c' p'] grid IH]; intros Hnd Hin; [destruct Hin|].
  cbn [find fst snd]. cbn [map fst] in Hnd. inversion Hnd as [|? ? Hnotin Hnd']; subst.
  destruct Hin as [[= -> ->] | Hin].
  - now rewrite !Z.eqb_refl.
  - destruct ((fst c' =? fst c)%Z && (snd c' =? snd c)%Z) eqn:Hsame.
    + apply andb_prop in Hsame as [Hf Hs]. apply Z.eqb_eq in Hf, Hs.
      exfalso. apply Hnotin.
      replace c' with c by (destruct c, c'; simpl in *; congruence).
      change c with (fst (c, p)). now apply in_map.
    + now apply IH.
Qed.

Lemma offsets5_spec (d : Z) : (Z.abs d <= 2)%Z -> In d offsets5.
Proof. intros Hd. unfold offsets5. simpl. lia. Qed.

(** A valid candidate keeps its distance from every sample. *)
Lemma candidate_valid_far (grid : Grid (N:=R)) (candidate : Point R) (c : Z * Z)
    (p : Point R) :
  NoDup (map fst grid) ->
  In (c, p) grid -> c = cell_of cellSize p -> on_canvas width height p ->
  candidate_valid grid gridWidth gridHeight minDist candidate
                  (fst (cell_of cellSize candidate)) (snd (cell_of cellSize candidate))
  = true ->
  far_apart minDist candidate p.
Proof.
  intros Hnd Hin Hc [Hpx Hpy] Hvalid. unfold far_apart.
  set (dx := (fst c - fst (cell_of cellSize candidate))%Z).
  set (dy := (snd c - snd (cell_of cellSize candidate))%Z).
  destruct (Z_le_gt_dec (Z.abs dx) 2) as [Hdx | Hdx];
    [destruct (Z_le_gt_dec (Z.abs dy) 2) as [Hdy | Hdy]|].
  - unfold candidate_valid in Hvalid.
    rewrite forallb_forall in Hvalid. specialize (Hvalid dx (offsets5_spec dx Hdx)).
    rewrite forallb_forall in Hvalid. specialize (Hvalid dy (offsets5_spec dy Hdy)).
    cbv zeta in Hvalid.
    replace (fst (cell_of cellSize candidate) + dx)%Z with (fst c) in Hvalid
      by (unfold dx; lia).
    replace (snd (cell_of cellSize candidate) + dy)%Z with (snd c) in Hvalid
      by (unfold dy; lia).
    pose proof (cell_in_range (x p) width Hpx) as Hcx.
    pose proof (cell_in_range (y p) height Hpy) as Hcy.
    rewrite Hc in Hvalid at 1 2 3 4. unfold cell_of in Hvalid at 1 2 3 4.
    cbn [fst snd] in Hvalid.
    replace (0 <=? Int_part (x p / cellSize)%R)%Z with true in Hvalid
      by (symmetry; apply Z.leb_le; lia).
    replace (Int_part (x p / cellSize)%R <? gridWidth)%Z with true in Hvalid
      by (symmetry; apply Z.ltb_lt; lia).
    replace (0 <=? Int_part (y p / cellSize)%R)%Z with true in Hvalid
      by (symmetry; apply Z.leb_le; lia).
    replace (Int_part (y p / cellSize)%R <? gridHeight)%Z with true in Hvalid
      by (symmetry; apply Z.ltb_lt; lia).
    cbn [andb] in Hvalid.
    rewrite (grid_get_entry grid c p Hnd Hin) in Hvalid.
    cbn [nltb nsqrt nadd nsub nmul RealNum] in Hvalid.
    apply negb_true_iff, real_ltb_false in Hvalid. exact Hvalid.
  - apply sqrt_ge; [lra|].
    assert (H : (minDist * minDist <= (y candidate - y p) * (y candidate - y p))%R).
    { apply far_cells. unfold dy in Hdy. rewrite Hc in Hdy. unfold cell_of in Hdy.
      cbn [fst snd] in Hdy. lia. }
    pose proof (Rle_0_sqr (x candidate - x p)) as Hsq. unfold Rsqr in Hsq. lra.
  - apply sqrt_ge; [lra|].
    assert (H : (minDist * minDist <= (x candidate - x p) * (x candidate - x p))%R).
    { apply far_cells. unfold dx in Hdx. rewrite Hc in Hdx. unfold cell_of in Hdx.
      cbn [fst snd] in Hdx. lia. }
    pose proof (Rle_0_sqr (y candidate - y p)) as Hsq. unfold Rsqr in Hsq. lra.
Qed.

Lemma far_apart_sym (d : R) (p q : Point R) : far_apart d p q -> far_apart d q p.
Proof.
  unfold far_apart. intros H.
  replace ((x q - x p) * (x q - x p) + (y q - y p) * (y q - y p))%R
    with ((x p - x q) * (x p - x q) + (y p - y q) * (y p - y q))%R by ring.
  exact H.
Qed.

Lemma attempts_accepts (tries : nat) (grid : Grid (N:=R)) (maxDist : R) (current : Point R) :
  forall (k k' : nat) (candidate : Point R) (cell : Z * Z),
    attempts rnd tries grid gridWidth gridHeight width height minDist maxDist cellSize
             current k
    = (Some (candidate, cell), k') ->
    on_canvas width height candidate /\
    cell = cell_of cellSize candidate /\
    candidate_valid grid gridWidth gridHeight minDist candidate
                    (fst (cell_of cellSize candidate)) (snd (cell_of cellSize candidate))
    = true.
Proof.
  induction tries as [|tries IH]; intros k k' candidate cell Hrun; [discriminate|].
  cbn [attempts] in Hrun.
  match type of Hrun with
  | (if ?inside then _ else _) = _ => destruct inside eqn:Hinside
  end; [|now apply IH in Hrun].
  match type of Hrun with
  | (if ?valid then _ else _) = _ => destruct valid eqn:Hvalid
  end; [|now apply IH in Hrun].
  injection Hrun as <- <- _.
  apply andb_prop in Hinside as [Hinside Hy1].
  apply andb_prop in Hinside as [Hinside Hy0].
  apply andb_prop in Hinside as [Hx0 Hx1].
  cbn [nleb nltb ofZ RealNum x y] in Hx0, Hx1, Hy0, Hy1.
  apply real_leb_true in Hx0, Hy0. apply real_ltb_true in Hx1, Hy1.
  split; [split; cbn [x y]; split; assumption|].
  split; [reflexivity | exact Hvalid].
Qed.

Lemma ForallOrdPairs_snoc {A : Type} (rel : A -> A -> Prop) (l : list A) (a : A) :
  ForallOrdPairs rel l -> Forall (fun b => rel b a) l -> ForallOrdPairs rel (l ++ [a]).
Proof.
  induction 1 as [|b l Hb Hl IH]; intros Hall; cbn [app].
  - constructor; constructor.
  - inversion Hall as [|? ? Hba Hall']; subst.
    constructor; [|now apply IH].
    apply Forall_app. split; [exact Hb | constructor; [exact Hba | constructor]].
Qed.

Lemma poisson_state_accept (grid : Grid (N:=R)) (points : list (Point R))
    (candidate : Point R) :
  poisson_state width height minDist cellSize grid points ->
  on_canvas width height candidate ->
  candidate_valid grid gridWidth gridHeight minDist candidate
                  (fst (cell_of cellSize candidate)) (snd (cell_of cellSize candidate))
  = true ->
  poisson_state width height minDist cellSize
                ((cell_of cellSize candidate, candidate) :: grid) (points ++ [candidate]).
Proof.
  intros (Hsame & Hcells & Hnd & Hfar) Hcanvas Hvalid.
  assert (Hkeeps : forall c p, In (c, p) grid -> far_apart minDist candidate p).
  { intros c p Hin. rewrite Forall_forall in Hcells.
    destruct (Hcells (c, p) Hin) as [Hc Hp]. cbn [fst snd] in Hc, Hp.
    exact (candidate_valid_far grid candidate c p Hnd Hin Hc Hp Hvalid). }
  repeat split.
  - intros Hp. cbn [map snd]. apply in_app_or in Hp as [Hp | [<- | []]];
      [right; now apply Hsame | now left].
  - cbn [map snd]. intros [<- | Hp]; apply in_or_app;
      [right; now left | left; now apply Hsame].
  - constructor; [split; [reflexivity | exact Hcanvas] | exact Hcells].
  - cbn [map fst]. constructor; [|exact Hnd].
    intros Hin. apply in_map_iff in Hin as ([c p] & Hc & Hin). cbn [fst] in Hc. subst c.
    pose proof (Hkeeps _ _ Hin) as Hfar'.
    rewrite Forall_forall in Hcells. destruct (Hcells _ Hin) as [Hc _]. cbn [fst snd] in Hc.
    pose proof (same_cell_close candidate p Hc) as Hclose.
    unfold far_apart in Hfar'. lra.
  - apply ForallOrdPairs_snoc; [exact Hfar|].
    apply Forall_forall. intros p Hp. apply far_apart_sym.
    apply Hsame in Hp. apply in_map_iff in Hp as ([c q] & Hq & Hin). cbn [snd] in Hq. subst q.
    exact (Hkeeps c p Hin).
Qed.

Lemma poisson_loop_state (maxDist density : R) (fuel : nat) :
  forall (grid : Grid (N:=R)) (points active : list (Point R)) (k : nat)
         (result : list (Point R)) (k' : nat),
    poisson_state width height minDist cellSize grid points ->
    poisson_loop rnd fuel gridWidth gridHeight width height minDist maxDist density cellSize
                 grid points active k
    = Some (result, k') ->
    ForallOrdPairs (far_apart minDist) result /\ Forall (on_canvas width height) result.
Proof.
  induction fuel as [|fuel IH]; intros grid points active k result k' Hstate Hrun;
    cbn [poisson_loop] in Hrun;
    match type of Hrun with
    | (if ?continue then _ else _) = _ => destruct continue
    end; try discriminate.
  - injection Hrun as <- <-.
    destruct Hstate as (Hsame & Hcells & _ & Hfar). split; [exact Hfar|].
    apply Forall_forall. intros p Hp. apply Hsame in Hp.
    apply in_map_iff in Hp as (e & <- & He).
    rewrite Forall_forall in Hcells. now apply Hcells.
  - match type of Hrun with
    | match ?tried with _ => _ end = _ => destruct tried as [[[candidate cell]|] k1] eqn:Htry
    end.
    + apply attempts_accepts in Htry as (Hcanvas & -> & Hvalid).
      eapply IH; [|exact Hrun]. now apply poisson_state_accept.
    + eapply IH; [|exact Hrun]. exact Hstate.
  - injection Hrun as <- <-.
    destruct Hstate as (Hsame & Hcells & _ & Hfar). split; [exact Hfar|].
    apply Forall_forall. intros p Hp. apply Hsame in Hp.
    apply in_map_iff in Hp as (e & <- & He).
    rewrite Forall_forall in Hcells. now apply Hcells.
Qed.

End Poisson.

Lemma poisson_cell_size (minDist : R) :
  (0 < minDist)%R ->
  (0 < minDist / R_sqrt.sqrt 2)%R /\
  (minDist * minDist
   = 2 * (minDist / R_sqrt.sqrt 2 * (minDist / R_sqrt.sqrt 2)))%R.
Proof.
  intros Hm.
  assert (Hs : (0 < R_sqrt.sqrt 2)%R) by (apply sqrt_lt_R0; lra).
  assert (H2 : (R_sqrt.sqrt 2 * R_sqrt.sqrt 2 = 2)%R) by (apply sqrt_sqrt; lra).
  split; [now apply Rdiv_lt_0_compat|].
  unfold Rdiv.
  replace (2 * (minDist * / R_sqrt.sqrt 2 * (minDist * / R_sqrt.sqrt 2)))%R
    with (minDist * minDist * (2 * (/ R_sqrt.sqrt 2 * / R_sqrt.sqrt 2)))%R by ring.
  rewrite <- Rinv_mult, H2, Rinv_r by lra. ring.
Qed.

Lemma poissonDiskSampling_state (rnd : nat -> R) (fuel : nat)
    (width height minDist maxDist density : R) (k : nat)
    (points : list (Point R)) (k' : nat) :
  (0 < minDist)%R -> (0 < width)%R -> (0 < height)%R ->
  (forall i, 0 <= rnd i < 1)%R ->
  AdvancedHatcher.poissonDiskSampling rnd fuel width height minDist maxDist density k
  = Some (points, k') ->
  ForallOrdPairs (far_apart minDist) points /\ Forall (on_canvas width height) points.
Proof.
  intros Hm Hw Hh Hrnd. unfold AdvancedHatcher.poissonDiskSampling. cbv zeta.
  cbn [nsqrt ndiv nmul ofZ RealNum x y floorZ].
  destruct (poisson_cell_size minDist Hm) as [Hcs Hcells].
  apply (poisson_loop_state rnd width height minDist Hm (minDist / R_sqrt.sqrt 2)%R
                            Hcs Hcells maxDist density fuel).
  repeat split.
  - intros Hp. exact Hp.
  - intros Hp. exact Hp.
  - constructor; [|constructor]. split; [reflexivity|].
    pose proof (Hrnd k) as Hk. pose proof (Hrnd (S k)) as Hk1.
    split; cbn [snd x y]; split; nra.
  - cbn [map fst]. constructor; [intros [] | constructor].
  - constructor; [constructor | constructor].
Qed.

(** X8.  The samples of the Poisson-disk sampler lie on the canvas and are
    pairwise at least [minDist] apart, for every sequence of
    [Math.random()] values in [0, 1). *)
Theorem poisson_samples_keep_their_distance :
  forall (rnd : nat -> R) (fuel : nat) (width height minDist maxDist density : R) (k : nat),
    (0 < minDist)%R -> (0 < width)%R -> (0 < height)%R ->
    (forall i, 0 <= rnd i < 1)%R ->
    match AdvancedHatcher.poissonDiskSampling rnd fuel width height minDist maxDist
                                              density k with
    | Some (points, _) =>
        ForallOrdPairs (far_apart minDist) points /\ Forall (on_canvas width height) points
    | None => True
    end.
Proof.
  intros rnd fuel width height minDist maxDist density k Hm Hw Hh Hrnd.
  destruct (AdvancedHatcher.poissonDiskSampling _ _ _ _ _ _ _ _) as [[points k']|] eqn:Hrun;
    [|exact I].
  exact (poissonDiskSampling_state rnd fuel width height minDist maxDist density k
           points k' Hm Hw Hh Hrnd Hrun).
Qed.

Lemma sqrt2_bounds : (1 < R_sqrt.sqrt 2 < 3 / 2)%R.
Proof.
  split.
  - rewrite <- sqrt_1 at 1. apply sqrt_lt_1_alt. lra.
  - replace (3 / 2)%R with (R_sqrt.sqrt (9 / 4)).
    + apply sqrt_lt_1_alt. lra.
    + replace (9 / 4)%R with (3 / 2 * (3 / 2))%R by lra. apply sqrt_square. lra.
Qed.


Lemma candidate_valid_all_far {N : Type} {HN : Num N}
    (grid : AdvancedHatcher.Grid (N:=N)) (gridWidth gridHeight : Z) (minDist : N)
    (candidate : Point N) (gridX gridY : Z) :
  (forall e, In e grid ->
     (nsqrt ((x candidate [-] x (snd e)) [*] (x candidate [-] x (snd e))
             [+] (y candidate [-] y (snd e)) [*] (y candidate [-] y (snd e)))
        [<] minDist) = false) ->
  AdvancedHatcher.candidate_valid grid gridWidth gridHeight minDist candidate gridX gridY
  = true.
Proof.
  intros Hfar. unfold AdvancedHatcher.candidate_valid.
  apply forallb_forall. intros dx _. apply forallb_forall. intros dy _.
  destruct (_ && _); [|reflexivity].
  unfold AdvancedHatcher.grid_get.
  destruct (find _ grid) as [e|] eqn:E; [|reflexivity].
  apply find_some in E as [He _]. now rewrite (Hfar e He).
Qed.

Lemma attempts_first_try (tries : nat) :
  AdvancedHatcher.attempts (fun _ => 0%R) (S tries) [((0%Z, 0%Z), rpt 0 0)] 3 3
    2%R 2%R 1%R 4%R (1 / R_sqrt.sqrt 2)%R (rpt 0 0) 3
  = (Some (rpt 1 0, (1%Z, 0%Z)), 5%nat).
Proof.
  pose proof sqrt2_bounds as Hs2.
  cbn [AdvancedHatcher.attempts]. cbv zeta.
  cbn [x y rpt nmul nadd nsub ndiv nltb nleb ofZ floorZ ncos nsin nPI RealNum RealTrig].
  replace (0 * 2 * PI)%R with 0%R by lra. rewrite cos_0, sin_0.
  replace (0 + 1 * (1 + 0 * (4 - 1)))%R with 1%R by lra.
  replace (0 + 0 * (1 + 0 * (4 - 1)))%R with 0%R by lra.
  replace (RealImpl.leb 0 1) with true by (symmetry; apply real_leb_true; lra).
  replace (RealImpl.ltb 1 2) with true by (symmetry; apply real_ltb_true; lra).
  replace (RealImpl.leb 0 0) with true by (symmetry; apply real_leb_true; lra).
  replace (RealImpl.ltb 0 2) with true by (symmetry; apply real_ltb_true; lra).
  cbn [andb].
  replace (Int_part (1 / (1 / R_sqrt.sqrt 2))) with 1%Z.
  2:{ symmetry. apply Int_part_unique.
      replace (1 / (1 / R_sqrt.sqrt 2))%R with (R_sqrt.sqrt 2) by (field; lra). lra. }
  replace (0 / (1 / R_sqrt.sqrt 2))%R with 0%R by (field; lra).
  rewrite Int_part_0.
  rewrite candidate_valid_all_far; [reflexivity|].
  intros e [<- | []]. cbn [snd x y nsub nmul nadd nsqrt nltb RealNum].
  apply real_ltb_false.
  unfold rpt. cbn [x y].
  replace ((1 - 0) * (1 - 0) + (0 - 0) * (0 - 0))%R with 1%R by lra.
  rewrite sqrt_1. lra.
Qed.

(** Two samples: with every draw 0 the second one lands at distance
    [minDist] to the right of the first. *)
Lemma poisson_two_samples :
  AdvancedHatcher.poissonDiskSampling (fun _ => 0%R) 1 2%R 2%R 1%R 4%R (1 / 2)%R 0
  = Some ([rpt 0 0; rpt 1 0], 5%nat).
Proof.
  pose proof sqrt2_bounds as Hs2.
  unfold AdvancedHatcher.poissonDiskSampling. cbv zeta.
  cbn [x y nmul ndiv nsqrt ofZ floorZ RealNum].
  unfold ceilZ. cbn [nopp floorZ RealNum ndiv].
  replace (0 * 2)%R with 0%R by lra.
  replace (0 / (1 / R_sqrt.sqrt 2))%R with 0%R by (field; lra).
  rewrite Int_part_0.
  replace (Int_part (- (2 / (1 / R_sqrt.sqrt 2)))) with (-3)%Z.
  2:{ symmetry. apply Int_part_unique.
      replace (2 / (1 / R_sqrt.sqrt 2))%R with (2 * R_sqrt.sqrt 2)%R by (field; lra).
      assert (Hsq : (R_sqrt.sqrt 2 * R_sqrt.sqrt 2 = 2)%R) by (apply sqrt_sqrt; lra).
      split; nra. }
  cbn [Z.opp].
  cbn [AdvancedHatcher.poisson_loop length Nat.ltb Nat.leb andb].
  unfold ofNat. cbn [Z.of_nat Pos.of_succ_nat Pos.succ nltb nmul ndiv ofZ floorZ RealNum].
  replace (RealImpl.ltb 1 (2 * 2 * (1 / 2) / (1 * 1))) with true
    by (symmetry; apply real_ltb_true; lra).
  replace (0 * 1)%R with 0%R by lra. rewrite Int_part_0.
  change (at_ AdvancedHatcher.origin [{| x := 0%R; y := 0%R |}] (Z.to_nat 0))
    with (rpt 0 0).
  change {| x := 0%R; y := 0%R |} with (rpt 0 0).
  rewrite attempts_first_try.
  cbn [app length Nat.ltb Nat.leb andb Z.of_nat Pos.of_succ_nat Pos.succ].
  replace (RealImpl.ltb 2 (2 * 2 * (1 / 2) / (1 * 1))) with false
    by (symmetry; apply real_ltb_false; lra).
  reflexivity.
Qed.

Lemma poisson_samples_keep_their_distance_witness :
  exists points k',
    AdvancedHatcher.poissonDiskSampling (fun _ => 0%R) 1 2%R 2%R 1%R 4%R (1 / 2)%R 0
    = Some (points, k') /\
    length points = 2%nat /\
    ForallOrdPairs (far_apart 1%R) points /\ Forall (on_canvas 2%R 2%R) points.
Proof.
  exists [rpt 0 0; rpt 1 0], 5%nat.
  split; [exact poisson_two_samples|]. split; [reflexivity|].
  pose proof (poisson_samples_keep_their_distance (fun _ => 0%R) 1 2%R 2%R 1%R 4%R
                (1 / 2)%R 0) as H.
  rewrite poisson_two_samples in H.
  apply H; try lra. intros i. lra.
Defined.

Lemma ForallOrdPairs_filter {A : Type} (rel : A -> A -> Prop) (keep : A -> bool)
    (l : list A) :
  ForallOrdPairs rel l -> ForallOrdPairs rel (filter keep l).
Proof.
  induction 1 as [|a l Ha Hl IH]; cbn [filter]; [constructor|].
  destruct (keep a); [|exact IH].
  constructor; [|exact IH].
  apply Forall_forall. intros b Hb. apply filter_In in Hb as [Hb _].
  rewrite Forall_forall in Ha. now apply Ha.
Qed.

Lemma stippling_heads (rnd : nat -> R) (mask : Mat) (dots : list (Point R)) :
  forall (st : list (Path R) * nat),
    map (hd AdvancedHatcher.origin)
        (fst (fold_left
                (fun (st : list (Path R) * nat) dot =>
                   if AdvancedHatcher.isPointInMask dot mask then
                     (fst st
                        ++ [[dot; mkPoint (x dot [+] (dec 5 10 [+] rnd (snd st) [*] ofZ 1))
                                          (y dot)]],
                      S (snd st))
                   else st)
                dots st))
    = map (hd AdvancedHatcher.origin) (fst st)
        ++ filter (fun dot => AdvancedHatcher.isPointInMask dot mask) dots.
Proof.
  induction dots as [|dot dots IH]; intros st; cbn [fold_left filter].
  - now rewrite app_nil_r.
  - rewrite IH. destruct (AdvancedHatcher.isPointInMask dot mask); [|reflexivity].
    cbn [fst]. rewrite map_app. cbn [map hd]. now rewrite <- app_assoc.
Qed.

(** X9.  The dots of the stippler are pairwise at least half the base
    spacing apart. *)
Theorem stipple_dots_keep_their_distance :
  forall (rnd : nat -> R) (fuel : nat) (mask : Mat)
         (intensity baseSpacing width height : R) (k : nat),
    (0 < baseSpacing)%R -> (0 < width)%R -> (0 < height)%R ->
    (forall i, 0 <= rnd i < 1)%R ->
    match AdvancedHatcher.generateStippling rnd fuel mask intensity baseSpacing
                                            width height k with
    | Some (paths, _) =>
        ForallOrdPairs (far_apart (baseSpacing / 2))
                       (map (hd AdvancedHatcher.origin) paths)
    | None => True
    end.
Proof.
  intros rnd fuel mask intensity baseSpacing width height k Hb Hw Hh Hrnd.
  unfold AdvancedHatcher.generateStippling. cbv zeta.
  destruct (AdvancedHatcher.poissonDiskSampling _ _ _ _ _ _ _ _) as [[dots k1]|] eqn:Hrun;
    [|exact I].
  apply poissonDiskSampling_state in Hrun as [Hfar _]; try assumption.
  - pose proof (stippling_heads rnd mask dots ([], k1)) as Hheads.
    destruct (fold_left _ dots ([], k1)) as [paths k2].
    cbn [fst map app] in Hheads. rewrite Hheads.
    apply ForallOrdPairs_filter.
    replace (baseSpacing / 2)%R with (baseSpacing [*] dec 5 10);
      [exact Hfar | unfold dec; cbn [nmul ndiv ofZ RealNum]; lra].
  - unfold dec. cbn [nmul ndiv ofZ RealNum]. lra.
Qed.

Lemma stipple_dots_keep_their_distance_witness :
  match AdvancedHatcher.generateStippling (fun _ => 0%R) 5 full_mask_2x2 1%R 2%R 2%R 2%R 0 with
  | Some (paths, _) =>
      ForallOrdPairs (far_apart (2 / 2)) (map (hd AdvancedHatcher.origin) paths)
  | None => True
  end.
Proof.
  apply (stipple_dots_keep_their_distance (fun _ => 0%R) 5 full_mask_2x2 1%R 2%R 2%R 2%R 0);
    try lra.
  intros i. lra.
Defined.

(* ===================================================================== *)
(** ** Fitted curves form a chain (curve-fitting.ts) *)
(* ===================================================================== *)

Lemma nth_slice {A : Type} (l : list A) (s e k : nat) (d : A) :
  (k < e - s)%nat -> nth k (slice l s e) d = nth (s + k) l d.
Proof.
  intros Hk. unfold slice.
  rewrite nth_firstn. replace (k <? e - s)%nat with true by (symmetry; now apply Nat.ltb_lt).
  apply nth_skipn.
Qed.

Lemma length_slice {A : Type} (l : list A) (s e : nat) :
  (e <= length l)%nat -> length (slice l s e) = (e - s)%nat.
Proof.
  intros He. unfold slice. rewrite length_firstn, length_skipn. lia.
Qed.

Section CurveChain.
Context {N : Type} {HN : Num N}.

Import CurveFitter.

Lemma chained_snoc (from : Point N) (curves : list CurveSegment) (mid to : Point N)
    (c : CurveSegment) :
  chained from curves mid -> seg_start c = mid -> seg_end c = to ->
  chained from (curves ++ [c]) to.
Proof.
  revert from. induction curves as [|c0 curves IH]; intros from Hch Hs He.
  - cbn in *. subst. now split.
  - destruct Hch as [H0 Hch]. split; [exact H0|]. now apply IH.
Qed.

Lemma fitBezierToPoints_ends (segment : list (Point N)) :
  (3 <= length segment)%nat ->
  start (fitBezierToPoints segment) = at_ origin segment 0 /\
  end_ (fitBezierToPoints segment) = at_ origin segment (length segment - 1).
Proof.
  intros Hlen. unfold fitBezierToPoints.
  replace (length segment <? 3)%nat with false by (symmetry; now apply Nat.ltb_ge).
  now split.
Qed.

(** A fit found from [startIndex] starts there, ends at [endIndex], and
    [endIndex] is at least two points further and within the polyline. *)
Lemma findBestCurveFit_ends (points : list (Point N)) (startIndex : nat) (tolerance : N)
    (curve : BezierCurve) (endIndex : nat) :
  findBestCurveFit points startIndex tolerance = Some (curve, endIndex) ->
  start curve = at_ origin points startIndex /\
  end_ curve = at_ origin points endIndex /\
  (startIndex + 2 <= endIndex < length points)%nat.
Proof.
  unfold findBestCurveFit.
  set (lengths := rev (seq 3 (Nat.min (length points - startIndex) 20 - 2))).
  assert (Hge : Forall (fun len => 3 <= len)%nat lengths).
  { apply Forall_forall. intros len Hin. unfold lengths in Hin.
    apply in_rev, in_seq in Hin. lia. }
  induction lengths as [|len rest IH]; [discriminate|].
  inversion Hge as [|? ? Hlen Hrest]; subst.
  destruct (length points <=? startIndex + len - 1)%nat eqn:Hin; [now apply IH|].
  apply Nat.leb_gt in Hin.
  destruct (_ [<=] tolerance); [|now apply IH].
  intros [= <- <-].
  destruct (fitBezierToPoints_ends (slice points startIndex (startIndex + len - 1 + 1)))
    as [Hs He].
  { rewrite length_slice by lia. lia. }
  rewrite Hs, He. unfold at_.
  rewrite length_slice by lia.
  rewrite !nth_slice by lia.
  repeat split; try lia; f_equal; lia.
Qed.

Lemma fitCurves_loop_chain (points : list (Point N)) (tolerance : N) (fuel : nat) :
  forall (i : nat) (curves : list CurveSegment),
    (3 <= length points)%nat ->
    (i <= length points - 1)%nat ->
    (length points - 1 - i <= fuel)%nat ->
    chained (at_ origin points 0) curves (at_ origin points i) ->
    (0 < i -> curves <> []) ->
    exists result,
      fitCurves_loop fuel points tolerance i curves = Some result /\
      result <> [] /\
      (chained (at_ origin points 0) result (at_ origin points (length points - 1)) \/
       chained (at_ origin points 0) result (at_ origin points (length points - 2))).
Proof.
  induction fuel as [|fuel IH]; intros i curves Hn Hi Hfuel Hch Hne.
  - assert (i = length points - 1)%nat as -> by lia.
    cbn [fitCurves_loop]. rewrite Nat.ltb_irrefl.
    exists curves. split; [reflexivity|]. split; [apply Hne; lia | now left].
  - cbn [fitCurves_loop].
    destruct (i <? length points - 1)%nat eqn:Hcont.
    2:{ apply Nat.ltb_ge in Hcont. assert (i = length points - 1)%nat as -> by lia.
        exists curves. split; [reflexivity|]. split; [apply Hne; lia | now left]. }
    apply Nat.ltb_lt in Hcont.
    destruct (findBestCurveFit points i tolerance) as [[curve endIndex]|] eqn:Hfit.
    + destruct (findBestCurveFit_ends _ _ _ _ _ Hfit) as (Hs & He & Hrange).
      apply IH; try lia.
      * eapply chained_snoc; [exact Hch | exact Hs | exact He].
      * intros _ Hnil. now apply app_eq_nil in Hnil as [_ Hnil].
    + destruct (i <? length points - 2)%nat eqn:Hfallback.
      * apply Nat.ltb_lt in Hfallback.
        apply IH; try lia.
        -- eapply chained_snoc; [exact Hch | reflexivity | reflexivity].
        -- intros _ Hnil. now apply app_eq_nil in Hnil as [_ Hnil].
      * apply Nat.ltb_ge in Hfallback.
        assert (i = length points - 2)%nat as -> by lia.
        replace (length points - 2 + 1)%nat with (length points - 1)%nat by lia.
        destruct fuel as [|fuel'].
        -- cbn [fitCurves_loop]. rewrite Nat.ltb_irrefl.
           exists curves. split; [reflexivity|]. split; [apply Hne; lia | now right].
        -- cbn [fitCurves_loop]. rewrite Nat.ltb_irrefl.
           exists curves. split; [reflexivity|]. split; [apply Hne; lia | now right].
Qed.

(** X10.  For a polyline of at least three points [fitCurves] returns, the
    list of curves is not empty, and the curves form a chain: the first
    starts at the first point, each curve starts where the one before
    ends, and the last ends at the last point or at the one before it. *)
Theorem fitCurves_chain :
  forall (points : list (Point N)) (tolerance : N),
    (3 <= length points)%nat ->
    exists curves,
      fitCurves points tolerance = Some curves /\
      curves <> [] /\
      (chained (at_ origin points 0) curves (at_ origin points (length points - 1)) \/
       chained (at_ origin points 0) curves (at_ origin points (length points - 2))).
Proof.
  intros points tolerance Hn. unfold fitCurves.
  replace (length points <? 3)%nat with false by (symmetry; now apply Nat.ltb_ge).
  apply fitCurves_loop_chain; try lia.
  reflexivity.
Qed.
End CurveChain.

Lemma fitCurves_chain_witness :
  exists curves,
    CurveFitter.fitCurves s5_points (dec 1 10) = Some curves /\
    curves <> [] /\
    (chained (at_ CurveFitter.origin s5_points 0) curves
             (at_ CurveFitter.origin s5_points (length s5_points - 1)) \/
     chained (at_ CurveFitter.origin s5_points 0) curves
             (at_ CurveFitter.origin s5_points (length s5_points - 2))).
Proof.
  apply (@fitCurves_chain float FloatNum s5_points (dec 1 10)).
  simpl. lia.
Defined.

(* ===================================================================== *)
(** ** Bezier curves and fitted arcs (curve-fitting.ts) *)
(* ===================================================================== *)







Lemma fold_left_invariant {A B : Type} (P : A -> Prop) (f : A -> B -> A) (l : list B) :
  (forall st b, P st -> P (f st b)) -> forall st, P st -> P (fold_left f l st).
Proof.
  intros Hstep. induction l as [|b l IH]; intros st Hst; cbn [fold_left]; auto.
Qed.

(** X13.  The control points returned by [optimizeControlPoints] fit the
    points at least as well as the control points it was given. *)
Theorem optimizeControlPoints_never_worse :
  forall (points : list (Point R)) (start control1 control2 end_ : Point R),
    (2 <= length points)%nat ->
    let optimized := CurveFitter.optimizeControlPoints points start control1 control2 end_ in
    (CurveFitter.calculateCurveError points
       (CurveFitter.mkBezier start (fst optimized) (snd optimized) end_)
     <= CurveFitter.calculateCurveError points
          (CurveFitter.mkBezier start control1 control2 end_))%R.
Proof.
  intros points s c1 c2 e _. cbv zeta.
  unfold CurveFitter.optimizeControlPoints.
  set (err := fun b1 b2 => CurveFitter.calculateCurveError points (CurveFitter.mkBezier s b1 b2 e)).
  set (P := fun st : Point R * Point R * R =>
              snd st = err (fst (fst st)) (snd (fst st)) /\ (snd st <= err c1 c2)%R).
  match goal with
  | |- context [fold_left ?f ?l ?st] =>
      assert (Hinv : P (fold_left f l st))
  end.
  { apply fold_left_invariant; [|split; [reflexivity | apply Rle_refl]].
    intros st _ Hst.
    apply fold_left_invariant; [|exact Hst].
    intros st1 p1 Hst1.
    apply fold_left_invariant; [|exact Hst1].
    intros [[b1 b2] be] p2 [Heq Hle]. cbn [fst snd] in Heq, Hle.
    cbv beta iota zeta.
    match goal with |- P (if ?c then _ else _) => destruct c eqn:Hlt end.
    - apply real_ltb_true in Hlt. split; cbn [fst snd]; [reflexivity|].
      unfold err in *. lra.
    - split; assumption. }
  match type of Hinv with
  | P ?r => destruct r as [[b1 b2] be]
  end.
  destruct Hinv as [Heq Hle]. cbn [fst snd] in *. unfold err in *. lra.
Qed.

Lemma optimizeControlPoints_never_worse_witness :
  (CurveFitter.calculateCurveError diagonal_edge
     (CurveFitter.mkBezier (rpt 0 0)
        (fst (CurveFitter.optimizeControlPoints diagonal_edge (rpt 0 0) (rpt 1 0) (rpt 1 1)
                                                (rpt 1 1)))
        (snd (CurveFitter.optimizeControlPoints diagonal_edge (rpt 0 0) (rpt 1 0) (rpt 1 1)
                                                (rpt 1 1)))
        (rpt 1 1))
   <= CurveFitter.calculateCurveError diagonal_edge
        (CurveFitter.mkBezier (rpt 0 0) (rpt 1 0) (rpt 1 1) (rpt 1 1)))%R.
Proof.
  apply (optimizeControlPoints_never_worse diagonal_edge (rpt 0 0) (rpt 1 0) (rpt 1 1)
                                           (rpt 1 1)).
  simpl. lia.
Defined.

(* ===================================================================== *)
(** ** Reordering and merging keep the drawing (path-optimization.ts) *)
(* ===================================================================== *)

(** *** [swap2Opt] reverses a segment *)

Lemma swap_at_ends {A : Type} (d : A) (pre : list A) (a : A) (mid : list A) (b : A)
    (post : list A) :
  PathOptimizer.swap_at d (pre ++ a :: mid ++ b :: post)
                        (length pre) (length pre + length mid + 1)
  = pre ++ b :: mid ++ a :: post.
Proof.
  unfold PathOptimizer.swap_at, at_.
  rewrite nth_middle.
  replace (nth (length pre + length mid + 1) (pre ++ a :: mid ++ b :: post) d) with b.
  2:{ replace (pre ++ a :: mid ++ b :: post) with ((pre ++ a :: mid) ++ b :: post)
        by (rewrite <- app_assoc; reflexivity).
      replace (length pre + length mid + 1)%nat with (length (pre ++ a :: mid))
        by (rewrite length_app; simpl; lia).
      now rewrite nth_middle. }
  rewrite <- (Nat.add_0_r (length pre)) at 1.
  rewrite set_at_app. cbn [set_at].
  replace (length pre + length mid + 1)%nat with (length pre + S (length mid))%nat by lia.
  rewrite set_at_app. cbn [set_at]. f_equal. f_equal.
  rewrite <- (Nat.add_0_r (length mid)).
  rewrite set_at_app. reflexivity.
Qed.

Lemma two_ends {A : Type} (mid : list A) :
  (2 <= length mid)%nat -> exists a mid' b, mid = a :: mid' ++ [b].
Proof.
  intros Hlen. destruct mid as [|a mid]; [simpl in Hlen; lia|].
  destruct (exists_last (l := mid)) as (mid' & b & ->).
  - intros ->. simpl in Hlen. lia.
  - now exists a, mid', b.
Qed.

Lemma swap2Opt_loop_rev {A : Type} (d : A) (fuel : nat) :
  forall (mid pre post : list nat),
    (length mid <= 2 * fuel)%nat ->
    PathOptimizer.swap2Opt_loop fuel (pre ++ mid ++ post)
                                (length pre) (length pre + length mid - 1)
    = pre ++ rev mid ++ post.
Proof.
  induction fuel as [|fuel IH]; intros mid pre post Hfuel.
  - destruct mid; [reflexivity | simpl in Hfuel; lia].
  - cbn [PathOptimizer.swap2Opt_loop].
    destruct (length pre <? length pre + length mid - 1)%nat eqn:Hlt.
    + apply Nat.ltb_lt in Hlt.
      destruct (two_ends mid) as (a & mid' & b & ->); [lia|].
      assert (Hmid : length (a :: mid' ++ [b]) = S (S (length mid')))
        by (simpl; rewrite length_app; simpl; lia).
      rewrite Hmid in *.
      replace (length pre + S (S (length mid')) - 1)%nat
        with (length pre + length mid' + 1)%nat by lia.
      replace (pre ++ (a :: mid' ++ [b]) ++ post) with (pre ++ a :: mid' ++ b :: post)
        by (cbn [app]; now rewrite <- app_assoc).
      rewrite swap_at_ends.
      replace (pre ++ b :: mid' ++ a :: post) with ((pre ++ [b]) ++ mid' ++ (a :: post))
        by (now rewrite <- app_assoc).
      replace (length pre + 1)%nat with (length (pre ++ [b]))
        by (rewrite length_app; simpl; lia).
      replace (length pre + length mid' + 1 - 1)%nat
        with (length (pre ++ [b]) + length mid' - 1)%nat
        by (rewrite length_app; simpl; lia).
      rewrite IH by lia.
      cbn [rev]. rewrite rev_app_distr. cbn [rev app].
      rewrite <- !app_assoc. reflexivity.
    + apply Nat.ltb_ge in Hlt.
      destruct mid as [|a [|b mid]]; try reflexivity.
      simpl in Hlt. lia.
Qed.

(** X14.  [swap2Opt(order, i, j)] reverses the entries [i .. j] of the order
    and leaves the others in place. *)
Theorem swap2Opt_reverses :
  forall (pre mid post : list nat),
    PathOptimizer.swap2Opt (pre ++ mid ++ post)
                           (length pre) (length pre + length mid - 1)
    = pre ++ rev mid ++ post.
Proof.
  intros pre mid post. unfold PathOptimizer.swap2Opt.
  apply (swap2Opt_loop_rev 0%nat). lia.
Qed.

Lemma segment_split {A : Type} (l : list A) (i j : nat) :
  (i <= j < length l)%nat ->
  exists pre mid post,
    l = pre ++ mid ++ post /\ length pre = i /\ (length pre + length mid - 1 = j)%nat.
Proof.
  intros Hij.
  exists (firstn i l), (firstn (j + 1 - i) (skipn i l)), (skipn (j + 1 - i) (skipn i l)).
  split; [now rewrite firstn_skipn, firstn_skipn|].
  rewrite !length_firstn, length_skipn. lia.
Qed.

Lemma swap2Opt_permutation (order : list nat) (i j : nat) :
  (i <= j < length order)%nat -> Permutation (PathOptimizer.swap2Opt order i j) order.
Proof.
  intros Hij.
  destruct (segment_split order i j Hij) as (pre & mid & post & -> & <- & <-).
  unfold PathOptimizer.swap2Opt. rewrite (swap2Opt_loop_rev 0%nat) by lia.
  apply Permutation_app_head, Permutation_app_tail. symmetry. apply Permutation_rev.
Qed.

(** *** The optimizer only reorders *)

Section Reorder.
Context {N : Type} {HN : Num N}.

Import PathOptimizer.

Lemma try2Opt_order (paths : list (Path N)) (n i : nat) (st : list nat * N * bool) (j : nat) :
  (i <= j < n)%nat ->
  Permutation (fst (fst st)) (seq 0 n) ->
  Permutation (fst (fst (try2Opt paths i st j))) (seq 0 n).
Proof.
  destruct st as [[order best] improved]. cbn [fst]. intros Hij Hperm.
  unfold try2Opt.
  destruct (Nat.eqb (j - i) 1); [exact Hperm|].
  destruct (_ [<] best); [|exact Hperm]. cbn [fst].
  eapply Permutation_trans; [|exact Hperm].
  apply swap2Opt_permutation.
  rewrite (Permutation_length Hperm), length_seq. exact Hij.
Qed.

Lemma apply2Opt_pass_order (paths : list (Path N)) (n : nat) (st : list nat * N) :
  Permutation (fst st) (seq 0 n) ->
  Permutation (fst (fst (apply2Opt_pass paths st))) (seq 0 n).
Proof.
  intros Hst. unfold apply2Opt_pass.
  rewrite (Permutation_length Hst), length_seq.
  assert (Hinner : forall i js s,
             Forall (fun j => i <= j < n)%nat js ->
             Permutation (fst (fst s)) (seq 0 n) ->
             Permutation (fst (fst (fold_left (try2Opt paths i) js s))) (seq 0 n)).
  { intros i js. induction js as [|j js IH]; intros s Hjs Hs; cbn [fold_left]; [exact Hs|].
    inversion Hjs; subst. apply IH; [assumption|]. now apply try2Opt_order. }
  assert (Houter : forall is_ s,
             Permutation (fst (fst s)) (seq 0 n) ->
             Permutation
               (fst (fst (fold_left
                            (fun st1 i =>
                               fold_left (try2Opt paths i) (seq (i + 1) (n - (i + 1))) st1)
                            is_ s))) (seq 0 n)).
  { induction is_ as [|i is_ IH]; intros s Hs; cbn [fold_left]; [exact Hs|].
    apply IH. apply Hinner; [|exact Hs].
    apply Forall_forall. intros j Hj. apply in_seq in Hj. lia. }
  now apply Houter.
Qed.

Lemma apply2Opt_loop_order (paths : list (Path N)) (n iterations : nat) :
  forall st, Permutation (fst st) (seq 0 n) ->
             Permutation (fst (apply2Opt_loop iterations paths st)) (seq 0 n).
Proof.
  induction iterations as [|k IH]; intros st Hst; cbn [apply2Opt_loop]; [exact Hst|].
  pose proof (apply2Opt_pass_order paths n st Hst) as Hpass.
  destruct (apply2Opt_pass paths st) as [st' improved]. cbn [fst] in Hpass.
  destruct improved; [now apply IH | exact Hpass].
Qed.

Lemma apply2Opt_permutation (paths : list (Path N)) (maxIterations : nat) :
  Permutation (apply2Opt paths maxIterations) paths.
Proof.
  unfold apply2Opt. destruct (length paths <? 4)%nat; [apply Permutation_refl|].
  pose proof (apply2Opt_loop_order paths (length paths) maxIterations
                (seq 0 (length paths), calculatePathOrderDistance paths (seq 0 (length paths)))
                (Permutation_refl _)) as Hloop.
  destruct (apply2Opt_loop _ _ _) as [finalOrder best]. cbn [fst] in Hloop.
  eapply Permutation_trans; [apply Permutation_map; exact Hloop|].
  rewrite map_at_seq. apply Permutation_refl.
Qed.

Lemma greedy_step_order (st : list (Path N) * bool) (i : nat) :
  (i + 1 < length (fst st))%nat ->
  (fst (greedy_step st i) = fst st /\ snd (greedy_step st i) = snd st) \/
  (Permutation (fst (greedy_step st i)) (fst st) /\ snd (greedy_step st i) = true).
Proof.
  destruct st as [l made]. cbn [fst snd]. intros Hi.
  destruct (split_adjacent l i Hi) as (pre & a & b & post & -> & <-).
  unfold greedy_step. rewrite swap_at_adjacent.
  destruct (_ [<] _); cbn [fst snd].
  - right. split; [|reflexivity]. apply Permutation_app_head, perm_swap.
  - left. rewrite swap_at_adjacent. now split.
Qed.

(** A round of swaps returns a reordering; if it reports no improvement it
    returns the very list it was given. *)
Lemma greedy_pass_order (l : list (Path N)) :
  Permutation (fst (greedy_pass l)) l /\
  (snd (greedy_pass l) = false -> fst (greedy_pass l) = l).
Proof.
  unfold greedy_pass.
  assert (Hfold : forall is_ st,
             Forall (fun i => i + 1 < length l)%nat is_ ->
             Permutation (fst st) l ->
             (snd st = false -> fst st = l) ->
             Permutation (fst (fold_left greedy_step is_ st)) l /\
             (snd (fold_left greedy_step is_ st) = false ->
              fst (fold_left greedy_step is_ st) = l)).
  { induction is_ as [|i is_ IH]; intros st His Hperm Hsame; cbn [fold_left];
      [now split|].
    inversion His as [|? ? Hi His']; subst.
    destruct (greedy_step_order st i) as [[Hf Hs] | [Hp Hs]].
    - rewrite (Permutation_length Hperm). exact Hi.
    - apply IH; [exact His' | now rewrite Hf | rewrite Hf, Hs; exact Hsame].
    - apply IH; [exact His' | eapply Permutation_trans; eassumption |].
      rewrite Hs. discriminate. }
  apply Hfold.
  - apply Forall_forall. intros i Hi. apply in_seq in Hi. lia.
  - apply Permutation_refl.
  - reflexivity.
Qed.

Lemma greedy_loop_order (fuel : nat) :
  forall l r, greedy_loop fuel l = Some r ->
              Permutation r l /\ greedy_pass r = (r, false).
Proof.
  induction fuel as [|fuel IH]; intros l r Hr; [discriminate|].
  cbn [greedy_loop] in Hr.
  pose proof (greedy_pass_order l) as [Hperm Hsame].
  destruct (greedy_pass l) as [l' made] eqn:Hpass. cbn [fst snd] in *.
  destruct made.
  - destruct (IH _ _ Hr) as [Hperm' Hfix].
    split; [eapply Permutation_trans; eassumption | exact Hfix].
  - injection Hr as <-. split; [exact Hperm|].
    rewrite (Hsame eq_refl). exact (eq_trans Hpass (f_equal (fun t => (t, false)) (Hsame eq_refl))).
Qed.

Lemma greedyImprovement_order (fuel : nat) (l r : list (Path N)) :
  greedyImprovement fuel l = Some r -> Permutation r l.
Proof.
  unfold greedyImprovement.
  destruct (length l <=? 2)%nat.
  - intros [= <-]. apply Permutation_refl.
  - intros Hloop. now apply greedy_loop_order in Hloop as [Hperm _].
Qed.

(** X15.  The result of [greedyImprovement] holds the same paths as its
    input, and running [greedyImprovement] on it again returns it
    unchanged. *)
Theorem greedyImprovement_fixed_point :
  forall (fuel : nat) (paths result : list (Path N)),
    greedyImprovement fuel paths = Some result ->
    Permutation result paths /\
    forall fuel', greedyImprovement (S fuel') result = Some result.
Proof.
  intros fuel paths result. unfold greedyImprovement.
  destruct (length paths <=? 2)%nat eqn:Hshort.
  - intros [= <-]. split; [apply Permutation_refl|]. intros fuel'. now rewrite Hshort.
  - intros Hloop. apply greedy_loop_order in Hloop as [Hperm Hfix].
    split; [exact Hperm|]. intros fuel'.
    destruct (length result <=? 2)%nat; [reflexivity|].
    cbn [greedy_loop]. now rewrite Hfix.
Qed.

(** X16.  With merging off [optimizePaths] only reorders: the paths of the
    result are a permutation of the input paths, and [totalDistance] is
    the travel distance of the paths returned. *)
Theorem optimizePaths_reorders :
  forall (fuel : nat) (paths0 : list (Path N)) (options : Options) (result : OptimizationResult),
    enablePathMerging options = Some false ->
    optimizePaths fuel paths0 options = Some result ->
    Permutation (paths result) paths0 /\
    totalDistance result = calculateTotalTravelDistance (paths result).
Proof.
  intros fuel paths0 options result Hmerge. unfold optimizePaths.
  rewrite Hmerge. cbn [orDefault].
  destruct (Nat.eqb (length paths0) 0) eqn:Hempty.
  - intros [= <-]. cbn [paths totalDistance].
    destruct paths0; [split; [apply Permutation_refl | reflexivity] | discriminate].
  - set (optimized2 := if _ && _ then _ else _).
    assert (H2 : Permutation optimized2 paths0).
    { unfold optimized2. destruct (_ && _); [apply apply2Opt_permutation|].
      apply Permutation_refl. }
    destruct (greedyImprovement fuel optimized2) as [optimized3|] eqn:Hgreedy;
      [|discriminate].
    intros [= <-]. cbn [paths totalDistance].
    apply greedyImprovement_order in Hgreedy.
    split; [eapply Permutation_trans; eassumption | reflexivity].
Qed.
End Reorder.

Lemma greedyImprovement_fixed_point_witness :
  exists result,
    PathOptimizer.greedyImprovement 10 three_paths_float = Some result /\
    Permutation result three_paths_float /\
    forall fuel', PathOptimizer.greedyImprovement (S fuel') result = Some result.
Proof.
  destruct (PathOptimizer.greedyImprovement 10 three_paths_float) as [result|] eqn:E;
    [|vm_compute in E; discriminate].
  exists result. split; [reflexivity|].
  exact (greedyImprovement_fixed_point 10 three_paths_float result E).
Defined.

Lemma optimizePaths_reorders_witness :
  exists result,
    PathOptimizer.optimizePaths 10 three_paths_float merging_off_float = Some result /\
    Permutation (PathOptimizer.paths result) three_paths_float /\
    PathOptimizer.totalDistance result
    = PathOptimizer.calculateTotalTravelDistance (PathOptimizer.paths result).
Proof.
  destruct (PathOptimizer.optimizePaths 10 three_paths_float merging_off_float)
    as [result|] eqn:E; [|vm_compute in E; discriminate].
  exists result. split; [reflexivity|].
  exact (optimizePaths_reorders 10 three_paths_float merging_off_float result eq_refl E).
Defined.

Lemma fold_pick_in {A : Type} (pick : A -> A -> A) (l : list A) (a : A) :
  (forall u v, pick u v = u \/ pick u v = v) ->
  In (fold_left pick l a) (a :: l).
Proof.
  intros Hpick. revert a. induction l as [|b l IH]; intros a; cbn [fold_left];
    [now left|].
  destruct (IH (pick a b)) as [Heq | Hin]; [|right; now right].
  rewrite <- Heq. destruct (Hpick a b) as [-> | ->]; [now left | right; now left].
Qed.

Lemma flat_map_permutation {A B : Type} (f : A -> list B) (l l' : list A) :
  Permutation l l' -> Permutation (flat_map f l) (flat_map f l').
Proof.
  induction 1 as [| a l l' _ IH | a b l | l l' l'' _ IH1 _ IH2]; cbn [flat_map].
  - constructor.
  - now apply Permutation_app_head.
  - rewrite !app_assoc. apply Permutation_app_tail, Permutation_app_comm.
  - eapply Permutation_trans; eassumption.
Qed.

Section Merge.
Context {N : Type} {HN : Num N}.

Import PathOptimizer.

Lemma has_false (used : list nat) (i : nat) : has used i = false -> ~ In i used.
Proof.
  unfold has. intros Hhas Hin.
  assert (existsb (Nat.eqb i) used = true)
    by (apply existsb_exists; exists i; split; [exact Hin | apply Nat.eqb_refl]).
  congruence.
Qed.

Lemma has_true (used : list nat) (i : nat) : has used i = true -> In i used.
Proof.
  unfold has. intros Hhas. apply existsb_exists in Hhas as (j & Hj & Heq).
  apply Nat.eqb_eq in Heq. now subst.
Qed.

(** A merge of two paths holds the points of both. *)
Lemma tryMergePaths_points (path1 path2 : Path N) (threshold : N) (merged : Path N) :
  tryMergePaths path1 path2 threshold = Some merged ->
  Permutation merged (path1 ++ path2).
Proof.
  unfold tryMergePaths.
  destruct (_ || _); [discriminate|].
  set (best := reduce1 _ _ _).
  assert (Hbest : In best (connections path1 path2)).
  { unfold best, connections, reduce1.
    apply fold_pick_in. intros u v. destruct (_ [<] _); [now right | now left]. }
  destruct (_ [<=] threshold); [|discriminate]. intros [= <-].
  unfold connections in Hbest.
  destruct Hbest as [<- | [<- | [<- | [<- | []]]]]; cbn [snd].
  - apply Permutation_refl.
  - apply Permutation_app_head. symmetry. apply Permutation_rev.
  - apply Permutation_app_tail. symmetry. apply Permutation_rev.
  - apply Permutation_app; symmetry; apply Permutation_rev.
Qed.

Lemma scan_merge_found (paths : list (Path N)) (threshold : N) (used : list nat)
    (currentPath : Path N) (js : list nat) (mergeResult : Path N) (j : nat) :
  scan_merge paths threshold used currentPath js = Some (mergeResult, j) ->
  In j js /\ ~ In j used /\
  Permutation mergeResult (currentPath ++ at_ [] paths j).
Proof.
  induction js as [|j0 js IH]; cbn [scan_merge]; [discriminate|].
  destruct (has used j0) eqn:Hused.
  - intros H. destruct (IH H) as (Hin & Hnot & Hperm). repeat split; auto. now right.
  - destruct (tryMergePaths currentPath (at_ [] paths j0) threshold) as [m|] eqn:Hmerge.
    + intros [= <- <-]. repeat split; [now left | now apply has_false |].
      now apply tryMergePaths_points in Hmerge.
    + intros H. destruct (IH H) as (Hin & Hnot & Hperm). repeat split; auto. now right.
Qed.

Lemma merge_loop_state (paths : list (Path N)) (threshold : N) (base : Path N)
    (fuel : nat) :
  forall (used : list nat) (currentPath : Path N),
    merge_state paths (base ++ currentPath) used ->
    merge_state paths
      (base ++ fst (merge_loop fuel paths threshold used currentPath))
      (snd (merge_loop fuel paths threshold used currentPath)) /\
    incl used (snd (merge_loop fuel paths threshold used currentPath)).
Proof.
  induction fuel as [|fuel IH]; intros used currentPath Hst; cbn [merge_loop].
  - split; [exact Hst | apply incl_refl].
  - destruct (scan_merge _ _ _ _ _) as [[mergeResult j]|] eqn:Hscan.
    + apply scan_merge_found in Hscan as (Hin & Hnot & Hperm).
      destruct Hst as (Hnd & Hrange & Hpoints).
      destruct (IH (j :: used) mergeResult) as [Hst' Hincl].
      * split; [now constructor|]. split.
        -- intros j' [<- | Hj']; [apply in_seq in Hin; lia | now apply Hrange].
        -- cbn [flat_map].
           eapply Permutation_trans;
             [apply Permutation_app_head; exact Hperm|].
           rewrite app_assoc.
           eapply Permutation_trans; [apply Permutation_app_comm|].
           now apply Permutation_app_head.
      * split; [exact Hst'|]. intros j' Hj'. apply Hincl. now right.
    + split; [exact Hst | apply incl_refl].
Qed.

Lemma merge_step_state (paths : list (Path N)) (threshold : N)
    (st : list (Path N) * list nat) (i : nat) :
  (i < length paths)%nat ->
  merge_state paths (concat (fst st)) (snd st) ->
  merge_state paths (concat (fst (merge_step paths threshold st i)))
              (snd (merge_step paths threshold st i)) /\
  incl (i :: snd st) (snd (merge_step paths threshold st i)).
Proof.
  destruct st as [merged used]. cbn [fst snd]. intros Hi Hst.
  unfold merge_step.
  destruct (has used i) eqn:Hused.
  - cbn [fst snd]. split; [exact Hst|].
    intros j [<- | Hj]; [now apply has_true | exact Hj].
  - destruct Hst as (Hnd & Hrange & Hpoints).
    destruct (merge_loop_state paths threshold (concat merged) (length paths)
                (i :: used) (at_ [] paths i)) as [Hst' Hincl].
    { split; [constructor; [now apply has_false | exact Hnd]|]. split.
      - intros j [<- | Hj]; [exact Hi | now apply Hrange].
      - cbn [flat_map].
        eapply Permutation_trans; [apply Permutation_app_comm|].
        now apply Permutation_app_head. }
    destruct (merge_loop _ _ _ _ _) as [currentPath used']. cbn [fst snd] in *.
    destruct (0 <? length currentPath)%nat eqn:Hlen; cbn [fst snd].
    + split; [|exact Hincl].
      rewrite concat_app. cbn [concat]. now rewrite app_nil_r.
    + split; [|exact Hincl].
      destruct currentPath; [|discriminate]. now rewrite app_nil_r in Hst'.
Qed.

Lemma mergePaths_concat (paths : list (Path N)) (threshold : N) :
  Permutation (concat (mergePaths paths threshold)) (concat paths).
Proof.
  unfold mergePaths.
  destruct (length paths <=? 1)%nat; [apply Permutation_refl|].
  assert (Hfold : forall is_ st,
             Forall (fun i => i < length paths)%nat is_ ->
             merge_state paths (concat (fst st)) (snd st) ->
             merge_state paths
               (concat (fst (fold_left (merge_step paths threshold) is_ st)))
               (snd (fold_left (merge_step paths threshold) is_ st)) /\
             incl (is_ ++ snd st) (snd (fold_left (merge_step paths threshold) is_ st))).
  { induction is_ as [|i is_ IH]; intros st His Hst; cbn [fold_left].
    - split; [exact Hst | apply incl_refl].
    - inversion His as [|? ? Hi His']; subst.
      destruct (merge_step_state paths threshold st i Hi Hst) as [Hst' Hincl].
      destruct (IH _ His' Hst') as [Hst'' Hincl'].
      split; [exact Hst''|].
      intros j Hj. apply Hincl'. apply in_or_app.
      cbn [app] in Hj. destruct Hj as [<- | Hj].
      + right. apply Hincl. now left.
      + apply in_app_or in Hj as [Hj | Hj]; [now left|].
        right. apply Hincl. now right. }
  destruct (Hfold (seq 0 (length paths)) ([], [])) as [(Hnd & Hrange & Hpoints) Hincl].
  - apply Forall_forall. intros i Hi. apply in_seq in Hi. lia.
  - split; [constructor|]. split; [intros j [] | constructor].
  - eapply Permutation_trans; [exact Hpoints|].
    apply Permutation_trans
      with (flat_map (fun j => at_ [] paths j) (seq 0 (length paths))).
    + apply flat_map_permutation.
      apply NoDup_Permutation; [exact Hnd | apply seq_NoDup|].
      intros j. split.
      * intros Hj. apply in_seq. specialize (Hrange j Hj). lia.
      * intros Hj. apply Hincl. apply in_or_app. now left.
    + rewrite flat_map_concat_map, map_at_seq. apply Permutation_refl.
Qed.

Lemma concat_permutation {A : Type} (l l' : list (list A)) :
  Permutation l l' -> Permutation (concat l) (concat l').
Proof.
  induction 1 as [| a l l' _ IH | a b l | l l' l'' _ IH1 _ IH2]; cbn [concat].
  - constructor.
  - now apply Permutation_app_head.
  - rewrite !app_assoc. apply Permutation_app_tail, Permutation_app_comm.
  - eapply Permutation_trans; eassumption.
Qed.

(** X17.  Whatever the options, the points of the paths returned by
    [optimizePaths] are the points of the input paths: merging, 2-opt and
    the greedy pass neither lose nor invent a point. *)
Theorem optimizePaths_keeps_points :
  forall (fuel : nat) (paths0 : list (Path N)) (options : Options) (result : OptimizationResult),
    optimizePaths fuel paths0 options = Some result ->
    Permutation (concat (paths result)) (concat paths0).
Proof.
  intros fuel paths0 options result. unfold optimizePaths.
  destruct (Nat.eqb (length paths0) 0) eqn:Hempty.
  - intros [= <-]. cbn [paths].
    destruct paths0; [apply Permutation_refl | discriminate].
  - set (optimized1 := if orDefault (enablePathMerging options) true then _ else _).
    set (optimized2 := if _ && _ then _ else _).
    assert (H1 : Permutation (concat optimized1) (concat paths0)).
    { unfold optimized1. destruct (orDefault _ _); [apply mergePaths_concat|].
      apply Permutation_refl. }
    assert (H2 : Permutation optimized2 optimized1).
    { unfold optimized2. destruct (_ && _); [apply apply2Opt_permutation|].
      apply Permutation_refl. }
    destruct (greedyImprovement fuel optimized2) as [optimized3|] eqn:Hgreedy;
      [|discriminate].
    intros [= <-]. cbn [paths].
    apply greedyImprovement_order in Hgreedy.
    eapply Permutation_trans; [|exact H1].
    apply concat_permutation. eapply Permutation_trans; eassumption.
Qed.
End Merge.

Lemma optimizePaths_keeps_points_witness :
  exists result,
    PathOptimizer.optimizePaths 10 s2_paths default_options = Some result /\
    Permutation (concat (PathOptimizer.paths result)) (concat s2_paths).
Proof.
  destruct (PathOptimizer.optimizePaths 10 s2_paths default_options) as [result|] eqn:E;
    [|vm_compute in E; discriminate].
  exists result. split; [reflexivity|].
  exact (optimizePaths_keeps_points 10 s2_paths default_options result E).
Defined.

(* ===================================================================== *)
(** ** Simplification: kept points and degenerate polylines (vectorization-engine.ts) *)
(* ===================================================================== *)

Section KeptPoints.
Context {N : Type} {HN : Num N}.

Import VectorizationEngine.

(** The scan leaves [maxIndex] at 0 or at an interior index. *)
Lemma farthest_index (points : list (Point N)) :
  snd (farthest points) = 0%nat \/
  (1 <= snd (farthest points) < length points - 1)%nat.
Proof.
  unfold farthest. cbv zeta.
  set (end0 := (length points - 1)%nat).
  assert (Hfold : forall l (st : N * nat),
             Forall (fun i => 1 <= i < end0)%nat l ->
             (snd st = 0%nat \/ (1 <= snd st < end0)%nat) ->
             let r :=
               fold_left
                 (fun (st : N * nat) i =>
                    if perpendicularDistance (at_ origin points i) (at_ origin points 0)
                                             (at_ origin points end0)
                       [>] fst st
                    then (perpendicularDistance (at_ origin points i) (at_ origin points 0)
                                                (at_ origin points end0), i)
                    else st)
                 l st in
             snd r = 0%nat \/ (1 <= snd r < end0)%nat).
  { induction l as [|i l IH]; intros st Hl Hst; cbn [fold_left]; [exact Hst|].
    inversion Hl as [|? ? Hi Hl']; subst.
    apply IH; [exact Hl'|].
    destruct (_ [>] fst st); [right; exact Hi | exact Hst]. }
  apply Hfold; [|now left].
  apply Forall_forall. intros i Hi. apply in_seq in Hi. lia.
Qed.

Lemma interior_split {A : Type} (X : list A) (idx : nat) :
  (1 <= idx <= length X)%nat ->
  exists X1 c X2, X = X1 ++ c :: X2 /\ length X1 = (idx - 1)%nat.
Proof.
  intros Hidx.
  pose proof (firstn_skipn (idx - 1) X) as Hsplit.
  pose proof (length_skipn (idx - 1) X) as Hrest.
  destruct (skipn (idx - 1) X) as [|c X2]; [simpl in Hrest; lia|].
  exists (firstn (idx - 1) X), c, X2. split; [now symmetry|].
  rewrite length_firstn. lia.
Qed.

Lemma slice_to_split (a : Point N) (X1 : list (Point N)) (c : Point N)
    (X2 : list (Point N)) (b : Point N) :
  slice (a :: (X1 ++ c :: X2) ++ [b]) 0 (S (length X1) + 1) = a :: X1 ++ [c].
Proof.
  unfold slice. cbn [skipn]. rewrite Nat.sub_0_r.
  replace (S (length X1) + 1)%nat with (S (length (X1 ++ [c])))
    by (rewrite length_app; simpl; lia).
  cbn [firstn]. f_equal.
  replace ((X1 ++ c :: X2) ++ [b]) with ((X1 ++ [c]) ++ X2 ++ [b])
    by (rewrite <- !app_assoc; reflexivity).
  rewrite firstn_app, Nat.sub_diag, firstn_all. cbn [firstn]. now rewrite app_nil_r.
Qed.

Lemma skipn_from_split (a : Point N) (X1 : list (Point N)) (c : Point N)
    (X2 : list (Point N)) (b : Point N) :
  skipn (S (length X1)) (a :: (X1 ++ c :: X2) ++ [b]) = c :: X2 ++ [b].
Proof.
  cbn [skipn]. rewrite <- app_assoc. rewrite skipn_app, Nat.sub_diag, skipn_all.
  reflexivity.
Qed.

(** X18.  Whenever [douglasPeucker] returns, the result starts with the first
    point of the polyline, ends with its last point, and holds only
    interior points of the polyline in between, in any number type. *)
Theorem douglasPeucker_keeps_ends :
  forall (fuel : nat) (a : Point N) (X : list (Point N)) (b : Point N) (epsilon : N)
         (q : list (Point N)),
    douglasPeucker fuel (a :: X ++ [b]) epsilon = Some q ->
    exists Q, q = a :: Q ++ [b] /\ incl Q X.
Proof.
  induction fuel as [|fuel IH]; intros a X b epsilon q Hq; cbn [douglasPeucker] in Hq.
  - destruct (length (a :: X ++ [b]) <=? 2)%nat; [|discriminate].
    injection Hq as <-. exists X. split; [reflexivity | apply incl_refl].
  - destruct (length (a :: X ++ [b]) <=? 2)%nat eqn:Hshort.
    { injection Hq as <-. exists X. split; [reflexivity | apply incl_refl]. }
    apply Nat.leb_gt in Hshort.
    assert (Hlen : length (a :: X ++ [b]) = S (S (length X)))
      by (simpl; rewrite length_app; simpl; lia).
    pose proof (farthest_index (a :: X ++ [b])) as Hidx. rewrite Hlen in Hidx.
    destruct (farthest (a :: X ++ [b])) as [maxDistance maxIndex]. cbn [snd] in Hidx.
    destruct (maxDistance [>] epsilon).
    + destruct Hidx as [-> | Hidx].
      * cbn [Nat.add skipn] in Hq.
        destruct (douglasPeucker fuel (slice (a :: X ++ [b]) 0 1) epsilon) as [leftPart|] eqn:Hl;
          [|discriminate].
        destruct (douglasPeucker fuel (a :: X ++ [b]) epsilon) as [rightPart|] eqn:Hr;
          [|discriminate].
        injection Hq as <-.
        assert (HleftPart : leftPart = [a]).
        { unfold slice in Hl. cbn [Nat.sub skipn firstn] in Hl.
          destruct fuel; cbn [douglasPeucker length Nat.leb] in Hl; congruence. }
        rewrite HleftPart. cbn [removelast app]. now apply IH in Hr.
      * destruct (interior_split X maxIndex) as (X1 & c & X2 & -> & HX1); [simpl in *; lia|].
        assert (Hmax : maxIndex = S (length X1)) by lia.
        clear HX1 Hidx. subst maxIndex.
        rewrite slice_to_split, skipn_from_split in Hq.
        destruct (douglasPeucker fuel (a :: X1 ++ [c]) epsilon) as [leftPart|] eqn:Hl;
          [|discriminate].
        destruct (douglasPeucker fuel (c :: X2 ++ [b]) epsilon) as [rightPart|] eqn:Hr;
          [|discriminate].
        injection Hq as <-.
        apply IH in Hl as (Q1 & -> & HQ1). apply IH in Hr as (Q2 & -> & HQ2).
        exists (Q1 ++ c :: Q2). split.
        -- change (a :: Q1 ++ [c]) with ((a :: Q1) ++ [c]).
           rewrite removelast_last. cbn [app]. now rewrite <- app_assoc.
        -- intros p Hp. apply in_app_or in Hp as [Hp | [<- | Hp]]; apply in_or_app.
           ++ left. now apply HQ1.
           ++ right. now left.
           ++ right. right. now apply HQ2.
    + injection Hq as <-. exists []. split; [|apply incl_nil_l].
      cbn [app]. f_equal. f_equal.
      replace (length (X ++ [b]) - 0)%nat with (S (length X))
        by (rewrite length_app; simpl; lia).
      apply nth_middle.
Qed.

End KeptPoints.

Lemma douglasPeucker_keeps_ends_witness :
  exists q,
    VectorizationEngine.douglasPeucker 10 (fpt 0 0 :: [fpt 1 1; fpt 2 0; fpt 3 (-1)] ++ [fpt 4 0])
                                       (dec 1 10)
    = Some q /\
    exists Q, q = fpt 0 0 :: Q ++ [fpt 4 0] /\ incl Q [fpt 1 1; fpt 2 0; fpt 3 (-1)].
Proof.
  destruct (VectorizationEngine.douglasPeucker 10
              (fpt 0 0 :: [fpt 1 1; fpt 2 0; fpt 3 (-1)] ++ [fpt 4 0]) (dec 1 10))
    as [q|] eqn:E; [|vm_compute in E; discriminate].
  exists q. split; [reflexivity|].
  exact (douglasPeucker_keeps_ends 10 (fpt 0 0) [fpt 1 1; fpt 2 0; fpt 3 (-1)] (fpt 4 0)
           (dec 1 10) q E).
Defined.

Section FlatPolylines.
Context {N : Type} {HN : Num N}.

Import VectorizationEngine.

Lemma farthest_flat (points : list (Point N)) :
  nothing_off_chord points -> farthest points = (ofZ 0, 0%nat).
Proof.
  intros Hflat. unfold farthest. cbv zeta.
  assert (Hfold : forall l,
             (forall i, In i l -> (1 <= i < length points - 1)%nat) ->
             fold_left
               (fun (st : N * nat) i =>
                  if perpendicularDistance (at_ origin points i) (at_ origin points 0)
                                           (at_ origin points (length points - 1))
                     [>] fst st
                  then (perpendicularDistance (at_ origin points i) (at_ origin points 0)
                                              (at_ origin points (length points - 1)), i)
                  else st)
               l (ofZ 0, 0%nat)
             = (ofZ 0, 0%nat)).
  { induction l as [|i l IH]; intros Hl; cbn [fold_left]; [reflexivity|].
    cbn [fst]. rewrite (Hflat i (Hl i (or_introl eq_refl))).
    apply IH. intros j Hj. apply Hl. now right. }
  apply Hfold. intros i Hi. apply in_seq in Hi. lia.
Qed.

(** X19.  When no interior point passes the test [distance > maxDistance]
    against 0 - as on a closed polyline in binary64, where the distance to
    the chord of length 0 is NaN - and the tolerance is not negative,
    [douglasPeucker] returns just the two end points. *)
Theorem douglasPeucker_flat_polyline :
  forall (fuel : nat) (points : list (Point N)) (epsilon : N),
    (3 <= length points)%nat ->
    nothing_off_chord points ->
    (ofZ 0 [>] epsilon) = false ->
    douglasPeucker (S fuel) points epsilon
    = Some [at_ origin points 0; at_ origin points (length points - 1)].
Proof.
  intros fuel points epsilon Hlen Hflat Heps.
  cbn [douglasPeucker].
  replace (length points <=? 2)%nat with false by (symmetry; apply Nat.leb_gt; lia).
  rewrite (farthest_flat points Hflat). now rewrite Heps.
Qed.

(** X20.  With a negative tolerance [douglasPeucker] never returns on a
    polyline of three or more points none of which is off the chord: it
    splits at index 0 and recurses on the whole polyline again. *)
Theorem douglasPeucker_negative_tolerance :
  forall (points : list (Point N)) (epsilon : N),
    (3 <= length points)%nat ->
    nothing_off_chord points ->
    (ofZ 0 [>] epsilon) = true ->
    forall fuel, douglasPeucker fuel points epsilon = None.
Proof.
  intros points epsilon Hlen Hflat Heps fuel.
  induction fuel as [|fuel IH]; cbn [douglasPeucker];
    replace (length points <=? 2)%nat with false by (symmetry; apply Nat.leb_gt; lia);
    [reflexivity|].
  rewrite (farthest_flat points Hflat), Heps.
  cbn [Nat.add skipn]. rewrite IH.
  now destruct (douglasPeucker fuel (slice points 0 1) epsilon).
Qed.

End FlatPolylines.

Lemma douglasPeucker_flat_polyline_witness :
  VectorizationEngine.douglasPeucker 1 closed_square (ofZ 2)
  = Some [at_ VectorizationEngine.origin closed_square 0;
          at_ VectorizationEngine.origin closed_square (length closed_square - 1)].
Proof.
  apply (@douglasPeucker_flat_polyline float FloatNum 0 closed_square (ofZ 2)).
  - simpl. lia.
  - intros i Hi. simpl in Hi.
    destruct i as [|[|[|[|i]]]]; try lia; vm_compute; reflexivity.
  - vm_compute. reflexivity.
Defined.

Lemma douglasPeucker_negative_tolerance_witness :
  VectorizationEngine.douglasPeucker 1000 collinear_points (ofZ (-1)) = None.
Proof.
  refine (@douglasPeucker_negative_tolerance float FloatNum collinear_points (ofZ (-1))
            _ _ _ 1000%nat).
  - simpl. lia.
  - intros i Hi. simpl in Hi.
    destruct i as [|[|i]]; try lia; vm_compute; reflexivity.
  - vm_compute. reflexivity.
Defined.

(* ===================================================================== *)
(** ** Quantisation and the hatch levels (vectorization-engine.ts) *)
(* ===================================================================== *)

Lemma nth_map_inside {A B : Type} (f : A -> B) (l : list A) (i : nat) (d : B) (d' : A) :
  (i < length l)%nat -> nth i (map f l) d = f (nth i l d').
Proof.
  intros Hi. rewrite (nth_indep _ d (f d')) by (now rewrite length_map).
  apply map_nth.
Qed.

(** The byte stored for a pixel of value [v]. *)
Lemma quantize_pixel (numColors : nat) (v : Z) :
  (0 < numColors)%nat -> (0 <= v <= 255)%Z ->
  let step := (255 / IZR (Z.of_nat numColors))%R in
  (0 <= Int_part (IZR (Int_part (IZR v / step)) * step) mod 256 <= v)%Z.
Proof.
  intros Hn Hv step.
  assert (Hstep : (0 < step)%R).
  { unfold step. apply Rdiv_lt_0_compat; [lra|]. apply IZR_lt. lia. }
  assert (Hv0 : (0 <= IZR v)%R) by (apply IZR_le; lia).
  assert (Hq : (0 <= IZR v / step)%R).
  { unfold Rdiv. apply Rmult_le_pos; [exact Hv0|]. apply Rlt_le. now apply Rinv_0_lt_compat. }
  pose proof (Int_part_nonneg _ Hq) as Hlevel.
  destruct (base_Int_part (IZR v / step)) as [Hlo _].
  assert (Hprod : (IZR (Int_part (IZR v / step)) * step <= IZR v)%R).
  { apply Rmult_le_compat_r with (r := step) in Hlo; [|lra].
    unfold Rdiv in Hlo. rewrite Rmult_assoc, Rinv_l, Rmult_1_r in Hlo by lra. exact Hlo. }
  assert (Hprod0 : (0 <= IZR (Int_part (IZR v / step)) * step)%R).
  { apply Rmult_le_pos; [apply IZR_le; lia | lra]. }
  pose proof (Int_part_le _ _ Hprod) as Hhi.
  pose proof (Int_part_nonneg _ Hprod0) as Hlo'.
  rewrite Z.mod_small by lia. lia.
Qed.

(** X21.  Quantisation never brightens a pixel: the quantised value of a
    byte lies between 0 and the byte. *)
Theorem quantize_never_brightens :
  forall (numColors : nat) (gray : Mat) (i : nat),
    (0 < numColors)%nat ->
    Forall (fun v => 0 <= v <= 255)%Z (mdata gray) ->
    (i < length (mdata gray))%nat ->
    (0 <= nth i (mdata (VectorizationEngine.quantize (N:=R) numColors gray)) 0
     <= nth i (mdata gray) 0)%Z.
Proof.
  intros numColors gray i Hn Hbytes Hi.
  unfold VectorizationEngine.quantize. cbn [mdata].
  rewrite (nth_map_inside _ _ _ 0%Z 0%Z) by exact Hi.
  unfold ofNat. cbn [floorZ ndiv nmul ofZ RealNum].
  apply quantize_pixel; [exact Hn|].
  rewrite Forall_forall in Hbytes. apply Hbytes. now apply nth_In.
Qed.

Lemma quantize_never_brightens_witness :
  (0 <= nth 0 (mdata (VectorizationEngine.quantize (N:=R) 2 black_pixel)) 0
   <= nth 0 (mdata black_pixel) 0)%Z.
Proof.
  apply (quantize_never_brightens 2 black_pixel 0).
  - lia.
  - repeat constructor; simpl; lia.
  - simpl. lia.
Defined.

(** A pixel is in the mask of level [L] exactly when its quantized value
    does not exceed the threshold of the level. *)
Lemma hatchLevel_pixel (numColors : nat) (gray : Mat) (L i : nat) :
  (i < length (mdata gray))%nat ->
  let step := (255 / IZR (Z.of_nat numColors))%R in
  nth i (mdata (fst (VectorizationEngine.hatchLevel (N:=R) numColors gray L))) 0%Z <> 0%Z
  <-> (IZR (nth i (mdata (VectorizationEngine.quantize (N:=R) numColors gray)) 0%Z)
       <= IZR (Z.of_nat L) * step + step / 2)%R.
Proof.
  intros Hi step.
  unfold VectorizationEngine.hatchLevel, VectorizationEngine.threshold_binary_inv.
  cbn [fst mdata].
  set (quantized := VectorizationEngine.quantize numColors gray).
  assert (Hq : (i < length (mdata quantized))%nat).
  { unfold quantized, VectorizationEngine.quantize. cbn [mdata]. now rewrite length_map. }
  rewrite (nth_map_inside _ _ _ 0%Z 0%Z) by exact Hq.
  unfold ofNat. cbn [nltb nadd nmul ndiv ofZ RealNum].
  fold step.
  destruct (RealImpl.ltb _ _) eqn:E.
  - apply real_ltb_true in E. split; [congruence | intros; lra].
  - apply real_ltb_false in E. split; [intros; lra | discriminate].
Qed.

(** X22.  The masks of the hatch levels are nested: a pixel of the mask of
    level [L] is in the mask of every higher level. *)
Theorem hatch_masks_nested :
  forall (numColors : nat) (gray : Mat) (L L' i : nat),
    (0 < numColors)%nat -> (L <= L')%nat -> (i < length (mdata gray))%nat ->
    nth i (mdata (fst (VectorizationEngine.hatchLevel (N:=R) numColors gray L))) 0%Z <> 0%Z ->
    nth i (mdata (fst (VectorizationEngine.hatchLevel (N:=R) numColors gray L'))) 0%Z <> 0%Z.
Proof.
  intros numColors gray L L' i Hn HL Hi Hsel.
  apply hatchLevel_pixel in Hsel; [|exact Hi]. apply hatchLevel_pixel; [exact Hi|].
  cbv zeta in *.
  assert (Hstep : (0 < 255 / IZR (Z.of_nat numColors))%R).
  { apply Rdiv_lt_0_compat; [lra|]. apply IZR_lt. lia. }
  assert (HLL : (IZR (Z.of_nat L) <= IZR (Z.of_nat L'))%R) by (apply IZR_le; lia).
  nra.
Qed.

Lemma hatch_masks_nested_witness :
  (0 <= 1)%nat /\
  nth 0 (mdata (fst (VectorizationEngine.hatchLevel (N:=R) 2 black_pixel 1))) 0%Z <> 0%Z.
Proof.
  split; [lia|].
  apply (hatch_masks_nested 2 black_pixel 0 1 0).
  - lia.
  - lia.
  - simpl. lia.
  - apply hatchLevel_pixel; [simpl; lia|]. cbv zeta.
    assert (Hz : nth 0 (mdata (VectorizationEngine.quantize (N:=R) 2 black_pixel)) 0%Z = 0%Z).
    { unfold VectorizationEngine.quantize, black_pixel, ofNat.
      cbn [mdata map nth floorZ ndiv nmul ofZ RealNum].
      pose proof (quantize_pixel 2 0) as Hq. cbv zeta in Hq.
      assert (H : (0 <= Int_part (IZR (Int_part (0 / (255 / IZR (Z.of_nat 2))))
                                  * (255 / IZR (Z.of_nat 2))) mod 256 <= 0)%Z)
        by (apply Hq; lia).
      destruct H as [H1 H2]. apply Z.le_antisymm; [exact H2 | exact H1]. }
    rewrite Hz. change (Z.of_nat 0) with 0%Z. change (Z.of_nat 2) with 2%Z. lra.
Defined.

(* ===================================================================== *)
(** ** The shape of the centerline paths (vectorization-engine.ts) *)
(* ===================================================================== *)

Section CenterlineShape.
Context {N : Type} {HN : Num N}.

Import VectorizationEngine.

Local Abbreviation Store := (list (list (Segment (N:=N)))).

Lemma scanRow_rows (img : ImageData) (threshold : N) (row : nat) :
  Forall (fun s => seg_y s = ofNat row /\ used s = false) (scanRow img threshold row).
Proof.
  unfold scanRow.
  set (step := fun (st : bool * nat * list Segment) (col : nat) => _).
  assert (Hfold : forall columns st,
             Forall (fun s => seg_y s = ofNat row /\ used s = false) (snd st) ->
             Forall (fun s => seg_y s = ofNat row /\ used s = false)
                    (snd (fold_left step columns st))).
  { induction columns as [|c columns IH]; intros st Hst; [exact Hst|].
    cbn [fold_left]. apply IH.
    destruct st as [[inSegment start] segs]. unfold step. cbn [snd] in *.
    destruct (_ && negb inSegment); [exact Hst|].
    destruct (negb _ && inSegment); [|exact Hst].
    cbn [snd]. apply Forall_app. split; [exact Hst|].
    constructor; [split; reflexivity | constructor]. }
  specialize (Hfold (seq 0 (width img)) (false, 0%nat, []) (Forall_nil _)).
  destruct (fold_left step (seq 0 (width img)) (false, 0%nat, [])) as [[inSegment start] segs].
  cbn [snd] in Hfold.
  destruct inSegment; [|exact Hfold].
  apply Forall_app. split; [exact Hfold|].
  constructor; [split; reflexivity | constructor].
Qed.

Lemma noSegment_used : used (noSegment (N:=N)) = true.
Proof. reflexivity. Qed.

Lemma detectSegments_rows (img : ImageData) (threshold : N) (r : SegRef) :
  used (getSeg (detectSegments img threshold) r) = false ->
  seg_y (getSeg (detectSegments img threshold) r) = ofNat (fst r).
Proof.
  destruct r as [row k]. unfold getSeg, detectSegments, at_. cbn [fst snd].
  intros Hused.
  destruct (Nat.lt_ge_cases row (height img)) as [Hrow | Hrow].
  - rewrite (nth_indep _ [] (scanRow img threshold 0)) in Hused |- *
      by (now rewrite length_map, length_seq).
    rewrite map_nth, seq_nth in Hused |- * by exact Hrow. cbn [Nat.add] in *.
    destruct (Nat.lt_ge_cases k (length (scanRow img threshold row))) as [Hk | Hk].
    + pose proof (scanRow_rows img threshold row) as Hall.
      rewrite Forall_forall in Hall.
      apply (Hall (nth k (scanRow img threshold row) noSegment)). now apply nth_In.
    + rewrite nth_overflow in Hused by exact Hk. discriminate.
  - rewrite (nth_overflow (map _ _)) in Hused by (now rewrite length_map, length_seq).
    destruct k; discriminate.
Qed.

Lemma markUsed_unchanged (store0 store : Store) (r : SegRef) :
  unused_unchanged store0 store -> unused_unchanged store0 (markUsed store r).
Proof.
  intros Hinv r' Hused.
  destruct (Nat.eq_dec (fst r) (fst r')) as [Hf | Hf];
    [destruct (Nat.eq_dec (snd r) (snd r')) as [Hs | Hs]|].
  - assert (r = r') as <- by (destruct r, r'; simpl in *; congruence).
    rewrite getSeg_markUsed_same in Hused. discriminate.
  - assert (Hne : r <> r') by congruence.
    rewrite getSeg_markUsed_other in Hused |- * by exact Hne. now apply Hinv.
  - assert (Hne : r <> r') by congruence.
    rewrite getSeg_markUsed_other in Hused |- * by exact Hne. now apply Hinv.
Qed.

Lemma trace_up_shape (store0 : Store) (proximity : N) (lo : nat) :
  forall (store : Store) (current : Segment) (path : list SegRef) (len : nat),
    unused_unchanged store0 store ->
    (forall r, used (getSeg store0 r) = false -> seg_y (getSeg store0 r) = ofNat (fst r)) ->
    map fst path = seq lo len ->
    Forall (fun r => seg_y (getSeg store0 r) = ofNat (fst r)) path ->
    let '(store', path') := trace proximity true (rev (seq 0 lo)) store current path in
    unused_unchanged store0 store' /\
    (exists lo', map fst path' = seq lo' (lo + len - lo') /\ (lo' <= lo)%nat) /\
    (length path <= length path')%nat /\
    Forall (fun r => seg_y (getSeg store0 r) = ofNat (fst r)) path'.
Proof.
  induction lo as [|lo IH]; intros store current path len Hinv H0 Hrows Hgood.
  - cbn [seq rev trace]. repeat split; try assumption; try lia.
    exists 0%nat. split; [|lia]. now rewrite Nat.sub_0_r.
  - rewrite seq_S, rev_app_distr. cbn [rev app Nat.add trace].
    destruct (findClosestUnusedSegment current (at_ [] store lo) proximity) as [k|] eqn:Hfind.
    + apply findClosest_unused in Hfind.
      assert (Hunused : used (getSeg store (lo, k)) = false) by exact Hfind.
      specialize (IH (markUsed store (lo, k)) (getSeg store (lo, k)) ((lo, k) :: path) (S len)
                     (markUsed_unchanged _ _ _ Hinv) H0).
      destruct (trace proximity true (rev (seq 0 lo)) (markUsed store (lo, k))
                      (getSeg store (lo, k)) ((lo, k) :: path)) as [store' path'].
      assert (Hrows1 : map fst ((lo, k) :: path) = seq lo (S len))
        by (cbn [map fst seq]; now rewrite Hrows).
      assert (Hgood1 : Forall (fun r => seg_y (getSeg store0 r) = ofNat (fst r))
                              ((lo, k) :: path)).
      { constructor; [|exact Hgood]. apply H0. rewrite <- (Hinv _ Hunused). exact Hunused. }
      destruct (IH Hrows1 Hgood1) as (Hinv' & (lo' & Hrows' & Hlo') & Hlen & Hgood').
      repeat split; try assumption.
      * exists lo'. split; [|lia].
        rewrite Hrows'. f_equal. lia.
      * cbn [length] in Hlen. lia.
    + repeat split; try assumption; try lia.
      exists (S lo). split; [|lia].
      rewrite Hrows. f_equal. lia.
Qed.

Lemma trace_down_shape (store0 : Store) (proximity : N) (lo n : nat) :
  forall (store : Store) (current : Segment) (path : list SegRef),
    unused_unchanged store0 store ->
    (forall r, used (getSeg store0 r) = false -> seg_y (getSeg store0 r) = ofNat (fst r)) ->
    map fst path = seq lo (length path) ->
    Forall (fun r => seg_y (getSeg store0 r) = ofNat (fst r)) path ->
    let '(store', path') :=
      trace proximity false (seq (lo + length path) n) store current path in
    unused_unchanged store0 store' /\
    map fst path' = seq lo (length path') /\
    Forall (fun r => seg_y (getSeg store0 r) = ofNat (fst r)) path'.
Proof.
  induction n as [|n IH]; intros store current path Hinv H0 Hrows Hgood.
  - cbn [seq trace]. repeat split; assumption.
  - cbn [seq trace].
    destruct (findClosestUnusedSegment current (at_ [] store (lo + length path)) proximity)
      as [k|] eqn:Hfind.
    + apply findClosest_unused in Hfind.
      assert (Hunused : used (getSeg store (lo + length path, k)%nat) = false) by exact Hfind.
      specialize (IH (markUsed store (lo + length path, k)%nat)
                     (getSeg store (lo + length path, k)%nat)
                     (path ++ [(lo + length path, k)%nat])
                     (markUsed_unchanged _ _ _ Hinv) H0).
      rewrite length_app in IH. cbn [length] in IH.
      replace (lo + (length path + 1))%nat with (S (lo + length path)) in IH by lia.
      destruct (trace proximity false (seq (S (lo + length path)) n)
                      (markUsed store (lo + length path, k)%nat)
                      (getSeg store (lo + length path, k)%nat)
                      (path ++ [(lo + length path, k)%nat])) as [store' path'].
      apply IH.
      * rewrite map_app. cbn [map fst].
        replace (length path + 1)%nat with (S (length path)) by lia.
        rewrite seq_S. f_equal. exact Hrows.
      * apply Forall_app. split; [exact Hgood|].
        constructor; [|constructor].
        apply H0. rewrite <- (Hinv _ Hunused). exact Hunused.
    + repeat split; assumption.
Qed.

Lemma stitch_step_shape (store0 : Store) (proximity : N) (rowCount : nat)
    (st : Store * list (list SegRef)) (r : SegRef) :
  (forall r, used (getSeg store0 r) = false -> seg_y (getSeg store0 r) = ofNat (fst r)) ->
  unused_unchanged store0 (fst st) ->
  Forall (fun path => (3 <= length path)%nat /\ descending store0 path) (snd st) ->
  unused_unchanged store0 (fst (stitch_step proximity rowCount st r)) /\
  Forall (fun path => (3 <= length path)%nat /\ descending store0 path)
         (snd (stitch_step proximity rowCount st r)).
Proof.
  intros H0 Hinv Hall. destruct st as [store allPaths]. cbn [fst snd] in *.
  unfold stitch_step.
  destruct (used (getSeg store r)) eqn:Hused; [split; assumption|].
  pose proof (trace_up_shape store0 proximity (fst r) (markUsed store r) (getSeg store r)
                [r] 1 (markUsed_unchanged _ _ _ Hinv) H0) as Hup.
  destruct (trace proximity true (rev (seq 0 (fst r))) (markUsed store r) (getSeg store r) [r])
    as [store2 path2].
  assert (Hgood1 : Forall (fun r0 => seg_y (getSeg store0 r0) = ofNat (fst r0)) [r]).
  { constructor; [|constructor]. apply H0. rewrite <- (Hinv _ Hused). exact Hused. }
  destruct (Hup eq_refl Hgood1) as (Hinv2 & (lo & Hrows2 & Hlo) & Hlen2 & Hgood2).
  assert (Hlen : length path2 = (fst r + 1 - lo)%nat).
  { transitivity (length (map fst path2)); [symmetry; apply length_map|].
    rewrite Hrows2. apply length_seq. }
  pose proof (trace_down_shape store0 proximity lo (rowCount - (fst r + 1)) store2
                (getSeg store r) path2 Hinv2 H0) as Hdown.
  rewrite Hlen in Hdown.
  replace (lo + (fst r + 1 - lo))%nat with (fst r + 1)%nat in Hdown by lia.
  destruct (trace proximity false (seq (fst r + 1) (rowCount - (fst r + 1))) store2
                  (getSeg store r) path2) as [store3 path3].
  destruct (Hdown Hrows2 Hgood2) as (Hinv3 & Hrows3 & Hgood3).
  destruct (3 <=? length path3)%nat eqn:Hthree; cbn [fst snd]; split; try assumption.
  apply Forall_app. split; [exact Hall|].
  constructor; [|constructor].
  split; [now apply Nat.leb_le|].
  split; [now exists lo | exact Hgood3].
Qed.

Lemma stitch_shape (store0 : Store) (proximity : N) :
  (forall r, used (getSeg store0 r) = false -> seg_y (getSeg store0 r) = ofNat (fst r)) ->
  Forall (fun path => (3 <= length path)%nat /\ descending store0 path)
         (stitch store0 proximity).
Proof.
  intros H0. unfold stitch.
  assert (Hfold : forall refs st,
             unused_unchanged store0 (fst st) ->
             Forall (fun path => (3 <= length path)%nat /\ descending store0 path) (snd st) ->
             Forall (fun path => (3 <= length path)%nat /\ descending store0 path)
                    (snd (fold_left (stitch_step proximity (length store0)) refs st))).
  { induction refs as [|r refs IH]; intros st Hinv Hall; [exact Hall|].
    cbn [fold_left].
    destruct (stitch_step_shape store0 proximity (length store0) st r H0 Hinv Hall) as [H1 H2].
    now apply IH. }
  apply Hfold; cbn [fst snd]; [intros r _; reflexivity | constructor].
Qed.

(** X23.  Every centerline path has at least three points, and its points
    lie on consecutive rows of the image, top to bottom: the [y] values
    are [row, row + 1, row + 2, ...]. *)
Theorem centerline_paths_run_down_the_rows :
  forall (img : ImageData) (threshold proximity : N),
    Forall (fun path : Path N =>
              (3 <= length path)%nat /\
              exists row, map (fun p => y p) path = map ofNat (seq row (length path)))
           (traceCenterlines img threshold proximity).
Proof.
  intros img threshold proximity. unfold traceCenterlines. cbv zeta.
  apply Forall_map.
  pose proof (stitch_shape (detectSegments img threshold) proximity
                (detectSegments_rows img threshold)) as Hall.
  eapply Forall_impl; [|exact Hall].
  intros path [Hlen [[row Hrows] Hgood]].
  rewrite length_map. split; [exact Hlen|].
  exists row. rewrite map_map. cbn [y].
  rewrite <- Hrows, map_map.
  apply map_ext_in. intros r Hr.
  rewrite Forall_forall in Hgood. now apply Hgood.
Qed.

End CenterlineShape.

(* ===================================================================== *)
(** ** Paths as linear Bezier segments (vectorization-engine.ts) *)
(* ===================================================================== *)

Section Segments.
Context {N : Type} {HN : Num N}.

Import VectorizationEngine.

Lemma chained_edges (path : Path N) (make : nat -> CurveFitter.CurveSegment (N:=N)) :
  (forall i, CurveFitter.seg_start (make i) = at_ VectorizationEngine.origin path i) ->
  (forall i, CurveFitter.seg_end (make i) = at_ VectorizationEngine.origin path (i + 1)) ->
  forall count first,
    chained (at_ VectorizationEngine.origin path first) (map make (seq first count))
            (at_ VectorizationEngine.origin path (first + count)).
Proof.
  intros Hstart Hend. induction count as [|count IH]; intros first; cbn [seq map chained].
  - now rewrite Nat.add_0_r.
  - split; [apply Hstart|]. rewrite Hend.
    replace (first + S count)%nat with (first + 1 + count)%nat by lia.
    replace (S first) with (first + 1)%nat by lia. apply IH.
Qed.

(** X24.  A path of [n >= 2] points becomes [n - 1] curves that form a chain
    from its first point to its last. *)
Theorem pathsToCurveSegments_polyline :
  forall path : Path N,
    (2 <= length path)%nat ->
    length (pathsToCurveSegments [path]) = (length path - 1)%nat /\
    chained (at_ VectorizationEngine.origin path 0) (pathsToCurveSegments [path])
            (at_ VectorizationEngine.origin path (length path - 1)).
Proof.
  intros path Hn. unfold pathsToCurveSegments. cbn [flat_map].
  replace (length path <? 2)%nat with false by (symmetry; now apply Nat.ltb_ge).
  rewrite app_nil_r. split; [now rewrite length_map, length_seq|].
  match goal with
  | |- chained _ (map ?make _) _ =>
      apply (chained_edges path make (fun i => eq_refl) (fun i => eq_refl)
                           (length path - 1) 0)
  end.
Qed.

End Segments.

Lemma pathsToCurveSegments_polyline_witness :
  length (VectorizationEngine.pathsToCurveSegments [stroke]) = (length stroke - 1)%nat /\
  chained (at_ VectorizationEngine.origin stroke 0)
          (VectorizationEngine.pathsToCurveSegments [stroke])
          (at_ VectorizationEngine.origin stroke (length stroke - 1)).
Proof.
  apply (@pathsToCurveSegments_polyline float FloatNum stroke). simpl. lia.
Defined.

(* ===================================================================== *)
(** ** Line weight simulation (variable-line-weight.ts) *)
(* ===================================================================== *)

Section LineWeight.
Context {N : Type} {HN : Num N}.

Import LineWeightSimulator.

Lemma length_offsetPath (path : Path N) (distance : N) :
  length (offsetPath path distance) = length path.
Proof.
  unfold offsetPath.
  destruct (length path <? 2)%nat; [reflexivity|].
  destruct (_ [<] _); [reflexivity|].
  now rewrite length_map, length_seq.
Qed.

Lemma flat_map_singletons {A B : Type} (f : A -> B) (keep : A -> bool) (l : list A) :
  (forall a, In a l -> keep a = true) ->
  flat_map (fun a => if keep a then [f a] else []) l = map f l.
Proof.
  induction l as [|a l IH]; intros Hkeep; cbn [flat_map map]; [reflexivity|].
  rewrite (Hkeep a (or_introl eq_refl)). cbn [app]. f_equal.
  apply IH. intros b Hb. apply Hkeep. now right.
Qed.

Lemma createParallelLines_lines (centerline : Path N) (weight : N) :
  (2 <= length centerline)%nat ->
  let numLines := Z.max 1 (ceilZ (weight [*] ofZ 2)) in
  let thickness := (weight [-] ofZ 1) [*] ofZ 2 in
  createParallelLines centerline weight
  = map (fun i =>
           offsetPath centerline
             ((ofNat i [-] ofZ (numLines - 1) [/] ofZ 2)
                [*] (thickness [/] ofZ (Z.max 1 (numLines - 1)))))
        (seq 0 (Z.to_nat numLines)).
Proof.
  intros Hn numLines thickness. unfold createParallelLines. cbv zeta.
  fold numLines. fold thickness.
  apply (flat_map_singletons
           (fun i => offsetPath centerline
                       ((ofNat i [-] ofZ (numLines - 1) [/] ofZ 2)
                          [*] (thickness [/] ofZ (Z.max 1 (numLines - 1)))))
           (fun i => (1 <? length
                             (offsetPath centerline
                                ((ofNat i [-] ofZ (numLines - 1) [/] ofZ 2)
                                   [*] (thickness [/] ofZ (Z.max 1 (numLines - 1))))))%nat)).
  intros i _. rewrite length_offsetPath. apply Nat.ltb_lt. lia.
Qed.

Lemma simulateWeight_parallel (centerline : Path N) (weight : N) :
  (2 <= length centerline)%nat ->
  (weight [<=] ofZ 1) = false ->
  length (simulateWeight centerline weight PARALLEL)
  = Z.to_nat (Z.max 1 (ceilZ (weight [*] ofZ 2))) /\
  Forall (fun line => length line = length centerline)
         (simulateWeight centerline weight PARALLEL).
Proof.
  intros Hn Hw. unfold simulateWeight.
  replace (length centerline <? 2)%nat with false by (symmetry; now apply Nat.ltb_ge).
  rewrite Hw, createParallelLines_lines by exact Hn. cbv zeta.
  split; [now rewrite length_map, length_seq|].
  apply Forall_map, Forall_forall. intros i _. apply length_offsetPath.
Qed.

Lemma simulateWeight_nonempty (centerline : Path N) (weight : N) (style : LineWeightStyle) :
  (1 <= length (simulateWeight centerline weight style))%nat.
Proof.
  unfold simulateWeight.
  destruct (length centerline <? 2)%nat eqn:Hn; [simpl; lia|].
  apply Nat.ltb_ge in Hn.
  destruct (weight [<=] ofZ 1); [simpl; lia|].
  destruct style.
  - rewrite createParallelLines_lines by exact Hn. cbv zeta.
    rewrite length_map, length_seq. lia.
  - unfold createOutlineFill. cbv zeta.
    rewrite !length_app, length_offsetPath.
    replace (1 <? length centerline)%nat with true by (symmetry; apply Nat.ltb_lt; lia).
    cbn [length]. lia.
  - unfold createScribbleFill. cbv zeta. cbn [length]. lia.
  - unfold createZigzagFill. cbv zeta.
    rewrite !length_app, !length_offsetPath.
    replace (1 <? length centerline)%nat with true by (symmetry; apply Nat.ltb_lt; lia).
    cbn [length]. lia.
Qed.

End LineWeight.

(** X26.  For a centerline of at least two points and a weight above 1, the
    PARALLEL style draws exactly [ceil(2 weight)] lines, which is three or
    more, each with as many points as the centerline. *)
Theorem parallel_style_line_count :
  forall (centerline : Path R) (weight : R),
    (2 <= length centerline)%nat ->
    (1 < weight)%R ->
    let lines :=
      LineWeightSimulator.simulateWeight centerline weight LineWeightSimulator.PARALLEL in
    length lines = Z.to_nat (ceilZ (weight * 2)%R) /\
    (3 <= length lines)%nat /\
    Forall (fun line => length line = length centerline) lines.
Proof.
  intros centerline weight Hn Hw. cbv zeta.
  destruct (simulateWeight_parallel centerline weight Hn) as [Hcount Hlines].
  { apply real_leb_false. exact Hw. }
  cbn [nmul ofZ RealNum] in Hcount.
  assert (Hceil : (3 <= ceilZ (weight * 2)%R)%Z).
  { unfold ceilZ. cbn [floorZ nopp RealNum].
    destruct (base_Int_part (- (weight * 2))) as [Hlo _].
    assert (H : (IZR (Int_part (- (weight * 2))) < -2)%R) by lra.
    apply lt_IZR in H. lia. }
  rewrite Z.max_r in Hcount by lia.
  repeat split; [exact Hcount | rewrite Hcount; lia | exact Hlines].
Qed.

Lemma parallel_style_line_count_witness :
  length (LineWeightSimulator.simulateWeight thick_stroke 2%R LineWeightSimulator.PARALLEL)
  = Z.to_nat (ceilZ (2 * 2)%R) /\
  (3 <= length (LineWeightSimulator.simulateWeight thick_stroke 2%R
                                                    LineWeightSimulator.PARALLEL))%nat /\
  Forall (fun line => length line = length thick_stroke)
         (LineWeightSimulator.simulateWeight thick_stroke 2%R LineWeightSimulator.PARALLEL).
Proof.
  apply (parallel_style_line_count thick_stroke 2%R).
  - simpl. lia.
  - lra.
Defined.

(** X27.  [simulateVariableWeight] returns at least one path for every
    weighted path it is given, whatever the (real) weights and the styles. *)
Theorem simulateVariableWeight_keeps_every_path :
  forall weightedPaths : list (LineWeightSimulator.WeightedPath (N:=R)),
    (length weightedPaths
     <= length (LineWeightSimulator.simulateVariableWeight weightedPaths))%nat.
Proof.
  intros weightedPaths. unfold LineWeightSimulator.simulateVariableWeight.
  assert (Hfold : forall wps (out : list (Path R)),
             (length wps + length out
              <= length (fold_left
                           (fun outputPaths weightedPath =>
                              outputPaths ++
                                LineWeightSimulator.simulateWeight
                                  (LineWeightSimulator.centerline weightedPath)
                                  (LineWeightSimulator.weight weightedPath)
                                  (LineWeightSimulator.style weightedPath))
                           wps out))%nat).
  { induction wps as [|wp wps IH]; intros out; cbn [fold_left length]; [lia|].
    specialize (IH (out ++ LineWeightSimulator.simulateWeight
                             (LineWeightSimulator.centerline wp)
                             (LineWeightSimulator.weight wp)
                             (LineWeightSimulator.style wp))).
    rewrite length_app in IH.
    pose proof (simulateWeight_nonempty (LineWeightSimulator.centerline wp)
                  (LineWeightSimulator.weight wp) (LineWeightSimulator.style wp)).
    lia. }
  specialize (Hfold weightedPaths []). cbn [length] in Hfold. lia.
Qed.

(* ===================================================================== *)
(** ** Line weight analysis (variable-line-weight.ts) *)
(* ===================================================================== *)

(** X29.  The index of every sample that [analyzeLineWeight] takes lies
    within the path. *)
Theorem analyzeLineWeight_samples_stay_on_path :
  forall (pathLength i : nat),
    (2 <= pathLength)%nat -> (i < Nat.min 10 pathLength)%nat ->
    (0 <= LineWeightAnalysis.sampleIndex (N:=R) pathLength (Nat.min 10 pathLength) i
     < Z.of_nat pathLength)%Z.
Proof.
  intros pathLength i Hlen Hi.
  unfold LineWeightAnalysis.sampleIndex, ofNat. cbn [floorZ ndiv nmul ofZ RealNum].
  set (s := Nat.min 10 pathLength) in *.
  assert (Hs : (2 <= s)%nat) by (unfold s; lia).
  assert (Hden : (0 < IZR (Z.of_nat (s - 1)))%R) by (apply IZR_lt; lia).
  assert (Hi0 : (0 <= IZR (Z.of_nat i))%R) by (apply IZR_le; lia).
  assert (Hi1 : (IZR (Z.of_nat i) <= IZR (Z.of_nat (s - 1)))%R) by (apply IZR_le; lia).
  assert (Hl : (0 <= IZR (Z.of_nat (pathLength - 1)))%R) by (apply IZR_le; lia).
  assert (Hratio : (0 <= IZR (Z.of_nat i) / IZR (Z.of_nat (s - 1)) <= 1)%R).
  { split.
    - apply Rmult_le_pos; [exact Hi0|]. apply Rlt_le. now apply Rinv_0_lt_compat.
    - apply Rmult_le_reg_r with (r := IZR (Z.of_nat (s - 1))); [exact Hden|].
      unfold Rdiv. rewrite Rmult_assoc, Rinv_l by lra. lra. }
  split.
  - apply Int_part_nonneg. apply Rmult_le_pos; lra.
  - assert (Hle : (Int_part (IZR (Z.of_nat i) / IZR (Z.of_nat (s - 1))
                             * IZR (Z.of_nat (pathLength - 1)))
                   <= Z.of_nat (pathLength - 1))%Z).
    { apply Int_part_le. nra. }
    lia.
Qed.

Lemma analyzeLineWeight_samples_stay_on_path_witness :
  (0 <= LineWeightAnalysis.sampleIndex (N:=R) 25 (Nat.min 10 25) 9 < Z.of_nat 25)%Z.
Proof.
  apply (analyzeLineWeight_samples_stay_on_path 25 9); simpl; lia.
Defined.

Lemma byte_at (data : list Z) (i : nat) : bytes data -> (0 <= at_ 0%Z data i <= 255)%Z.
Proof.
  intros Hbytes. unfold at_.
  destruct (Nat.lt_ge_cases i (length data)) as [Hi | Hi].
  - unfold bytes in Hbytes. rewrite Forall_forall in Hbytes. apply Hbytes. now apply nth_In.
  - rewrite nth_overflow by exact Hi. lia.
Qed.

Lemma brightness_range (data : list Z) (i : nat) :
  bytes data ->
  (0 <= IZR (at_ 0%Z data i + at_ 0%Z data (i + 1) + at_ 0%Z data (i + 2)) / 3 <= 255)%R.
Proof.
  intros Hbytes.
  pose proof (byte_at data i Hbytes) as H0.
  pose proof (byte_at data (i + 1) Hbytes) as H1.
  pose proof (byte_at data (i + 2) Hbytes) as H2.
  assert (Hlo : (0 <= IZR (at_ 0%Z data i + at_ 0%Z data (i + 1) + at_ 0%Z data (i + 2)))%R)
    by (apply IZR_le; lia).
  assert (Hhi : (IZR (at_ 0%Z data i + at_ 0%Z data (i + 1) + at_ 0%Z data (i + 2)) <= 765)%R)
    by (apply IZR_le; lia).
  lra.
Qed.

Lemma extremes_step (lo hi b : R) :
  (0 <= b <= 255)%R ->
  (0 <= lo <= 255)%R -> (0 <= hi <= 255)%R ->
  (0 <= Rmin lo b <= 255)%R /\ (0 <= Rmax hi b <= 255)%R /\ (Rmin lo b <= Rmax hi b)%R.
Proof.
  intros Hb Hlo Hhi.
  pose proof (Rmin_l lo b). pose proof (Rmin_r lo b).
  pose proof (Rmax_l hi b). pose proof (Rmax_r hi b).
  assert (0 <= Rmin lo b)%R by (apply Rmin_glb; lra).
  assert (Rmax hi b <= 255)%R by (apply Rmax_lub; lra).
  repeat split; lra.
Qed.

Lemma extremes_fold (data : list Z) (idx : Z -> Z -> nat) :
  bytes data ->
  let result :=
    fold_left
      (fun st dy =>
         fold_left
           (fun (st2 : R * R) dx =>
              let brightness :=
                (IZR (at_ 0%Z data (idx dy dx) + at_ 0%Z data (idx dy dx + 1)
                      + at_ 0%Z data (idx dy dx + 2)) / 3)%R in
              (Rmin (fst st2) brightness, Rmax (snd st2) brightness))
           [-1; 0; 1]%Z st)
      [-1; 0; 1]%Z (255%R, 0%R) in
  (0 <= fst result <= snd result)%R /\ (snd result <= 255)%R.
Proof.
  intros Hbytes.
  set (P := fun st : R * R => (0 <= fst st <= 255)%R /\ (0 <= snd st <= 255)%R).
  set (Q := fun st : R * R => P st /\ (fst st <= snd st)%R).
  assert (Hstep : forall dy dx (st : R * R),
             P st ->
             Q (Rmin (fst st)
                     (IZR (at_ 0%Z data (idx dy dx) + at_ 0%Z data (idx dy dx + 1)
                           + at_ 0%Z data (idx dy dx + 2)) / 3),
                Rmax (snd st)
                     (IZR (at_ 0%Z data (idx dy dx) + at_ 0%Z data (idx dy dx + 1)
                           + at_ 0%Z data (idx dy dx + 2)) / 3))).
  { intros dy dx [lo hi] [Hlo Hhi]. cbn [fst snd] in *. unfold Q, P. cbn [fst snd].
    pose proof (extremes_step lo hi _ (brightness_range data (idx dy dx) Hbytes) Hlo Hhi)
      as Hs.
    repeat split; apply Hs. }
  assert (HP : P (255%R, 0%R)) by (unfold P; cbn [fst snd]; lra).
  cbv zeta. cbn [fold_left].
  assert (HQ : forall st, Q st -> P st) by (intros st [H _]; exact H).
  match goal with
  | |- (0 <= fst ?r <= snd ?r)%R /\ (snd ?r <= 255)%R =>
      assert (Hr : Q r)
  end.
  { repeat (apply Hstep; first [exact HP | apply HQ]). }
  destruct Hr as [[Hlo Hhi] Hle]. lra.
Qed.

Lemma measureLocalContrast_range (point : Point R)
    (imageData : VectorizationEngine.ImageData) :
  bytes (VectorizationEngine.data imageData) ->
  LineWeightAnalysis.measureLocalContrast point imageData = (-1)%R \/
  (0 <= LineWeightAnalysis.measureLocalContrast point imageData <= 1)%R.
Proof.
  intros Hbytes. unfold LineWeightAnalysis.measureLocalContrast. cbv zeta.
  destruct (_ || _); [left; reflexivity|]. right.
  pose proof (extremes_fold (VectorizationEngine.data imageData)
                (fun dy dx =>
                   Z.to_nat (((floorZ (y point) + dy)
                              * Z.of_nat (VectorizationEngine.width imageData)
                              + (floorZ (x point) + dx)) * 4))
                Hbytes) as Hext.
  cbv zeta in Hext.
  unfold LineWeightAnalysis.neighbourhood.
  match type of Hext with
  | (0 <= fst ?r <= snd ?r)%R /\ _ =>
      match goal with
      | |- context [let '(a, b) := ?r' in _] => change r' with r
      end;
      destruct r as [lo hi]
  end.
  cbn [fst snd nsub ndiv ofZ RealNum] in *.
  destruct Hext as [[Hlo Hle] Hhi].
  split.
  - apply Rmult_le_pos; lra.
  - apply Rmult_le_reg_r with (r := 255%R); [lra|].
    unfold Rdiv. rewrite Rmult_assoc, Rinv_l by lra. lra.
Qed.

(** X30.  The weight computed by [analyzeLineWeight] lies in [1, 3] for the
    context 'outline', in [1, 2] for 'detail' and in [0.5, 1] for 'fill'. *)
Theorem analyzeLineWeight_range :
  forall (path : Path R) (imageData : VectorizationEngine.ImageData)
         (context : LineWeightAnalysis.WeightContext),
    bytes (VectorizationEngine.data imageData) ->
    let weight := LineWeightAnalysis.analyzeLineWeight path imageData context in
    match context with
    | LineWeightAnalysis.OUTLINE_CONTEXT => (1 <= weight <= 3)%R
    | LineWeightAnalysis.DETAIL_CONTEXT => (1 <= weight <= 2)%R
    | LineWeightAnalysis.FILL_CONTEXT => (1 / 2 <= weight <= 1)%R
    end.
Proof.
  intros path imageData context Hbytes. cbv zeta.
  unfold LineWeightAnalysis.analyzeLineWeight.
  assert (Hone : match context with
                 | LineWeightAnalysis.OUTLINE_CONTEXT => (1 <= 1 <= 3)%R
                 | LineWeightAnalysis.DETAIL_CONTEXT => (1 <= 1 <= 2)%R
                 | LineWeightAnalysis.FILL_CONTEXT => (1 / 2 <= 1 <= 1)%R
                 end) by (destruct context; lra).
  destruct (length path <? 2)%nat; [exact Hone|]. cbv zeta.
  set (samples := seq 0 (Nat.min 10 (length path))).
  set (f := fun (st : R * nat) (i : nat) => _).
  assert (Hinv : forall l st,
             (0 <= fst st <= INR (snd st))%R ->
             (0 <= fst (fold_left f l st) <= INR (snd (fold_left f l st)))%R).
  { induction l as [|i l IH]; intros st Hst; cbn [fold_left]; [exact Hst|].
    apply IH. unfold f.
    destruct (measureLocalContrast_range
                (at_ LineWeightAnalysis.origin path
                     (Z.to_nat (LineWeightAnalysis.sampleIndex (length path)
                                  (Nat.min 10 (length path)) i)))
                imageData Hbytes) as [-> | Hc].
    - cbn [nleb ofZ RealNum].
      replace (RealImpl.leb 0 (-1)) with false
        by (symmetry; apply real_leb_false; lra).
      exact Hst.
    - cbn [nleb nadd ofZ RealNum].
      destruct (RealImpl.leb 0 _); [|exact Hst].
      cbn [fst snd]. rewrite S_INR. lra. }
  specialize (Hinv samples (ofZ 0, 0%nat)).
  destruct (fold_left f samples (ofZ 0, 0%nat)) as [totalContrast validSamples].
  cbn [fst snd ofZ RealNum INR] in Hinv. specialize (Hinv ltac:(lra)).
  destruct (Nat.eqb validSamples 0) eqn:Hvalid; [exact Hone|].
  apply Nat.eqb_neq in Hvalid.
  unfold ofNat, dec. cbn [nadd nsub nmul ndiv nmax ofZ RealNum].
  rewrite <- INR_IZR_INZ.
  assert (Hpos : (0 < INR validSamples)%R) by (apply lt_0_INR; lia).
  assert (Havg : (0 <= totalContrast / INR validSamples <= 1)%R).
  { split.
    - apply Rmult_le_pos; [lra|]. apply Rlt_le. now apply Rinv_0_lt_compat.
    - apply Rmult_le_reg_r with (r := INR validSamples); [exact Hpos|].
      unfold Rdiv. rewrite Rmult_assoc, Rinv_l by lra. lra. }
  destruct context.
  - lra.
  - lra.
  - pose proof (Rmax_l (5 / 10) (1 - totalContrast / INR validSamples * (5 / 10))).
    assert (Rmax (5 / 10) (1 - totalContrast / INR validSamples * (5 / 10)) <= 1)%R
      by (apply Rmax_lub; lra).
    lra.
Qed.

Lemma measureLocalContrast_grey_corner :
  LineWeightAnalysis.measureLocalContrast (rpt 1 1) grey_corner = ((255 - 102) / 255)%R.
Proof.
  unfold LineWeightAnalysis.measureLocalContrast. cbv zeta.
  cbn [x y rpt floorZ RealNum].
  rewrite (Int_part_unique 1 1) by lra.
  cbn [VectorizationEngine.width VectorizationEngine.height VectorizationEngine.data
       grey_corner].
  change ((1 <? 1)%Z || (Z.of_nat 3 - 1 <=? 1)%Z || (1 <? 1)%Z || (Z.of_nat 3 - 1 <=? 1)%Z)
    with false.
  cbv iota.
  unfold LineWeightAnalysis.neighbourhood. cbn [fold_left fst snd].
  repeat match goal with
         | |- context [at_ 0%Z ?l ?i] =>
             let v := eval vm_compute in (at_ 0%Z l i) in
             change (at_ 0%Z l i) with v
         end.
  change (102 + 102 + 102)%Z with 306%Z. change (255 + 255 + 255)%Z with 765%Z.
  cbn [nmax nmin nsub ndiv ofZ RealNum].
  repeat match goal with
         | |- context [Rmax ?a ?b] =>
             first [rewrite (Rmax_left a b) by lra | rewrite (Rmax_right a b) by lra]
         | |- context [Rmin ?a ?b] =>
             first [rewrite (Rmin_left a b) by lra | rewrite (Rmin_right a b) by lra]
         end.
  lra.
Qed.

Lemma analyzeLineWeight_grey_corner :
  LineWeightAnalysis.analyzeLineWeight centre_stroke grey_corner
    LineWeightAnalysis.DETAIL_CONTEXT = (8 / 5)%R.
Proof.
  unfold LineWeightAnalysis.analyzeLineWeight, centre_stroke.
  cbn [length Nat.ltb Nat.leb Nat.min seq fold_left]. cbv zeta.
  unfold LineWeightAnalysis.sampleIndex, ofNat.
  cbn [Nat.sub Z.of_nat Pos.of_succ_nat floorZ ndiv nmul ofZ RealNum fold_left].
  replace (0 / 1 * 1)%R with 0%R by lra. replace (1 / 1 * 1)%R with 1%R by lra.
  rewrite (Int_part_unique 0 0), (Int_part_unique 1 1) by lra.
  change (at_ LineWeightAnalysis.origin [rpt 1 1; rpt 1 1] (Z.to_nat 0)) with (rpt 1 1).
  change (at_ LineWeightAnalysis.origin [rpt 1 1; rpt 1 1] (Z.to_nat 1)) with (rpt 1 1).
  rewrite measureLocalContrast_grey_corner.
  cbn [nleb nadd ofZ RealNum].
  replace (RealImpl.leb 0 ((255 - 102) / 255)) with true
    by (symmetry; apply real_leb_true; lra).
  cbn [fst snd Nat.eqb Z.of_nat Pos.of_succ_nat Pos.succ nadd nmul ndiv ofZ RealNum].
  lra.
Qed.

Lemma analyzeLineWeight_range_witness :
  LineWeightAnalysis.analyzeLineWeight centre_stroke grey_corner
    LineWeightAnalysis.DETAIL_CONTEXT = (8 / 5)%R /\
  (1 <= LineWeightAnalysis.analyzeLineWeight centre_stroke grey_corner
          LineWeightAnalysis.DETAIL_CONTEXT <= 2)%R.
Proof.
  split; [exact analyzeLineWeight_grey_corner|].
  apply (analyzeLineWeight_range centre_stroke grey_corner
           LineWeightAnalysis.DETAIL_CONTEXT).
  unfold bytes, grey_corner. cbn [VectorizationEngine.data].
  repeat constructor; lia.
Defined.
